(** * thor: transactions and blocks

  A shallow embedding of [tx/transaction.go] and [block/block.go]:
  the multi-clause transaction with its intrinsic-gas rule, the
  canonical (RLP) encoding and decoding of transactions and blocks,
  the signing hash, the defensive-copy accessors and the memoised
  block size.

  Go's [uint64] is a [Z] with its range written out, [*big.Int] is a
  [Z], byte slices are [list byte]; the part of Go's memory that the
  copying accessors touch is a finite map from locations to cells. *)

From Stdlib Require Import ZArith List Lia Bool.
From Stdlib Require Import Init.Byte Strings.Byte.
From stdpp Require Import base option list gmap.

Local Open Scope Z_scope.

(** ** Bytes and machine integers *)

Abbreviation byte := Init.Byte.byte.

Definition byte_to_Z (b : byte) : Z := Z.of_N (Byte.to_N b).

(** Go's [byte(x)] conversion keeps the low eight bits. *)
Definition byte_of_Z (z : Z) : byte :=
  match Byte.of_N (Z.to_N (z mod 256)) with
  | Some b => b
  | None => x00
  end.

(** [uint64] arithmetic wraps around. *)
Definition wrap64 (z : Z) : Z := z mod 2 ^ 64.

Definition is_uint64 (z : Z) : Prop := 0 <= z < 2 ^ 64.

(** ** Errors *)

Inductive error : Type :=
| ErrGasTooLarge      (* errors.New: intrinsic gas too large *)
| ErrEOF              (* io.EOF, io.ErrUnexpectedEOF *)
| EOL                 (* rlp: end of list *)
| ErrExpectedString
| ErrExpectedList
| ErrCanonInt
| ErrCanonSize
| ErrElemTooLarge
| ErrUintOverflow
| ErrTooFewElements   (* decodeError: too few elements *)
| ErrNotAtEOL         (* rlp: call of ListEnd not positioned at EOL *)
| ErrNegativeBigInt   (* rlp: cannot encode negative *big.Int *)
| ErrStringTooLong    (* decodeError: input string too long *)
| ErrStringTooShort   (* decodeError: input string too short *)
| ErrCollaborator (code : Z)    (* an error of a clause or header codec *)
| Diverges.           (* no error of Go: the loop would not end *)

Inductive result (A : Type) : Type :=
| Ok (a : A)
| Err (e : error).
Arguments Ok {A} a.
Arguments Err {A} e.

Definition bind {A B : Type} (r : result A) (k : A -> result B) : result B :=
  match r with
  | Ok a => k a
  | Err e => Err e
  end.

Notation "'let*' x ':=' r 'in' k" := (bind r (fun x => k))
  (at level 10, x name, r at level 100, k at level 200, only parsing).
Notation "'let*' ( x , y ) ':=' r 'in' k" := (bind r (fun '(x, y) => k))
  (at level 10, x name, y name, r at level 100, k at level 200,
   only parsing).

(** [mapM] for [result]: stops at the first error. *)
Fixpoint mapM {A B : Type} (f : A -> result B) (l : list A)
    : result (list B) :=
  match l with
  | [] => Ok []
  | x :: l' =>
      let* y := f x in
      let* ys := mapM f l' in
      Ok (y :: ys)
  end.

(** ** math/big *)

Module big.

(** [Int.BitLen]: length of the absolute value in bits, 0 for 0. *)
Definition BitLen (x : Z) : Z :=
  if x =? 0 then 0 else Z.log2 (Z.abs x) + 1.

(** [Int.Uint64]: the low 64 bits of the absolute value. *)
Definition Uint64 (x : Z) : Z := Z.abs x mod 2 ^ 64.

(** [Int.SetUint64], [big.NewInt]: the integer itself. *)
Definition SetUint64 (u : Z) : Z := u.

(** [n] bytes of [i], most significant first. *)
Fixpoint be_fixed (n : nat) (i : Z) : list byte :=
  match n with
  | O => []
  | S n' => be_fixed n' (Z.shiftr i 8) ++ [byte_of_Z i]
  end.

(** [Int.Bytes]: the absolute value, big-endian, without leading zeros. *)
Definition Bytes (x : Z) : list byte :=
  be_fixed (Z.to_nat ((BitLen x + 7) / 8)) (Z.abs x).

(** [Int.SetBytes]: the big-endian unsigned integer held by [buf]. *)
Definition SetBytes (buf : list byte) : Z :=
  fold_left (fun acc b => acc * 256 + byte_to_Z b) buf 0.

End big.

(** ** go-ethereum/params: the gas schedule *)

Module params.
Definition TxGas : Z := 21000.
Definition TxGasContractCreation : Z := 53000.
Definition TxDataZeroGas : Z := 4.
Definition TxDataNonZeroGas : Z := 68.
End params.

(** ** go-ethereum/core.IntrinsicGas, the version that returns a
    [big.Int] *)

Module core.

(** The loop counting the non-zero bytes of [data]. *)
Definition nonZeroBytes (data : list byte) : Z :=
  fold_left (fun nz byt => if byte_to_Z byt =? 0 then nz else nz + 1)
            data 0.

Definition IntrinsicGas (data : list byte)
    (contractCreation homestead : bool) : Z :=
  let igas :=
    if contractCreation && homestead
    then big.SetUint64 params.TxGasContractCreation
    else big.SetUint64 params.TxGas in
  if 0 <? Z.of_nat (length data) then
    let nz := nonZeroBytes data in
    let m := nz * big.SetUint64 params.TxDataNonZeroGas in
    let igas := igas + m in
    let m := (Z.of_nat (length data) - nz)
             * big.SetUint64 params.TxDataZeroGas in
    igas + m
  else igas.

End core.

(** ** go-ethereum/rlp: the canonical encoding

    The encoder appends to a byte buffer; the decoder reads a [Stream].
    A stream is the input that is left inside the innermost list being
    read (or of the whole input): entering a list splits off its payload,
    and [ListEnd] asks that the payload has been used up.

    Errors are told apart as far as the decoder itself looks at them:
    [EOL] ends the loop over the elements of a list and becomes too few
    elements inside a struct, [ErrCanonSize] becomes [ErrCanonInt] inside
    an integer. Outside any list Go reports [io.EOF] at the end of the
    input and a value that is too large where this model reports [EOL]
    and an element that is too large. *)

Module rlp.

Definition Stream : Type := list byte.

Inductive Kind : Type := Byte | String | List.

(** *** Encoder *)

(** [putint]: the switch on the magnitude of [i] writes its bytes,
    most significant first. *)
Definition putint (i : Z) : list byte :=
  if i <? 2 ^ 8 then big.be_fixed 1 i
  else if i <? 2 ^ 16 then big.be_fixed 2 i
  else if i <? 2 ^ 24 then big.be_fixed 3 i
  else if i <? 2 ^ 32 then big.be_fixed 4 i
  else if i <? 2 ^ 40 then big.be_fixed 5 i
  else if i <? 2 ^ 48 then big.be_fixed 6 i
  else if i <? 2 ^ 56 then big.be_fixed 7 i
  else big.be_fixed 8 i.

Definition puthead (smalltag largetag : Z) (size : Z) : list byte :=
  if size <? 56 then [byte_of_Z (smalltag + size)]
  else
    let sz := putint size in
    byte_of_Z (largetag + Z.of_nat (length sz)) :: sz.

Definition encodeStringHeader (size : Z) : list byte :=
  puthead 0x80 0xB7 size.

Definition encodeString (b : list byte) : list byte :=
  match b with
  | [b0] =>
      if byte_to_Z b0 <=? 0x7F then [b0]
      else encodeStringHeader 1 ++ b
  | _ => encodeStringHeader (Z.of_nat (length b)) ++ b
  end.

Definition writeUint (i : Z) : list byte :=
  if i =? 0 then [x80]
  else if i <? 128 then [byte_of_Z i]
  else
    let s := putint i in
    byte_of_Z (0x80 + Z.of_nat (length s)) :: s.

Definition writeBigInt (i : Z) : result (list byte) :=
  if i <? 0 then Err ErrNegativeBigInt
  else if i =? 0 then Ok [x80]
  else Ok (encodeString (big.Bytes i)).

(** [writeByteArray], for [thor.Hash] and [thor.Address]. *)
Definition writeByteArray (a : list byte) : list byte := encodeString a.

(** A nil pointer to a byte array is written as the empty string. *)
Definition writeNilByteArray : list byte := [x80].

(** A list: the header for the size of the payload, then the payload. *)
Definition writeList (payload : list byte) : list byte :=
  puthead 0xC0 0xF7 (Z.of_nat (length payload)) ++ payload.

(** *** Decoder *)

Definition readFull (n : Z) (s : Stream) : result (list byte * Stream) :=
  if Z.of_nat (length s) <? n then Err ErrEOF
  else Ok (take (Z.to_nat n) s, drop (Z.to_nat n) s).

Definition readUint (size : Z) (s : Stream) : result (Z * Stream) :=
  if size =? 0 then Ok (0, s)
  else if size =? 1 then
    match s with
    | [] => Err ErrEOF
    | b :: s' => Ok (byte_to_Z b, s')
    end
  else
    let* (buf, s') := readFull size s in
    match buf with
    | b :: _ =>
        if byte_to_Z b =? 0 then Err ErrCanonSize
        else Ok (big.SetBytes buf, s')
    | [] => Ok (0, s')
    end.

(** [readKind] returns the kind, the size and the byte value of a
    single-byte item, with the stream after the header. *)
Definition readKind (s : Stream) : result (Kind * Z * byte * Stream) :=
  match s with
  | [] => Err ErrEOF
  | b0 :: s' =>
      let b := byte_to_Z b0 in
      if b <? 0x80 then Ok (Byte, 0, b0, s')
      else if b <? 0xB8 then Ok (String, b - 0x80, x00, s')
      else if b <? 0xC0 then
        let* (size, s'') := readUint (b - 0xB7) s' in
        if size <? 56 then Err ErrCanonSize
        else Ok (String, size, x00, s'')
      else if b <? 0xF8 then Ok (List, b - 0xC0, x00, s')
      else
        let* (size, s'') := readUint (b - 0xF7) s' in
        if size <? 56 then Err ErrCanonSize
        else Ok (List, size, x00, s'')
  end.

(** [Stream.Kind]: at the end of the list there is no next item; an item
    may not be larger than what is left of the list. *)
Definition StreamKind (s : Stream) : result (Kind * Z * byte * Stream) :=
  match s with
  | [] => Err EOL
  | _ =>
      let* (ksb, s') := readKind s in
      let '(kind, size, byteval) := ksb in
      if Z.of_nat (length s') <? size then Err ErrElemTooLarge
      else Ok (kind, size, byteval, s')
  end.

(** [Stream.Bytes] *)
Definition Bytes (s : Stream) : result (list byte * Stream) :=
  let* (ksb, s') := StreamKind s in
  let '(kind, size, byteval) := ksb in
  match kind with
  | Byte => Ok ([byteval], s')
  | String =>
      let* (b, s'') := readFull size s' in
      match b with
      | [b0] => if byte_to_Z b0 <? 128 then Err ErrCanonSize
                else Ok (b, s'')
      | _ => Ok (b, s'')
      end
  | List => Err ErrExpectedString
  end.

(** [Stream.uint] at [maxbits = 64], behind [decodeUint]. *)
Definition decodeUint (s : Stream) : result (Z * Stream) :=
  let* (ksb, s') := StreamKind s in
  let '(kind, size, byteval) := ksb in
  match kind with
  | Byte =>
      if byte_to_Z byteval =? 0 then Err ErrCanonInt
      else Ok (byte_to_Z byteval, s')
  | String =>
      if 64 / 8 <? size then Err ErrUintOverflow
      else
        match readUint size s' with
        | Err ErrCanonSize => Err ErrCanonInt
        | Err e => Err e
        | Ok (v, s'') =>
            if (0 <? size) && (v <? 128) then Err ErrCanonSize
            else Ok (v, s'')
        end
  | List => Err ErrExpectedString
  end.

Definition decodeBigInt (s : Stream) : result (Z * Stream) :=
  let* (b, s') := Bytes s in
  match b with
  | b0 :: _ =>
      if byte_to_Z b0 =? 0 then Err ErrCanonInt
      else Ok (big.SetBytes b, s')
  | [] => Ok (big.SetBytes b, s')
  end.

Definition decodeByteSlice (s : Stream) : result (list byte * Stream) :=
  Bytes s.

(** [decodeByteArray] into an array of [vlen] bytes. *)
Definition decodeByteArray (vlen : Z) (s : Stream)
    : result (list byte * Stream) :=
  let* (ksb, s') := StreamKind s in
  let '(kind, size, byteval) := ksb in
  match kind with
  | Byte =>
      if vlen =? 0 then Err ErrStringTooLong
      else if 1 <? vlen then Err ErrStringTooShort
      else Ok ([byteval], s')
  | String =>
      if vlen <? size then Err ErrStringTooLong
      else if size <? vlen then Err ErrStringTooShort
      else
        let* (slice, s'') := readFull vlen s' in
        match slice with
        | [b0] => if byte_to_Z b0 <? 128 then Err ErrCanonSize
                  else Ok (slice, s'')
        | _ => Ok (slice, s'')
        end
  | List => Err ErrExpectedString
  end.

(** The decoder of a pointer field tagged [nil]: an empty string or an
    empty list gives the nil pointer. *)
Definition decodeOptionalPtr {A : Type}
    (elemdec : Stream -> result (A * Stream)) (s : Stream)
    : result (option A * Stream) :=
  match StreamKind s with
  | Err e => Err e
  | Ok (kind, size, _, s') =>
      if (size =? 0) && negb (match kind with Byte => true | _ => false end)
      then Ok (None, s')
      else
        let* (v, s'') := elemdec s in
        Ok (Some v, s'')
  end.

(** [Stream.List]: the payload of the list and the stream after it. *)
Definition StreamList (s : Stream) : result (Stream * Stream) :=
  let* (ksb, s') := StreamKind s in
  let '(kind, size, _) := ksb in
  match kind with
  | List => Ok (take (Z.to_nat size) s', drop (Z.to_nat size) s')
  | _ => Err ErrExpectedList
  end.

(** [Stream.ListEnd], on what is left of the payload. *)
Definition ListEnd (payload : Stream) : result unit :=
  match payload with
  | [] => Ok tt
  | _ => Err ErrNotAtEOL
  end.

(** [decodeSliceElems]: elements are decoded until the element decoder
    reports the end of the list; the result is the elements with what is
    left of the payload. An element decoder that succeeds uses up input,
    so one round more than the length of the payload is enough; with a
    decoder that uses none the loop of Go does not end, which is
    [Diverges] here. *)
Fixpoint decodeSliceElems {A : Type}
    (elemdec : Stream -> result (A * Stream)) (fuel : nat) (s : Stream)
    : result (list A * Stream) :=
  match fuel with
  | O => Err Diverges
  | S fuel' =>
      match elemdec s with
      | Err EOL => Ok ([], s)
      | Err e => Err e
      | Ok (x, s') =>
          let* (xs, s'') := decodeSliceElems elemdec fuel' s' in
          Ok (x :: xs, s'')
      end
  end.

(** [decodeListSlice]: an empty list is not handed to the element
    decoder. *)
Definition decodeListSlice {A : Type}
    (elemdec : Stream -> result (A * Stream)) (s : Stream)
    : result (list A * Stream) :=
  let* (payload, rest) := StreamList s in
  if Z.of_nat (length payload) =? 0 then
    let* _ := ListEnd payload in
    Ok ([], rest)
  else
    let* (xs, payload') :=
      decodeSliceElems elemdec (S (length payload)) payload in
    let* _ := ListEnd payload' in
    Ok (xs, rest).

End rlp.

(** ** thor: hashes and addresses *)

Module thor.
Definition HashLength : Z := 32.
Definition AddressLength : Z := 20.
(** [thor.Hash] is [[32]byte], [thor.Address] is [[20]byte]. *)
Definition Hash : Type := list byte.
Definition Address : Type := list byte.
End thor.

(** ** tx/transaction.go *)

Module tx.

(** Modelled from the spec: the Clause type (tx/clause.go is not among
    the sources): an optional recipient, whose absence signals contract
    creation, a value and a data payload. [c.body.To] is [To c] and
    [c.body.Data] is [Data c]. *)
Record Clause : Type := {
  To : option thor.Address;
  Value : Z;
  Data : list byte
}.

(** [body] describes details of a tx. *)
Record body : Type := {
  Clauses : list Clause;
  GasPrice : Z;
  Gas : Z;
  Nonce : Z;
  TimeBarrier : Z;
  DependsOn : option thor.Hash;
  Signature : list byte
}.

(** [Transaction]: the body and the cached hash. *)
Record Transaction : Type := {
  tbody : body;
  cache_hash : option thor.Hash
}.

(** [t.body.To == nil] *)
Definition contractCreation (c : Clause) : bool :=
  match To c with
  | None => true
  | Some _ => false
  end.

Definition Gas_ (t : Transaction) : Z := Gas (tbody t).
Definition TimeBarrier_ (t : Transaction) : Z := TimeBarrier (tbody t).
Definition ClauseCount (t : Transaction) : Z :=
  Z.of_nat (length (Clauses (tbody t))).

Section IntrinsicGas.

(** [thor.ClauseGas] and [thor.ClauseGasContractCreation] are constants
    of package thor, which is not among the sources. *)
Variables ClauseGas ClauseGasContractCreation : Z.

(** [total.Add(total, core.IntrinsicGas(c.body.Data, contractCreation, true))] *)
Definition addClause (total : Z) (c : Clause) : Z :=
  total + core.IntrinsicGas (Data c) (contractCreation c) true.

(** The over-payed gas of a clause after the first one, a [uint64]
    difference. *)
Definition overPayed (c : Clause) : Z :=
  if contractCreation c
  then big.SetUint64
         (wrap64 (params.TxGasContractCreation - ClauseGasContractCreation))
  else big.SetUint64 (wrap64 (params.TxGas - ClauseGas)).

(** One round of the loop over [t.body.Clauses[1:]]. *)
Definition clauseStep (total : Z) (c : Clause) : Z :=
  addClause total c - overPayed c.

(** The total after the loop, from the first clause on. *)
Definition accumulate (firstClause : Clause) (rest : list Clause) : Z :=
  let total :=
    core.IntrinsicGas (Data firstClause) (contractCreation firstClause) true in
  fold_left clauseStep rest total.

(** Every value the variable [total] holds while the loop runs over
    [cs]: at the start, after each [Add] and after each [Sub]. *)
Fixpoint totals (total : Z) (cs : list Clause) : list Z :=
  match cs with
  | [] => [total]
  | c :: cs' => total :: addClause total c :: totals (clauseStep total c) cs'
  end.

Definition IntrinsicGas (t : Transaction) : result Z :=
  match Clauses (tbody t) with
  | [] => Ok params.TxGas
  | firstClause :: rest =>
      let total := accumulate firstClause rest in
      if 64 <? big.BitLen total then Err ErrGasTooLarge
      else Ok (big.Uint64 total)
  end.

End IntrinsicGas.

Section Codec.

(** The clause's own [EncodeRLP] and [DecodeRLP] (tx/clause.go), and the
    hash function behind [cry.NewHasher]. *)
Variable encodeClause : Clause -> result (list byte).
Variable decodeClause : rlp.Stream -> result (Clause * rlp.Stream).
Variable hasher : list byte -> thor.Hash.

(** What [rlp.Encode] wrote to the writer: nothing when it failed. *)
Definition written (r : result (list byte)) : list byte :=
  match r with
  | Ok bs => bs
  | Err _ => []
  end.

Definition encodeClauses (cs : list Clause) : result (list byte) :=
  let* items := mapM encodeClause cs in
  Ok (rlp.writeList (concat items)).

Definition encodeDependsOn (d : option thor.Hash) : list byte :=
  match d with
  | None => rlp.writeNilByteArray
  | Some h => rlp.writeByteArray h
  end.

(** The six fields that are signed, in order. *)
Definition encodeSigningFields (b : body) : result (list byte) :=
  let* cs := encodeClauses (Clauses b) in
  let* gp := rlp.writeBigInt (GasPrice b) in
  Ok (cs ++ gp ++ rlp.writeUint (Gas b) ++ rlp.writeUint (Nonce b)
         ++ rlp.writeUint (TimeBarrier b) ++ encodeDependsOn (DependsOn b)).

(** [rlp.Encode(w, &t.body)]: the struct's fields as a list. *)
Definition encodeBody (b : body) : result (list byte) :=
  let* cs := encodeClauses (Clauses b) in
  let* gp := rlp.writeBigInt (GasPrice b) in
  Ok (rlp.writeList
        (cs ++ gp ++ rlp.writeUint (Gas b) ++ rlp.writeUint (Nonce b)
            ++ rlp.writeUint (TimeBarrier b) ++ encodeDependsOn (DependsOn b)
            ++ rlp.encodeString (Signature b))).

Definition EncodeRLP (t : Transaction) : result (list byte) :=
  encodeBody (tbody t).

(** [Hash]: the cached hash, or the hash of the encoding, which is then
    cached; the receiver after the call is returned as well. *)
Definition Hash (t : Transaction) : thor.Hash * Transaction :=
  match cache_hash t with
  | Some cached => (cached, t)
  | None =>
      let hash := hasher (written (EncodeRLP t)) in
      (hash, {| tbody := tbody t; cache_hash := Some hash |})
  end.

(** [SigningHash]: the hash of the list of the six signed fields. *)
Definition SigningHash (t : Transaction) : thor.Hash :=
  hasher (written
    (let* fields := encodeSigningFields (tbody t) in
     Ok (rlp.writeList fields))).

(** The zero value of [body]; its nil [GasPrice] is 0 here. *)
Definition zero_body : body :=
  {| Clauses := []; GasPrice := 0; Gas := 0; Nonce := 0; TimeBarrier := 0;
     DependsOn := None; Signature := [] |}.

Definition set_Clauses (b : body) (v : list Clause) : body :=
  {| Clauses := v; GasPrice := GasPrice b; Gas := Gas b; Nonce := Nonce b;
     TimeBarrier := TimeBarrier b; DependsOn := DependsOn b;
     Signature := Signature b |}.
Definition set_GasPrice (b : body) (v : Z) : body :=
  {| Clauses := Clauses b; GasPrice := v; Gas := Gas b; Nonce := Nonce b;
     TimeBarrier := TimeBarrier b; DependsOn := DependsOn b;
     Signature := Signature b |}.
Definition set_Gas (b : body) (v : Z) : body :=
  {| Clauses := Clauses b; GasPrice := GasPrice b; Gas := v; Nonce := Nonce b;
     TimeBarrier := TimeBarrier b; DependsOn := DependsOn b;
     Signature := Signature b |}.
Definition set_Nonce (b : body) (v : Z) : body :=
  {| Clauses := Clauses b; GasPrice := GasPrice b; Gas := Gas b; Nonce := v;
     TimeBarrier := TimeBarrier b; DependsOn := DependsOn b;
     Signature := Signature b |}.
Definition set_TimeBarrier (b : body) (v : Z) : body :=
  {| Clauses := Clauses b; GasPrice := GasPrice b; Gas := Gas b;
     Nonce := Nonce b; TimeBarrier := v; DependsOn := DependsOn b;
     Signature := Signature b |}.
Definition set_DependsOn (b : body) (v : option thor.Hash) : body :=
  {| Clauses := Clauses b; GasPrice := GasPrice b; Gas := Gas b;
     Nonce := Nonce b; TimeBarrier := TimeBarrier b; DependsOn := v;
     Signature := Signature b |}.
Definition set_Signature (b : body) (v : list byte) : body :=
  {| Clauses := Clauses b; GasPrice := GasPrice b; Gas := Gas b;
     Nonce := Nonce b; TimeBarrier := TimeBarrier b; DependsOn := DependsOn b;
     Signature := v |}.

(** [decodeStruct] reports the end of the list inside a field as too few
    elements. *)
Definition fieldError (e : error) : error :=
  match e with
  | EOL => ErrTooFewElements
  | _ => e
  end.

(** [s.Decode(&body)] on a zero [body]: the fields are filled in order,
    and an error leaves the fields read before it set. The result is the
    [body] as the decoder left it, with the stream after the value or the
    error. *)
Definition decodeBody (s : rlp.Stream) : body * result rlp.Stream :=
  let b := zero_body in
  match rlp.StreamList s with
  | Err e => (b, Err e)
  | Ok (p, rest) =>
  match rlp.decodeListSlice decodeClause p with
  | Err e => (b, Err (fieldError e))
  | Ok (v, p) =>
  let b := set_Clauses b v in
  match rlp.decodeBigInt p with
  | Err e => (b, Err (fieldError e))
  | Ok (v, p) =>
  let b := set_GasPrice b v in
  match rlp.decodeUint p with
  | Err e => (b, Err (fieldError e))
  | Ok (v, p) =>
  let b := set_Gas b v in
  match rlp.decodeUint p with
  | Err e => (b, Err (fieldError e))
  | Ok (v, p) =>
  let b := set_Nonce b v in
  match rlp.decodeUint p with
  | Err e => (b, Err (fieldError e))
  | Ok (v, p) =>
  let b := set_TimeBarrier b v in
  match rlp.decodeOptionalPtr (rlp.decodeByteArray thor.HashLength) p with
  | Err e => (b, Err (fieldError e))
  | Ok (v, p) =>
  let b := set_DependsOn b v in
  match rlp.decodeByteSlice p with
  | Err e => (b, Err (fieldError e))
  | Ok (v, p) =>
  let b := set_Signature b v in
  match rlp.ListEnd p with
  | Err e => (b, Err e)
  | Ok _ => (b, Ok rest)
  end end end end end end end end end.

(** [DecodeRLP]: the receiver after the call, and the stream after the
    value or the error. *)
Definition DecodeRLP (t : Transaction) (s : rlp.Stream)
    : Transaction * result rlp.Stream :=
  let '(body, r) := decodeBody s in
  match r with
  | Err err => (t, Err err)
  | Ok s' => ({| tbody := body; cache_hash := None |}, Ok s')
  end.

(** The zero [Transaction] that the decoder allocates for an element of
    a list of transactions. *)
Definition zero_Transaction : Transaction :=
  {| tbody := zero_body; cache_hash := None |}.

(** The element decoder of [[]*Transaction]. *)
Definition decodeTransaction (s : rlp.Stream)
    : result (Transaction * rlp.Stream) :=
  match DecodeRLP zero_Transaction s with
  | (t, Ok s') => Ok (t, s')
  | (_, Err e) => Err e
  end.

End Codec.

End tx.

(** ** block/block.go *)

Module block.

Section Block.

(** The header is opaque here (block/header.go is not among the
    sources): its zero value, its signature replacement and its own
    encoder and decoder. *)
Variable Header : Type.
Variable zero_Header : Header.
Variable withSignature : Header -> list byte -> Header.
Variable encodeHeader : Header -> result (list byte).
Variable decodeHeader : rlp.Stream -> result (Header * rlp.Stream).

Variable encodeClause : tx.Clause -> result (list byte).
Variable decodeClause : rlp.Stream -> result (tx.Clause * rlp.Stream).

(** [Block]: the header, the transactions and the cached size. *)
Record Block : Type := {
  header : Header;
  txs : list tx.Transaction;
  cache_size : option Z
}.

(** [append(tx.Transactions(nil), txs...)]: a copy with the same
    elements. *)
Definition copyTransactions (txs : list tx.Transaction)
    : list tx.Transaction :=
  [] ++ txs.

Definition Compose (header : Header) (txs : list tx.Transaction) : Block :=
  {| header := header; txs := copyTransactions txs; cache_size := None |}.

Definition WithSignature (b : Block) (sig : list byte) : Block :=
  {| header := withSignature (header b) sig; txs := txs b;
     cache_size := None |}.

Definition Header_ (b : Block) : Header := header b.

Definition Transactions (b : Block) : list tx.Transaction :=
  copyTransactions (txs b).

Definition encodeTransactions (txs : list tx.Transaction)
    : result (list byte) :=
  let* items := mapM (tx.EncodeRLP encodeClause) txs in
  Ok (rlp.writeList (concat items)).

(** [EncodeRLP]: the list of the header and the transactions. *)
Definition EncodeRLP (b : Block) : result (list byte) :=
  let* h := encodeHeader (header b) in
  let* ts := encodeTransactions (txs b) in
  Ok (rlp.writeList (h ++ ts)).

(** The anonymous struct that [DecodeRLP] decodes into. *)
Record payload : Type := {
  payload_Header : Header;
  payload_Txs : list tx.Transaction
}.

Definition zero_payload : payload :=
  {| payload_Header := zero_Header; payload_Txs := [] |}.

(** [s.Decode(&payload)]: the payload as the decoder left it, with the
    stream after the value or the error. *)
Definition decodePayload (s : rlp.Stream) : payload * result rlp.Stream :=
  let pl := zero_payload in
  match rlp.StreamList s with
  | Err e => (pl, Err e)
  | Ok (p, rest) =>
  match decodeHeader p with
  | Err e => (pl, Err (tx.fieldError e))
  | Ok (v, p) =>
  let pl := {| payload_Header := v; payload_Txs := payload_Txs pl |} in
  match rlp.decodeListSlice (tx.decodeTransaction decodeClause) p with
  | Err e => (pl, Err (tx.fieldError e))
  | Ok (v, p) =>
  let pl := {| payload_Header := payload_Header pl; payload_Txs := v |} in
  match rlp.ListEnd p with
  | Err e => (pl, Err e)
  | Ok _ => (pl, Ok rest)
  end end end end.

(** [DecodeRLP]: the receiver after the call, and the stream after the
    value or the error. *)
Definition DecodeRLP (b : Block) (s : rlp.Stream)
    : Block * result rlp.Stream :=
  let '(payload, r) := decodePayload s in
  match r with
  | Err err => (b, Err err)
  | Ok s' =>
      ({| header := payload_Header payload; txs := payload_Txs payload;
          cache_size := None |}, Ok s')
  end.

(** [counterWriter.Write] adds the length of what is written. *)
Definition counterWriter_Write (count : Z) (p : list byte) : Z :=
  count + Z.of_nat (length p).

(** [Size]: the cached size, or the number of bytes that encoding the
    block writes to a [counterWriter], which is then cached; the receiver
    after the call is returned as well. *)
Definition Size (b : Block) : Z * Block :=
  match cache_size b with
  | Some cached => (cached, b)
  | None =>
      let count := counterWriter_Write 0 (tx.written (EncodeRLP b)) in
      (count, {| header := header b; txs := txs b; cache_size := Some count |})
  end.

End Block.

End block.

(** ** The memory behind the accessors

    Slices, [*big.Int] and the receivers are references in Go. The
    memory maps a location to what is stored there: the backing array of
    a byte slice, a [big.Int], the backing array of a slice of
    transaction pointers, a [Transaction] or a [Block]. *)

Module mem.

Abbreviation loc := positive.

(** A slice is nil or a window of [len] elements from [off] on into the
    backing array at [array]. *)
Inductive slice : Type :=
| nil_slice
| Slice (array : loc) (off len : nat).

(** [Transaction] with its references: [GasPrice] points to a [big.Int],
    [Signature] is a byte slice. *)
Record Transaction : Type := {
  Clauses : list tx.Clause;
  GasPrice : loc;
  Gas : Z;
  Nonce : Z;
  TimeBarrier : Z;
  DependsOn : option thor.Hash;
  Signature : slice;
  cache_hash : option thor.Hash
}.

(** [Block] with its references: [header] points to the header, [txs]
    is a slice of pointers to transactions. *)
Record Block : Type := {
  header : loc;
  txs : slice;
  cache_size : option Z
}.

Inductive cell : Type :=
| ByteArray (a : list byte)
| BigInt (v : Z)
| PtrArray (a : list loc)
| TxObj (t : Transaction)
| BlockObj (b : Block).

Abbreviation heap := (gmap loc cell).

(** Allocation takes a location that is not in use. *)
Definition alloc (h : heap) (c : cell) : loc * heap :=
  let l := fresh (dom h) in (l, <[l := c]> h).

Definition window {A : Type} (off len : nat) (a : list A)
    : option (list A) :=
  if decide (off + len <= length a)%nat then Some (take len (drop off a))
  else None.

(** The bytes a byte slice shows. *)
Definition bytesOf (h : heap) (s : slice) : option (list byte) :=
  match s with
  | nil_slice => Some []
  | Slice a off len =>
      match h !! a with
      | Some (ByteArray arr) => window off len arr
      | _ => None
      end
  end.

(** The pointers a slice of transactions shows. *)
Definition ptrsOf (h : heap) (s : slice) : option (list loc) :=
  match s with
  | nil_slice => Some []
  | Slice a off len =>
      match h !! a with
      | Some (PtrArray arr) => window off len arr
      | _ => None
      end
  end.

(** [append([]byte(nil), src...)]: nil when there is nothing to append,
    else a new backing array holding the elements of [src]. *)
Definition appendNilBytes (h : heap) (src : slice) : option (slice * heap) :=
  match bytesOf h src with
  | None => None
  | Some [] => Some (nil_slice, h)
  | Some (b :: bs) =>
      let '(l, h') := alloc h (ByteArray (b :: bs)) in
      Some (Slice l 0 (length (b :: bs)), h')
  end.

(** [append(tx.Transactions(nil), src...)] *)
Definition appendNilPtrs (h : heap) (src : slice) : option (slice * heap) :=
  match ptrsOf h src with
  | None => None
  | Some [] => Some (nil_slice, h)
  | Some (p :: ps) =>
      let '(l, h') := alloc h (PtrArray (p :: ps)) in
      Some (Slice l 0 (length (p :: ps)), h')
  end.

Definition getTx (h : heap) (t : loc) : option Transaction :=
  match h !! t with
  | Some (TxObj o) => Some o
  | _ => None
  end.

Definition getBlock (h : heap) (b : loc) : option Block :=
  match h !! b with
  | Some (BlockObj o) => Some o
  | _ => None
  end.

Definition getBigInt (h : heap) (p : loc) : option Z :=
  match h !! p with
  | Some (BigInt v) => Some v
  | _ => None
  end.

(** [GasPrice]: [new(big.Int).Set(t.body.GasPrice)], a new [big.Int]
    with the same value. [None] stands for a nil dereference. *)
Definition Transaction_GasPrice (h : heap) (t : loc) : option (loc * heap) :=
  match getTx h t with
  | None => None
  | Some o =>
      match getBigInt h (GasPrice o) with
      | None => None
      | Some v => Some (alloc h (BigInt v))
      end
  end.

(** [Signature]: [append([]byte(nil), t.body.Signature...)] *)
Definition Transaction_Signature (h : heap) (t : loc)
    : option (slice * heap) :=
  match getTx h t with
  | None => None
  | Some o => appendNilBytes h (Signature o)
  end.

(** [WithSignature]: a new [Transaction] holding a copy of the body of
    [t] with the signature set to a copy of [sig], and no cached hash. *)
Definition Transaction_WithSignature (h : heap) (t : loc) (sig : slice)
    : option (loc * heap) :=
  match getTx h t with
  | None => None
  | Some o =>
      match appendNilBytes h sig with
      | None => None
      | Some (sig', h') =>
          let newTx :=
            {| Clauses := Clauses o; GasPrice := GasPrice o; Gas := Gas o;
               Nonce := Nonce o; TimeBarrier := TimeBarrier o;
               DependsOn := DependsOn o; Signature := sig';
               cache_hash := None |} in
          Some (alloc h' (TxObj newTx))
      end
  end.

(** [Block.Transactions]: [append(tx.Transactions(nil), b.txs...)] *)
Definition Block_Transactions (h : heap) (b : loc) : option (slice * heap) :=
  match getBlock h b with
  | None => None
  | Some o => appendNilPtrs h (txs o)
  end.

(** The transaction at [t] as a value: what its methods read. *)
Definition load (h : heap) (t : loc) : option tx.Transaction :=
  match getTx h t with
  | None => None
  | Some o =>
      match getBigInt h (GasPrice o), bytesOf h (Signature o) with
      | Some gp, Some sig =>
          Some {| tx.tbody :=
                    {| tx.Clauses := Clauses o; tx.GasPrice := gp;
                       tx.Gas := Gas o; tx.Nonce := Nonce o;
                       tx.TimeBarrier := TimeBarrier o;
                       tx.DependsOn := DependsOn o; tx.Signature := sig |};
                  tx.cache_hash := cache_hash o |}
      | _, _ => None
      end
  end.

(** The pointers of the transactions of the block at [b]. *)
Definition loadTxs (h : heap) (b : loc) : option (list loc) :=
  match getBlock h b with
  | None => None
  | Some o => ptrsOf h (txs o)
  end.

(** Writing through a reference: the cell at [l] gets new contents. *)
Definition mutate (h : heap) (l : loc) (c : cell) : heap := <[l := c]> h.

(** The location a returned slice can be written through, if any. *)
Definition arrayOf (s : slice) : option loc :=
  match s with
  | nil_slice => None
  | Slice a _ _ => Some a
  end.

End mem.

(** ** Collaborators, made concrete

    The clause codec, the header and the hash function are parameters of
    [tx] and [block]. These are simple ones to run them with: a clause
    written as the list of its recipient, value and data, a header made
    of a number and a signature, and a hash function that only folds the
    bytes into 32 bytes. *)

Module sample.

Definition encodeTo (to : option thor.Address) : list byte :=
  match to with
  | None => rlp.writeNilByteArray
  | Some a => rlp.writeByteArray a
  end.

Definition encodeClause (c : tx.Clause) : result (list byte) :=
  let* v := rlp.writeBigInt (tx.Value c) in
  Ok (rlp.writeList (encodeTo (tx.To c) ++ v ++ rlp.encodeString (tx.Data c))).

Definition decodeClause (s : rlp.Stream) : result (tx.Clause * rlp.Stream) :=
  let* (p, rest) := rlp.StreamList s in
  let* (to, p) :=
    rlp.decodeOptionalPtr (rlp.decodeByteArray thor.AddressLength) p in
  let* (v, p) := rlp.decodeBigInt p in
  let* (d, p) := rlp.decodeByteSlice p in
  let* _ := rlp.ListEnd p in
  Ok ({| tx.To := to; tx.Value := v; tx.Data := d |}, rest).

Record Header : Type := {
  Number : Z;
  HeaderSignature : list byte
}.

Definition zero_Header : Header :=
  {| Number := 0; HeaderSignature := [] |}.

Definition withSignature (h : Header) (sig : list byte) : Header :=
  {| Number := Number h; HeaderSignature := sig |}.

Definition encodeHeader (h : Header) : result (list byte) :=
  Ok (rlp.writeList
        (rlp.writeUint (Number h) ++ rlp.encodeString (HeaderSignature h))).

Definition decodeHeader (s : rlp.Stream) : result (Header * rlp.Stream) :=
  let* (p, rest) := rlp.StreamList s in
  let* (n, p) := rlp.decodeUint p in
  let* (sig, p) := rlp.decodeByteSlice p in
  let* _ := rlp.ListEnd p in
  Ok ({| Number := n; HeaderSignature := sig |}, rest).

(** Not a cryptographic hash: 32 bytes folded from the input. *)
Definition hasher (bs : list byte) : thor.Hash :=
  big.be_fixed 32 (fold_left (fun acc b => acc * 31 + byte_to_Z b + 1) bs 7).

(** A recipient, a call without data, and the per-clause base costs. *)
Definition recipient : thor.Address := replicate 20 x2a.

Definition transfer : tx.Clause :=
  {| tx.To := Some recipient; tx.Value := 0; tx.Data := [] |}.

Definition creation : tx.Clause :=
  {| tx.To := None; tx.Value := 1000; tx.Data := [x60; x00; x01] |}.

Definition ClauseGas : Z := 16000.
Definition ClauseGasContractCreation : Z := 48000.

(** An unsigned transaction of two clauses that depends on no other, and
    a signed one of no clause that does. *)
Definition tx1 : tx.Transaction :=
  {| tx.tbody :=
       {| tx.Clauses := [transfer; creation]; tx.GasPrice := 1000000;
          tx.Gas := 100000; tx.Nonce := 7; tx.TimeBarrier := 0;
          tx.DependsOn := None; tx.Signature := [] |};
     tx.cache_hash := None |}.

Definition tx2 : tx.Transaction :=
  {| tx.tbody :=
       {| tx.Clauses := []; tx.GasPrice := 0; tx.Gas := 21000;
          tx.Nonce := 2 ^ 64 - 1; tx.TimeBarrier := 1500000000;
          tx.DependsOn := Some (replicate 32 xab);
          tx.Signature := replicate 65 x01 |};
     tx.cache_hash := Some (replicate 32 x00) |}.

(** [N] identical calls without data. *)
Definition calls (N : nat) : tx.Transaction :=
  {| tx.tbody :=
       {| tx.Clauses := replicate N transfer; tx.GasPrice := 1;
          tx.Gas := 100000; tx.Nonce := 0; tx.TimeBarrier := 0;
          tx.DependsOn := None; tx.Signature := [] |};
     tx.cache_hash := None |}.

Definition header1 : Header :=
  {| Number := 12; HeaderSignature := [] |}.

Definition block1 : block.Block Header :=
  block.Compose Header header1 [tx1; tx2].

(** A memory: a transaction at 1, whose gas price is at 2 and whose
    signature is the last two bytes of the array at 3; a signature of 65
    bytes at 4; a block at 5 whose transactions are the array at 6. *)
Definition object1 : mem.Transaction :=
  {| mem.Clauses := [transfer]; mem.GasPrice := 2%positive;
     mem.Gas := 21000; mem.Nonce := 1; mem.TimeBarrier := 0;
     mem.DependsOn := None; mem.Signature := mem.Slice 3%positive 1 2;
     mem.cache_hash := None |}.

Definition heap1 : mem.heap :=
  <[1%positive := mem.TxObj object1]>
  (<[2%positive := mem.BigInt 1000000]>
  (<[3%positive := mem.ByteArray [x01; x02; x03]]>
  (<[4%positive := mem.ByteArray (replicate 65 x05)]>
  (<[5%positive :=
       mem.BlockObj {| mem.header := 9%positive;
                       mem.txs := mem.Slice 6%positive 0 1;
                       mem.cache_size := None |}]>
  (<[6%positive := mem.PtrArray [1%positive]]> ∅))))).

(** What the transaction at 1 shows. *)
Definition value1 : tx.Transaction :=
  {| tx.tbody :=
       {| tx.Clauses := [transfer]; tx.GasPrice := 1000000;
          tx.Gas := 21000; tx.Nonce := 1; tx.TimeBarrier := 0;
          tx.DependsOn := None; tx.Signature := [x02; x03] |};
     tx.cache_hash := None |}.

End sample.

(** ** tx/transaction.go: the clause iterator *)

Module iter.

(** The closure returned by [NewClauseIterator]: the transaction it
    captured and its cursor [i]. *)
Record ClauseIterator : Type := {
  it_tx : tx.Transaction;
  i : Z
}.

Definition NewClauseIterator (t : tx.Transaction) : ClauseIterator :=
  {| it_tx := t; i := 0 |}.

(** One call of the closure: the clause (nil is [None]), the index and
    [ok], with the closure after the call. *)
Definition Next (it : ClauseIterator)
    : (option tx.Clause * Z * bool) * ClauseIterator :=
  let clauses := tx.Clauses (tx.tbody (it_tx it)) in
  if i it >=? Z.of_nat (length clauses) then ((None, 0, false), it)
  else
    ((clauses !! Z.to_nat (i it), i it, true),
     {| it_tx := it_tx it; i := i it + 1 |}).

(** The closure after [k] calls. *)
Fixpoint after (k : nat) (it : ClauseIterator) : ClauseIterator :=
  match k with
  | O => it
  | S k' => after k' (snd (Next it))
  end.

(** A caller's loop: call until [ok] is false, at most [rounds] times,
    and keep what was returned. *)
Fixpoint collect (rounds : nat) (it : ClauseIterator)
    : list (option tx.Clause * Z) :=
  match rounds with
  | O => []
  | S rounds' =>
      match Next it with
      | ((c, index, true), it') => (c, index) :: collect rounds' it'
      | ((_, _, false), _) => []
      end
  end.

End iter.

(** ** block/block.go on the memory: [Compose] and [Body] *)

Module memblock.

(** [Body] holds a slice of pointers to transactions. *)
Record Body : Type := {
  Txs : mem.slice
}.

(** [Compose]: a new block whose transactions are a copy of the given
    slice. *)
Definition Compose (h : mem.heap) (header : mem.loc) (txs : mem.slice)
    : option (mem.loc * mem.heap) :=
  match mem.appendNilPtrs h txs with
  | None => None
  | Some (copy, h') =>
      Some (mem.alloc h'
              (mem.BlockObj {| mem.header := header; mem.txs := copy;
                               mem.cache_size := None |}))
  end.

(** [Body]: a new [Body] holding a copy of the slice of the block. *)
Definition Block_Body (h : mem.heap) (b : mem.loc)
    : option (Body * mem.heap) :=
  match mem.getBlock h b with
  | None => None
  | Some o =>
      match mem.appendNilPtrs h (mem.txs o) with
      | None => None
      | Some (copy, h') => Some ({| Txs := copy |}, h')
      end
  end.

End memblock.

(** ** block/block.go: the counting writer *)

Module counter.

(** [counterWriter.Write]: the number of bytes reported as written, no
    error, and the count after the call. *)
Definition Write (count : Z) (p : list byte) : (Z * option error) * Z :=
  ((Z.of_nat (length p), None), block.counterWriter_Write count p).

(** The count after a sequence of writes. *)
Definition writeAll (count : Z) (chunks : list (list byte)) : Z :=
  fold_left (fun c p => snd (Write c p)) chunks count.

End counter.

(** ** Vocabulary of the statements *)

(** An element and its encoding, as the element decoder sees them: the
    encoding is not empty, and the decoder reads the element back from
    it and leaves what follows. *)
Definition decodes {A : Type}
    (elemdec : rlp.Stream -> result (A * rlp.Stream))
    (x : A) (enc : list byte) : Prop :=
  enc <> [] /\ forall rest, elemdec (enc ++ rest) = Ok (x, rest).

(** The fields of a [body] are values of their Go types: three [uint64]
    and an optional hash of 32 bytes. *)
Definition wellTyped (b : tx.body) : Prop :=
  is_uint64 (tx.Gas b) /\ is_uint64 (tx.Nonce b)
  /\ is_uint64 (tx.TimeBarrier b)
  /\ forall h, tx.DependsOn b = Some h ->
               Z.of_nat (length h) = thor.HashLength.

(** Logical equality of transactions: the cached hash does not count. *)
Definition tx_equal (t1 t2 : tx.Transaction) : Prop :=
  tx.tbody t1 = tx.tbody t2.

(** Logical equality of blocks: the cached size and the cached hashes of
    the transactions do not count. *)
Definition block_equal {Header : Type} (b1 b2 : block.Block Header) : Prop :=
  block.header Header b1 = block.header Header b2
  /\ Forall2 tx_equal (block.txs Header b1) (block.txs Header b2).

(** A transaction as the decoder builds it: no cached hash. *)
Definition uncached (t : tx.Transaction) : tx.Transaction :=
  {| tx.tbody := tx.tbody t; tx.cache_hash := None |}.

(** The cached size of a block, if there is one, is what [Size] stores:
    the number of bytes that encoding the block writes. *)
Definition cache_consistent {Header : Type}
    (encodeHeader : Header -> result (list byte))
    (encodeClause : tx.Clause -> result (list byte))
    (b : block.Block Header) : Prop :=
  forall n, block.cache_size Header b = Some n ->
    n = Z.of_nat (length (tx.written
          (block.EncodeRLP Header encodeHeader encodeClause b))).

(** A body read in full from a stream: the stream starts with a list
    whose payload is the seven fields in order and nothing more; [s'] is
    the stream after the list. *)
Definition readsBody
    (decodeClause : rlp.Stream -> result (tx.Clause * rlp.Stream))
    (s : rlp.Stream) (b : tx.body) (s' : rlp.Stream) : Prop :=
  exists p p1 p2 p3 p4 p5 p6,
    rlp.StreamList s = Ok (p, s')
    /\ rlp.decodeListSlice decodeClause p = Ok (tx.Clauses b, p1)
    /\ rlp.decodeBigInt p1 = Ok (tx.GasPrice b, p2)
    /\ rlp.decodeUint p2 = Ok (tx.Gas b, p3)
    /\ rlp.decodeUint p3 = Ok (tx.Nonce b, p4)
    /\ rlp.decodeUint p4 = Ok (tx.TimeBarrier b, p5)
    /\ rlp.decodeOptionalPtr (rlp.decodeByteArray thor.HashLength) p5
       = Ok (tx.DependsOn b, p6)
    /\ rlp.decodeByteSlice p6 = Ok (tx.Signature b, []).

(** A header and transactions read in full from a stream. *)
Definition readsBlock {Header : Type}
    (decodeHeader : rlp.Stream -> result (Header * rlp.Stream))
    (decodeClause : rlp.Stream -> result (tx.Clause * rlp.Stream))
    (s : rlp.Stream) (header : Header) (txs : list tx.Transaction)
    (s' : rlp.Stream) : Prop :=
  exists p p1,
    rlp.StreamList s = Ok (p, s')
    /\ decodeHeader p = Ok (header, p1)
    /\ rlp.decodeListSlice (tx.decodeTransaction decodeClause) p1
       = Ok (txs, []).

(** An element decoder that uses up input when it succeeds, and that
    ends. *)
Definition progresses {A : Type}
    (elemdec : rlp.Stream -> result (A * rlp.Stream)) : Prop :=
  (forall s x s', elemdec s = Ok (x, s') -> (length s' < length s)%nat)
  /\ forall s, elemdec s <> Err Diverges.

(** The per-byte cost of the data of a clause. *)
Definition dataGas (data : list byte) : Z :=
  core.nonZeroBytes data * params.TxDataNonZeroGas
  + (Z.of_nat (length data) - core.nonZeroBytes data) * params.TxDataZeroGas.

(** The base cost of a clause when it is the first one, and when it is
    not. *)
Definition txBase (c : tx.Clause) : Z :=
  if tx.contractCreation c then params.TxGasContractCreation
  else params.TxGas.

Definition clauseBase (ClauseGas ClauseGasContractCreation : Z)
    (c : tx.Clause) : Z :=
  if tx.contractCreation c then ClauseGasContractCreation else ClauseGas.

Definition sumZ (l : list Z) : Z := fold_right Z.add 0 l.

(** The cached hash of a transaction, if there is one, is what [Hash]
    stores. *)
Definition hash_consistent
    (encodeClause : tx.Clause -> result (list byte))
    (hasher : list byte -> thor.Hash) (t : tx.Transaction) : Prop :=
  forall cached, tx.cache_hash t = Some cached ->
    cached = hasher (tx.written (tx.EncodeRLP encodeClause t)).

(** A transaction that [EncodeRLP] and [DecodeRLP] take there and back:
    the fields have values of their types, and the clause codec reads
    back the clauses and reports the end of a list. *)
Definition codecReady
    (encodeClause : tx.Clause -> result (list byte))
    (decodeClause : rlp.Stream -> result (tx.Clause * rlp.Stream))
    (t : tx.Transaction) : Prop :=
  wellTyped (tx.tbody t)
  /\ decodeClause [] = Err EOL
  /\ forall c enc, In c (tx.Clauses (tx.tbody t)) ->
       encodeClause c = Ok enc -> decodes decodeClause c enc.

(** A block that [EncodeRLP] and [DecodeRLP] take there and back: the
    header codec reads back the header, and every transaction is
    [codecReady]. *)
Definition blockReady {Header : Type}
    (encodeHeader : Header -> result (list byte))
    (decodeHeader : rlp.Stream -> result (Header * rlp.Stream))
    (encodeClause : tx.Clause -> result (list byte))
    (decodeClause : rlp.Stream -> result (tx.Clause * rlp.Stream))
    (b : block.Block Header) : Prop :=
  decodeClause [] = Err EOL
  /\ (forall enc, encodeHeader (block.header Header b) = Ok enc ->
                  decodes decodeHeader (block.header Header b) enc)
  /\ forall t, In t (block.txs Header b) ->
       wellTyped (tx.tbody t)
       /\ forall c e, In c (tx.Clauses (tx.tbody t)) ->
            encodeClause c = Ok e -> decodes decodeClause c e.

(** ** Tactics *)

(** Case analysis on every comparison of the goal; the cases that the
    hypotheses exclude are closed. *)
Ltac ltb_cases :=
  repeat match goal with
         | |- context [Z.ltb ?a ?b] => destruct (Z.ltb_spec a b); try lia
         | |- context [Z.leb ?a ?b] => destruct (Z.leb_spec a b); try lia
         | |- context [Z.eqb ?a ?b] => destruct (Z.eqb_spec a b); try lia
         end.

(** One case of the switch of [putint]. *)
Ltac putint_case :=
  split;
  [ lia
  | split;
    [ reflexivity
    | cbn [Z.of_nat Pos.of_succ_nat Pos.succ Z.mul Pos.mul Pos.add]; lia ] ].

(** * Properties *)

(** ** Arithmetic of [big.Int] *)

(** A non-negative integer needs more than [n] bits exactly when it is
    at least [2 ^ n]. *)
Lemma BitLen_gt_iff (x n : Z) :
  0 <= x -> 0 <= n -> (n < big.BitLen x <-> 2 ^ n <= x).
Proof.
  intros Hx Hn. unfold big.BitLen.
  destruct (Z.eqb_spec x 0) as [-> | Hne].
  - pose proof (Z.pow_pos_nonneg 2 n). lia.
  - rewrite Z.abs_eq by lia.
    assert (0 < x) as Hpos by lia.
    pose proof (Z.log2_lt_pow2 x n Hpos) as Hlog.
    split; intros H.
    + destruct (Z.lt_ge_cases x (2 ^ n)) as [Hlt | Hge]; [| lia].
      apply Hlog in Hlt. lia.
    + destruct (Z.lt_ge_cases (Z.log2 x) n) as [Hlt | Hge]; [| lia].
      apply Hlog in Hlt. lia.
Qed.

Lemma Uint64_exact (x : Z) : 0 <= x < 2 ^ 64 -> big.Uint64 x = x.
Proof.
  intros H. unfold big.Uint64. rewrite Z.abs_eq by lia.
  apply Z.mod_small. lia.
Qed.

(** ** The intrinsic gas of a clause *)

Lemma nonZeroBytes_acc (data : list byte) (acc : Z) :
  let step := fun nz byt => if byte_to_Z byt =? 0 then nz else nz + 1 in
  acc <= fold_left step data acc <= acc + Z.of_nat (length data).
Proof.
  cbv zeta. revert acc.
  induction data as [| byt data IH]; intros acc; simpl.
  - lia.
  - destruct (byte_to_Z byt =? 0).
    + specialize (IH acc). lia.
    + specialize (IH (acc + 1)). lia.
Qed.

Lemma nonZeroBytes_bounds (data : list byte) :
  0 <= core.nonZeroBytes data <= Z.of_nat (length data).
Proof.
  unfold core.nonZeroBytes.
  pose proof (nonZeroBytes_acc data 0) as H. cbv zeta in H. lia.
Qed.

(** The intrinsic gas of a clause is at least the base cost of its
    kind. *)
Lemma core_IntrinsicGas_base (data : list byte) (creation : bool) :
  (if creation then params.TxGasContractCreation else params.TxGas)
  <= core.IntrinsicGas data creation true.
Proof.
  unfold core.IntrinsicGas, big.SetUint64.
  rewrite andb_true_r.
  pose proof (nonZeroBytes_bounds data) as Hnz.
  unfold params.TxDataNonZeroGas, params.TxDataZeroGas.
  destruct (0 <? Z.of_nat (length data)); destruct creation; lia.
Qed.

Lemma core_IntrinsicGas_empty_call :
  core.IntrinsicGas [] false true = params.TxGas.
Proof. reflexivity. Qed.

Section GasProperties.

Variables ClauseGas ClauseGasContractCreation : Z.

(** The per-clause base costs are [uint64] constants no larger than the
    base costs of a transaction. *)
Hypothesis ClauseGas_le : 0 <= ClauseGas <= params.TxGas.
Hypothesis ClauseGasContractCreation_le :
  0 <= ClauseGasContractCreation <= params.TxGasContractCreation.

Abbreviation overPayed := (tx.overPayed ClauseGas ClauseGasContractCreation).
Abbreviation clauseStep := (tx.clauseStep ClauseGas ClauseGasContractCreation).
Abbreviation accumulate := (tx.accumulate ClauseGas ClauseGasContractCreation).
Abbreviation totals := (tx.totals ClauseGas ClauseGasContractCreation).
Abbreviation IntrinsicGas :=
  (tx.IntrinsicGas ClauseGas ClauseGasContractCreation).

Lemma overPayed_call (c : tx.Clause) :
  tx.contractCreation c = false -> overPayed c = params.TxGas - ClauseGas.
Proof.
  intros Hc. unfold tx.overPayed, big.SetUint64, wrap64. rewrite Hc.
  apply Z.mod_small. unfold params.TxGas in *. lia.
Qed.

Lemma overPayed_creation (c : tx.Clause) :
  tx.contractCreation c = true ->
  overPayed c = params.TxGasContractCreation - ClauseGasContractCreation.
Proof.
  intros Hc. unfold tx.overPayed, big.SetUint64, wrap64. rewrite Hc.
  apply Z.mod_small. unfold params.TxGasContractCreation in *. lia.
Qed.

(** What is subtracted for a clause is at most what was added for it. *)
Lemma overPayed_le_clause (c : tx.Clause) :
  0 <= overPayed c
  <= core.IntrinsicGas (tx.Data c) (tx.contractCreation c) true.
Proof.
  pose proof (core_IntrinsicGas_base (tx.Data c) (tx.contractCreation c)) as Hb.
  destruct (tx.contractCreation c) eqn:Hc.
  - rewrite overPayed_creation by assumption. lia.
  - rewrite overPayed_call by assumption. lia.
Qed.

Lemma clauseStep_mono (total : Z) (c : tx.Clause) :
  total <= clauseStep total c.
Proof.
  unfold tx.clauseStep, tx.addClause.
  pose proof (overPayed_le_clause c). lia.
Qed.

Lemma totals_nonneg (cs : list tx.Clause) (total : Z) :
  0 <= total -> Forall (fun v => 0 <= v) (totals total cs).
Proof.
  revert total. induction cs as [| c cs IH]; intros total Ht; simpl.
  - repeat constructor. exact Ht.
  - pose proof (clauseStep_mono total c) as Hm.
    pose proof (overPayed_le_clause c) as Ho.
    constructor; [exact Ht |].
    constructor.
    + unfold tx.clauseStep in Hm. lia.
    + apply IH. lia.
Qed.

Lemma totals_last (cs : list tx.Clause) (total : Z) :
  last (totals total cs) = Some (fold_left clauseStep cs total).
Proof.
  revert total. induction cs as [| c cs IH]; intros total; simpl.
  - reflexivity.
  - specialize (IH (clauseStep total c)).
    destruct (totals (clauseStep total c) cs) as [| v vs] eqn:Hv.
    + destruct cs; discriminate.
    + simpl. simpl in IH. exact IH.
Qed.

Lemma fold_clauseStep_ge (cs : list tx.Clause) (total : Z) :
  total <= fold_left clauseStep cs total.
Proof.
  revert total. induction cs as [| c cs IH]; intros total; simpl.
  - lia.
  - pose proof (clauseStep_mono total c). specialize (IH (clauseStep total c)).
    lia.
Qed.

Lemma accumulate_nonneg (c : tx.Clause) (cs : list tx.Clause) :
  0 <= accumulate c cs.
Proof.
  unfold tx.accumulate.
  pose proof (core_IntrinsicGas_base (tx.Data c) (tx.contractCreation c)) as Hb.
  pose proof (fold_clauseStep_ge cs
    (core.IntrinsicGas (tx.Data c) (tx.contractCreation c) true)).
  unfold params.TxGasContractCreation, params.TxGas in Hb.
  destruct (tx.contractCreation c); lia.
Qed.

Lemma IntrinsicGas_of_total (t : tx.Transaction) (c : tx.Clause)
    (cs : list tx.Clause) :
  tx.Clauses (tx.tbody t) = c :: cs ->
  accumulate c cs < 2 ^ 64 ->
  IntrinsicGas t = Ok (accumulate c cs).
Proof.
  intros Hcs Hlt. unfold tx.IntrinsicGas. rewrite Hcs.
  pose proof (accumulate_nonneg c cs) as Hnn.
  destruct (Z.ltb_spec 64 (big.BitLen (accumulate c cs))) as [Hbig | Hsmall].
  - apply BitLen_gt_iff in Hbig; lia.
  - rewrite Uint64_exact by lia. reflexivity.
Qed.

(** [N] identical calls with empty data accumulate the base cost of a
    transaction once and the base cost of a clause for every further
    clause. *)
Lemma accumulate_identical_calls (c : tx.Clause) (n : nat) :
  tx.contractCreation c = false -> tx.Data c = [] ->
  accumulate c (replicate n c) = params.TxGas + Z.of_nat n * ClauseGas.
Proof.
  intros Hc Hd. unfold tx.accumulate. rewrite Hc, Hd.
  rewrite core_IntrinsicGas_empty_call.
  assert (forall total, fold_left clauseStep (replicate n c) total
                         = total + Z.of_nat n * ClauseGas) as Hfold.
  { induction n as [| n IH]; intros total.
    - simpl. lia.
    - cbn [replicate fold_left]. rewrite IH.
      unfold tx.clauseStep, tx.addClause.
      rewrite overPayed_call by assumption.
      rewrite Hc, Hd, core_IntrinsicGas_empty_call. lia. }
  apply Hfold.
Qed.

(** C7: a transaction without clauses has the flat base transaction gas
    as its intrinsic gas, and computing it does not fail. *)
Theorem IntrinsicGas_no_clauses (t : tx.Transaction) :
  tx.ClauseCount t = 0 ->
  IntrinsicGas t = Ok params.TxGas.
Proof.
  unfold tx.ClauseCount, tx.IntrinsicGas.
  destruct (tx.Clauses (tx.tbody t)) as [| c cs]; [reflexivity |].
  simpl length. lia.
Qed.

(** C1: for a transaction of [N] identical clauses with a recipient and
    empty data, [N] being 1, 2 or 3, [IntrinsicGas] succeeds with the
    base transaction gas plus [N - 1] times the base gas of a clause; one
    such clause costs 21000, and a second one adds the base gas of a
    clause, which is not another 21000 when that is the smaller one. *)
Theorem IntrinsicGas_identical_calls (c : tx.Clause) (t : tx.Transaction)
    (N : nat) :
  tx.To c <> None -> tx.Data c = [] ->
  (1 <= N <= 3)%nat ->
  tx.Clauses (tx.tbody t) = replicate N c ->
  IntrinsicGas t = Ok (params.TxGas + (Z.of_nat N - 1) * ClauseGas)
  /\ (N = 1%nat -> IntrinsicGas t = Ok 21000)
  /\ (N = 2%nat ->
      IntrinsicGas t = Ok (21000 + ClauseGas)
      /\ (ClauseGas < params.TxGas -> IntrinsicGas t <> Ok (21000 + 21000))).
Proof.
  intros Hto Hd HN Hcs.
  assert (tx.contractCreation c = false) as Hc.
  { unfold tx.contractCreation. destruct (tx.To c); congruence. }
  assert (IntrinsicGas t = Ok (params.TxGas + (Z.of_nat N - 1) * ClauseGas))
    as Hgas.
  { destruct N as [| n]; [lia |].
    cbn [replicate] in Hcs.
    pose proof (accumulate_identical_calls c n Hc Hd) as Hacc.
    rewrite (IntrinsicGas_of_total t c (replicate n c) Hcs).
    - rewrite Hacc. f_equal. lia.
    - rewrite Hacc. unfold params.TxGas in *. nia. }
  split; [exact Hgas |].
  split.
  - intros ->. rewrite Hgas. reflexivity.
  - intros ->. rewrite Hgas. unfold params.TxGas. split.
    + f_equal. lia.
    + intros Hlt Heq. injection Heq as Heq. lia.
Qed.

(** C10: while [IntrinsicGas] runs, the total is never negative: what is
    subtracted for a clause after the first one, the base cost of a
    transaction of its kind minus the base cost of a clause of that kind,
    is at most what was added for it; so a total that passes the
    bit-length check is returned as it is. *)
Theorem IntrinsicGas_total_never_negative (t : tx.Transaction)
    (firstClause : tx.Clause) (rest : list tx.Clause) :
  tx.Clauses (tx.tbody t) = firstClause :: rest ->
  let total0 :=
    core.IntrinsicGas (tx.Data firstClause)
                      (tx.contractCreation firstClause) true in
  Forall (fun c =>
            overPayed c
            = (if tx.contractCreation c
               then params.TxGasContractCreation - ClauseGasContractCreation
               else params.TxGas - ClauseGas)
            /\ overPayed c
               <= core.IntrinsicGas (tx.Data c) (tx.contractCreation c) true)
         rest
  /\ Forall (fun v => 0 <= v) (totals total0 rest)
  /\ last (totals total0 rest) = Some (accumulate firstClause rest)
  /\ (forall v, IntrinsicGas t = Ok v -> v = accumulate firstClause rest).
Proof.
  intros Hcs total0.
  split.
  { apply Forall_forall. intros c _. split.
    - destruct (tx.contractCreation c) eqn:Hc.
      + apply overPayed_creation; assumption.
      + apply overPayed_call; assumption.
    - apply overPayed_le_clause. }
  split.
  { apply totals_nonneg. subst total0.
    pose proof (core_IntrinsicGas_base (tx.Data firstClause)
                  (tx.contractCreation firstClause)) as Hb.
    unfold params.TxGasContractCreation, params.TxGas in Hb.
    destruct (tx.contractCreation firstClause); lia. }
  split.
  { apply totals_last. }
  intros v Hv. unfold tx.IntrinsicGas in Hv. rewrite Hcs in Hv.
  pose proof (accumulate_nonneg firstClause rest) as Hnn.
  destruct (Z.ltb_spec 64 (big.BitLen (accumulate firstClause rest)))
    as [Hbig | Hsmall]; [discriminate |].
  injection Hv as <-.
  apply Uint64_exact. split; [exact Hnn |].
  destruct (Z.lt_ge_cases (accumulate firstClause rest) (2 ^ 64)) as [|Hge];
    [assumption |].
  apply (BitLen_gt_iff _ 64) in Hge; lia.
Qed.

(** C5: [IntrinsicGas] fails, with the error for a gas that is too
    large, exactly when the accumulated total needs more than 64 bits,
    that is when it is at least [2 ^ 64]; otherwise it returns the total
    itself, which is then a [uint64]. The total of a transaction without
    clauses is the base transaction gas. *)
Theorem IntrinsicGas_too_large_iff (t : tx.Transaction) :
  match tx.Clauses (tx.tbody t) with
  | [] => IntrinsicGas t = Ok params.TxGas
  | firstClause :: rest =>
      let total := accumulate firstClause rest in
      (IntrinsicGas t = Err ErrGasTooLarge <-> 64 < big.BitLen total)
      /\ (64 < big.BitLen total <-> 2 ^ 64 <= total)
      /\ (big.BitLen total <= 64 ->
          IntrinsicGas t = Ok total /\ is_uint64 total)
  end.
Proof.
  destruct (tx.Clauses (tx.tbody t)) as [| firstClause rest] eqn:Hcs.
  - unfold tx.IntrinsicGas. rewrite Hcs. reflexivity.
  - cbv zeta.
    pose proof (accumulate_nonneg firstClause rest) as Hnn.
    pose proof (BitLen_gt_iff (accumulate firstClause rest) 64 Hnn) as Hbits.
    assert (0 <= 64) as H64 by lia. specialize (Hbits H64).
    split; [| split].
    + unfold tx.IntrinsicGas. rewrite Hcs.
      destruct (Z.ltb_spec 64 (big.BitLen (accumulate firstClause rest))).
      * split; [intros _; assumption | reflexivity].
      * split; [discriminate | lia].
    + exact Hbits.
    + intros Hle.
      assert (accumulate firstClause rest < 2 ^ 64) as Hlt.
      { destruct (Z.lt_ge_cases (accumulate firstClause rest) (2 ^ 64));
          [assumption | apply Hbits in H; lia]. }
      split.
      * apply IntrinsicGas_of_total; assumption.
      * unfold is_uint64. lia.
Qed.

End GasProperties.

(** ** Bytes and big-endian integers *)

Lemma byte_to_of_Z (z : Z) : byte_to_Z (byte_of_Z z) = z mod 256.
Proof.
  unfold byte_to_Z, byte_of_Z.
  pose proof (Z.mod_pos_bound z 256 ltac:(lia)) as Hm.
  destruct (Byte.of_N (Z.to_N (z mod 256))) as [b |] eqn:Hb.
  - apply Byte.to_of_N in Hb. rewrite Hb. lia.
  - apply Byte.of_N_None_iff in Hb. lia.
Qed.

Lemma byte_to_of_Z_small (z : Z) :
  0 <= z < 256 -> byte_to_Z (byte_of_Z z) = z.
Proof.
  intros H. rewrite byte_to_of_Z. apply Z.mod_small. exact H.
Qed.

Lemma byte_of_to_Z (b : byte) : byte_of_Z (byte_to_Z b) = b.
Proof.
  unfold byte_of_Z, byte_to_Z.
  pose proof (Byte.to_N_bounded b) as Hb.
  rewrite Z.mod_small by lia.
  rewrite N2Z.id, Byte.of_to_N. reflexivity.
Qed.

Lemma length_be_fixed (n : nat) (i : Z) : length (big.be_fixed n i) = n.
Proof.
  revert i. induction n as [| n IH]; intros i; simpl; [reflexivity |].
  rewrite length_app, IH. simpl. lia.
Qed.

Lemma SetBytes_snoc (buf : list byte) (b : byte) :
  big.SetBytes (buf ++ [b]) = big.SetBytes buf * 256 + byte_to_Z b.
Proof.
  unfold big.SetBytes. rewrite fold_left_app. reflexivity.
Qed.

Lemma SetBytes_be_fixed (n : nat) (i : Z) :
  0 <= i < 2 ^ (8 * Z.of_nat n) -> big.SetBytes (big.be_fixed n i) = i.
Proof.
  revert i. induction n as [| n IH]; intros i Hi.
  - simpl in *. change (2 ^ (8 * 0)) with 1 in Hi.
    unfold big.SetBytes. simpl. lia.
  - cbn [big.be_fixed]. rewrite SetBytes_snoc, byte_to_of_Z.
    rewrite Z.shiftr_div_pow2 by lia. change (2 ^ 8) with 256.
    replace (8 * Z.of_nat (S n)) with (8 + 8 * Z.of_nat n) in Hi by lia.
    rewrite Z.pow_add_r in Hi by lia. change (2 ^ 8) with 256 in Hi.
    rewrite IH.
    + pose proof (Z.div_mod i 256 ltac:(lia)). lia.
    + split.
      * apply Z.div_pos; lia.
      * apply Z.div_lt_upper_bound; lia.
Qed.

(** The bytes from the front: the most significant byte, then the
    rest. *)
Lemma be_fixed_front (n : nat) (i : Z) :
  0 <= i ->
  big.be_fixed (S n) i
  = byte_of_Z (i / 2 ^ (8 * Z.of_nat n)) :: big.be_fixed n i.
Proof.
  revert i. induction n as [| n IH]; intros i Hi.
  - simpl. rewrite Z.div_1_r. reflexivity.
  - change (big.be_fixed (S (S n)) i)
      with (big.be_fixed (S n) (Z.shiftr i 8) ++ [byte_of_Z i]).
    rewrite IH by (apply Z.shiftr_nonneg; exact Hi).
    cbn [big.be_fixed app]. f_equal. f_equal.
    rewrite Z.shiftr_div_pow2 by lia.
    rewrite Z.div_div by lia.
    rewrite <- Z.pow_add_r by lia.
    f_equal. f_equal. lia.
Qed.

(** A number of exactly [S n] bytes: its encoding starts with a
    non-zero byte. *)
Lemma be_fixed_minimal (n : nat) (i : Z) :
  2 ^ (8 * Z.of_nat n) <= i < 2 ^ (8 * Z.of_nat (S n)) ->
  exists b0 tl,
    big.be_fixed (S n) i = b0 :: tl
    /\ length tl = n
    /\ byte_to_Z b0 <> 0
    /\ big.SetBytes (b0 :: tl) = i.
Proof.
  intros Hi.
  assert (0 < 2 ^ (8 * Z.of_nat n)) as Hpow by (apply Z.pow_pos_nonneg; lia).
  exists (byte_of_Z (i / 2 ^ (8 * Z.of_nat n))), (big.be_fixed n i).
  split; [apply be_fixed_front; lia |].
  split; [apply length_be_fixed |].
  split.
  - rewrite byte_to_of_Z.
    replace (8 * Z.of_nat (S n)) with (8 * Z.of_nat n + 8) in Hi by lia.
    rewrite Z.pow_add_r in Hi by lia. change (2 ^ 8) with 256 in Hi.
    rewrite Z.mod_small.
    + assert (1 <= i / 2 ^ (8 * Z.of_nat n)); [| lia].
      apply Z.div_le_lower_bound; lia.
    + split; [apply Z.div_pos; lia |].
      apply Z.div_lt_upper_bound; lia.
  - rewrite <- be_fixed_front by lia. apply SetBytes_be_fixed. lia.
Qed.

Lemma putint_minimal (i : Z) :
  0 < i < 2 ^ 64 ->
  exists n, (n < 8)%nat
    /\ rlp.putint i = big.be_fixed (S n) i
    /\ 2 ^ (8 * Z.of_nat n) <= i < 2 ^ (8 * Z.of_nat (S n)).
Proof.
  intros Hi. unfold rlp.putint.
  destruct (Z.ltb_spec i (2 ^ 8)); [exists 0%nat; putint_case |].
  destruct (Z.ltb_spec i (2 ^ 16)); [exists 1%nat; putint_case |].
  destruct (Z.ltb_spec i (2 ^ 24)); [exists 2%nat; putint_case |].
  destruct (Z.ltb_spec i (2 ^ 32)); [exists 3%nat; putint_case |].
  destruct (Z.ltb_spec i (2 ^ 40)); [exists 4%nat; putint_case |].
  destruct (Z.ltb_spec i (2 ^ 48)); [exists 5%nat; putint_case |].
  destruct (Z.ltb_spec i (2 ^ 56)); [exists 6%nat; putint_case |].
  exists 7%nat; putint_case.
Qed.

Lemma Bytes_minimal (i : Z) :
  0 < i ->
  exists n,
    big.Bytes i = big.be_fixed (S n) i
    /\ 2 ^ (8 * Z.of_nat n) <= i < 2 ^ (8 * Z.of_nat (S n)).
Proof.
  intros Hi. unfold big.Bytes, big.BitLen.
  destruct (Z.eqb_spec i 0) as [| _]; [lia |].
  rewrite Z.abs_eq by lia.
  pose proof (Z.log2_nonneg i) as Hk.
  pose proof (Z.log2_spec i Hi) as [Hlo Hhi].
  set (k := Z.log2 i) in *.
  exists (Z.to_nat (k / 8)).
  assert (0 <= k / 8) as Hq by (apply Z.div_pos; lia).
  pose proof (Z.div_mod k 8 ltac:(lia)) as Hdm.
  pose proof (Z.mod_pos_bound k 8 ltac:(lia)) as Hmod.
  split.
  - f_equal.
    replace (k + 1 + 7) with (k + 1 * 8) by lia.
    rewrite Z.div_add by lia. lia.
  - rewrite Nat2Z.inj_succ, Z2Nat.id by lia. split.
    + apply Z.le_trans with (2 ^ k); [| exact Hlo].
      apply Z.pow_le_mono_r; lia.
    + apply Z.lt_le_trans with (2 ^ Z.succ k); [exact Hhi |].
      apply Z.pow_le_mono_r; lia.
Qed.

(** ** Reading back what the encoder wrote *)

Lemma readFull_app (n : Z) (a rest : list byte) :
  Z.of_nat (length a) = n -> rlp.readFull n (a ++ rest) = Ok (a, rest).
Proof.
  intros Hn. unfold rlp.readFull. rewrite length_app.
  destruct (Z.ltb_spec (Z.of_nat (length a + length rest)) n); [lia |].
  rewrite take_app_length', drop_app_length' by lia. reflexivity.
Qed.

Lemma readUint_be_fixed (n : nat) (i : Z) (rest : list byte) :
  2 ^ (8 * Z.of_nat n) <= i < 2 ^ (8 * Z.of_nat (S n)) ->
  rlp.readUint (Z.of_nat (S n)) (big.be_fixed (S n) i ++ rest)
  = Ok (i, rest).
Proof.
  intros Hi. unfold rlp.readUint.
  destruct (Z.eqb_spec (Z.of_nat (S n)) 0) as [| _]; [lia |].
  destruct (Z.eqb_spec (Z.of_nat (S n)) 1) as [H1 | H1].
  - assert (n = 0%nat) as -> by lia.
    cbn [big.be_fixed app]. rewrite byte_to_of_Z_small; [reflexivity |].
    change (2 ^ (8 * Z.of_nat 1)) with 256 in Hi.
    change (2 ^ (8 * Z.of_nat 0)) with 1 in Hi. lia.
  - destruct (be_fixed_minimal n i Hi) as (b0 & tl & Heq & Hlen & Hnz & Hval).
    rewrite Heq.
    rewrite readFull_app by (simpl; lia).
    cbn [bind].
    destruct (Z.eqb_spec (byte_to_Z b0) 0); [contradiction |].
    rewrite Hval. reflexivity.
Qed.

(** The header of an item of [size] bytes, written with the tags of a
    string or of a list, read by [readKind]. *)
Lemma readKind_string_header (size : Z) (rest : list byte) :
  0 <= size < 2 ^ 64 ->
  rlp.readKind (rlp.encodeStringHeader size ++ rest)
  = Ok (rlp.String, size, x00, rest).
Proof.
  intros Hs. unfold rlp.encodeStringHeader, rlp.puthead.
  destruct (Z.ltb_spec size 56) as [Hsmall | Hlarge].
  - cbn [app rlp.readKind]. rewrite byte_to_of_Z_small by lia.
    ltb_cases. repeat f_equal. lia.
  - destruct (putint_minimal size ltac:(lia)) as (n & Hn & Heq & Hrange).
    rewrite Heq, length_be_fixed.
    cbn [app rlp.readKind]. rewrite byte_to_of_Z_small by lia.
    ltb_cases.
    replace (183 + Z.of_nat (S n) - 183) with (Z.of_nat (S n)) by lia.
    rewrite readUint_be_fixed by exact Hrange.
    cbn [bind]. ltb_cases. reflexivity.
Qed.

Lemma readKind_list_header (size : Z) (rest : list byte) :
  0 <= size < 2 ^ 64 ->
  rlp.readKind (rlp.puthead 0xC0 0xF7 size ++ rest)
  = Ok (rlp.List, size, x00, rest).
Proof.
  intros Hs. unfold rlp.puthead.
  destruct (Z.ltb_spec size 56) as [Hsmall | Hlarge].
  - cbn [app rlp.readKind]. rewrite byte_to_of_Z_small by lia.
    ltb_cases. repeat f_equal. lia.
  - destruct (putint_minimal size ltac:(lia)) as (n & Hn & Heq & Hrange).
    rewrite Heq, length_be_fixed.
    cbn [app rlp.readKind]. rewrite byte_to_of_Z_small by lia.
    ltb_cases.
    replace (247 + Z.of_nat (S n) - 247) with (Z.of_nat (S n)) by lia.
    rewrite readUint_be_fixed by exact Hrange.
    cbn [bind]. ltb_cases. reflexivity.
Qed.

Lemma StreamKind_of_readKind (s s' : rlp.Stream) (kind : rlp.Kind)
    (size : Z) (byteval : byte) :
  rlp.readKind s = Ok (kind, size, byteval, s') ->
  size <= Z.of_nat (length s') ->
  rlp.StreamKind s = Ok (kind, size, byteval, s').
Proof.
  intros Hk Hsize. unfold rlp.StreamKind.
  destruct s as [| b s0]; [discriminate |].
  rewrite Hk. cbn [bind].
  destruct (Z.ltb_spec (Z.of_nat (length s')) size); [lia | reflexivity].
Qed.

(** [Stream.Bytes] reads back a string. *)
Lemma Bytes_encodeString (b rest : list byte) :
  Z.of_nat (length b) < 2 ^ 64 ->
  rlp.Bytes (rlp.encodeString b ++ rest) = Ok (b, rest).
Proof.
  intros Hlen. unfold rlp.Bytes.
  assert (rlp.StreamKind (rlp.encodeStringHeader (Z.of_nat (length b))
                            ++ b ++ rest)
          = Ok (rlp.String, Z.of_nat (length b), x00, b ++ rest)) as Hhead.
  { apply StreamKind_of_readKind.
    - apply readKind_string_header. lia.
    - rewrite length_app. lia. }
  assert (bind (rlp.StreamKind (rlp.encodeStringHeader (Z.of_nat (length b))
                                  ++ b ++ rest))
               (fun '(ksb, s') =>
                  let '(kind, size, byteval) := ksb in
                  match kind with
                  | rlp.Byte => Ok ([byteval], s')
                  | rlp.String =>
                      let* (b1, s'') := rlp.readFull size s' in
                      match b1 with
                      | [b0] => if byte_to_Z b0 <? 128 then Err ErrCanonSize
                                else Ok (b1, s'')
                      | _ => Ok (b1, s'')
                      end
                  | rlp.List => Err ErrExpectedString
                  end)
          = (match b with
             | [b0] => if byte_to_Z b0 <? 128 then Err ErrCanonSize
                       else Ok (b, rest)
             | _ => Ok (b, rest)
             end)) as Hgen.
  { rewrite Hhead. cbn [bind].
    rewrite readFull_app by reflexivity. cbn [bind]. reflexivity. }
  destruct b as [| b0 [| b1 tl]].
  - cbn [rlp.encodeString length]. rewrite <- app_assoc. exact Hgen.
  - cbn [rlp.encodeString].
    destruct (Z.leb_spec (byte_to_Z b0) 0x7F) as [Hsingle | Hlong].
    + cbn [app rlp.StreamKind rlp.readKind].
      destruct (Z.ltb_spec (byte_to_Z b0) 0x80); [| lia].
      cbn [bind].
      destruct (Z.ltb_spec (Z.of_nat (length rest)) 0); [lia | reflexivity].
    + rewrite <- app_assoc. change (Z.of_nat (length [b0])) with 1 in Hgen.
      rewrite Hgen.
      destruct (Z.ltb_spec (byte_to_Z b0) 128); [lia | reflexivity].
  - cbn [rlp.encodeString]. rewrite <- app_assoc. exact Hgen.
Qed.

(** [decodeUint] reads back a [uint64]. *)
Lemma decodeUint_writeUint (i : Z) (rest : list byte) :
  is_uint64 i ->
  rlp.decodeUint (rlp.writeUint i ++ rest) = Ok (i, rest).
Proof.
  unfold is_uint64. intros Hi. unfold rlp.writeUint.
  destruct (Z.eqb_spec i 0) as [-> | Hnz].
  - cbn [app]. unfold rlp.decodeUint.
    rewrite (StreamKind_of_readKind _ rest rlp.String 0 x00);
      [| reflexivity | lia].
    cbn [bind]. reflexivity.
  - destruct (Z.ltb_spec i 128) as [Hsmall | Hlarge].
    + cbn [app]. unfold rlp.decodeUint.
      rewrite (StreamKind_of_readKind _ rest rlp.Byte 0 (byte_of_Z i)).
      * cbn [bind]. rewrite byte_to_of_Z_small by lia.
        destruct (Z.eqb_spec i 0); [lia | reflexivity].
      * cbn [rlp.readKind]. rewrite byte_to_of_Z_small by lia.
        destruct (Z.ltb_spec i 128); [reflexivity | lia].
      * lia.
    + destruct (putint_minimal i ltac:(lia)) as (n & Hn & Heq & Hrange).
      rewrite Heq, length_be_fixed. cbn [app]. unfold rlp.decodeUint.
      rewrite (StreamKind_of_readKind _ (big.be_fixed (S n) i ++ rest)
                 rlp.String (Z.of_nat (S n)) x00).
      * cbn [bind].
        change (64 / 8) with 8.
        destruct (Z.ltb_spec 8 (Z.of_nat (S n))); [lia |].
        rewrite readUint_be_fixed by exact Hrange.
        destruct (Z.ltb_spec 0 (Z.of_nat (S n))); [| lia].
        destruct (Z.ltb_spec i 128); [lia | reflexivity].
      * cbn [rlp.readKind]. rewrite byte_to_of_Z_small by lia.
        ltb_cases. repeat f_equal. lia.
      * rewrite length_app, length_be_fixed. lia.
Qed.

Lemma length_encodeString_ge (b : list byte) :
  (length b <= length (rlp.encodeString b))%nat.
Proof.
  unfold rlp.encodeString.
  destruct b as [| b0 [| b1 tl]]; try (rewrite length_app; lia).
  destruct (byte_to_Z b0 <=? 0x7F); [lia |].
  rewrite length_app; lia.
Qed.

Lemma length_writeList_ge (payload : list byte) :
  (length payload <= length (rlp.writeList payload))%nat.
Proof. unfold rlp.writeList. rewrite length_app. lia. Qed.

(** [decodeBigInt] reads back a non-negative [big.Int]. *)
Lemma decodeBigInt_writeBigInt (i : Z) (bs rest : list byte) :
  rlp.writeBigInt i = Ok bs ->
  Z.of_nat (length bs) < 2 ^ 64 ->
  rlp.decodeBigInt (bs ++ rest) = Ok (i, rest).
Proof.
  unfold rlp.writeBigInt. intros Hw Hlen.
  destruct (Z.ltb_spec i 0) as [| Hnn]; [discriminate |].
  destruct (Z.eqb_spec i 0) as [-> | Hnz].
  - injection Hw as <-. unfold rlp.decodeBigInt.
    replace [x80] with (rlp.encodeString []) by reflexivity.
    rewrite Bytes_encodeString by (simpl; lia). reflexivity.
  - injection Hw as <-.
    pose proof (length_encodeString_ge (big.Bytes i)) as Hge.
    unfold rlp.decodeBigInt.
    rewrite Bytes_encodeString by lia. cbn [bind].
    destruct (Bytes_minimal i ltac:(lia)) as (n & Heq & Hrange).
    destruct (be_fixed_minimal n i Hrange) as (b0 & tl & Hb & _ & Hb0 & Hval).
    rewrite Heq, Hb.
    destruct (Z.eqb_spec (byte_to_Z b0) 0); [contradiction |].
    rewrite Hval. reflexivity.
Qed.

Lemma StreamKind_encodeString_long (a rest : list byte) :
  (2 <= length a)%nat -> Z.of_nat (length a) < 2 ^ 64 ->
  rlp.encodeString a = rlp.encodeStringHeader (Z.of_nat (length a)) ++ a
  /\ rlp.StreamKind (rlp.encodeString a ++ rest)
     = Ok (rlp.String, Z.of_nat (length a), x00, a ++ rest).
Proof.
  intros H2 Hlen.
  assert (rlp.encodeString a
          = rlp.encodeStringHeader (Z.of_nat (length a)) ++ a) as Heq.
  { destruct a as [| b0 [| b1 tl]]; simpl in H2; try lia. reflexivity. }
  split; [exact Heq |].
  rewrite Heq, <- app_assoc.
  apply StreamKind_of_readKind.
  - apply readKind_string_header. lia.
  - rewrite length_app. lia.
Qed.

(** [decodeByteArray] reads back an array of at least two bytes. *)
Lemma decodeByteArray_writeByteArray (vlen : Z) (a rest : list byte) :
  Z.of_nat (length a) = vlen -> 2 <= vlen < 2 ^ 64 ->
  rlp.decodeByteArray vlen (rlp.writeByteArray a ++ rest) = Ok (a, rest).
Proof.
  intros Hlen Hv. unfold rlp.decodeByteArray, rlp.writeByteArray.
  destruct (StreamKind_encodeString_long a rest) as [_ Hk]; [lia | lia |].
  rewrite Hk. cbn [bind]. rewrite Hlen.
  destruct (Z.ltb_spec vlen vlen); [lia |].
  rewrite readFull_app by exact Hlen. cbn [bind].
  destruct a as [| b0 [| b1 tl]]; simpl in Hlen; try lia. reflexivity.
Qed.

(** The decoder of a pointer tagged [nil] reads back an optional
    array. *)
Lemma decodeOptionalPtr_array (vlen : Z) (d : option (list byte))
    (rest : list byte) :
  2 <= vlen < 2 ^ 64 ->
  (forall a, d = Some a -> Z.of_nat (length a) = vlen) ->
  rlp.decodeOptionalPtr (rlp.decodeByteArray vlen)
    (match d with
     | None => rlp.writeNilByteArray
     | Some a => rlp.writeByteArray a
     end ++ rest)
  = Ok (d, rest).
Proof.
  intros Hv Hd. unfold rlp.decodeOptionalPtr.
  destruct d as [a |].
  - specialize (Hd a eq_refl).
    destruct (StreamKind_encodeString_long a rest) as [_ Hk]; [lia | lia |].
    unfold rlp.writeByteArray at 1. rewrite Hk.
    destruct (Z.eqb_spec (Z.of_nat (length a)) 0); [lia |].
    cbn [andb].
    rewrite decodeByteArray_writeByteArray by assumption. reflexivity.
  - unfold rlp.writeNilByteArray. cbn [app].
    rewrite (StreamKind_of_readKind _ rest rlp.String 0 x00);
      [reflexivity | reflexivity | lia].
Qed.

(** [Stream.List] splits off the payload of a list. *)
Lemma StreamList_writeList (payload rest : list byte) :
  Z.of_nat (length payload) < 2 ^ 64 ->
  rlp.StreamList (rlp.writeList payload ++ rest) = Ok (payload, rest).
Proof.
  intros Hlen. unfold rlp.StreamList, rlp.writeList.
  rewrite <- app_assoc.
  rewrite (StreamKind_of_readKind _ (payload ++ rest) rlp.List
             (Z.of_nat (length payload)) x00).
  - cbn [bind]. rewrite Nat2Z.id.
    rewrite take_app_length, drop_app_length. reflexivity.
  - apply readKind_list_header. lia.
  - rewrite length_app. lia.
Qed.

Lemma decodeSliceElems_concat {A : Type}
    (elemdec : rlp.Stream -> result (A * rlp.Stream))
    (xs : list A) (encs : list (list byte)) :
  elemdec [] = Err EOL ->
  Forall2 (decodes elemdec) xs encs ->
  forall fuel, (length (concat encs) < fuel)%nat ->
  rlp.decodeSliceElems elemdec fuel (concat encs) = Ok (xs, []).
Proof.
  intros Hend.
  induction 1 as [| x enc xs encs [Hne Hdec] _ IH]; intros fuel Hfuel.
  - destruct fuel as [| fuel']; [simpl in Hfuel; lia |].
    cbn [concat rlp.decodeSliceElems]. rewrite Hend. reflexivity.
  - cbn [concat] in *. rewrite length_app in Hfuel.
    assert (0 < length enc)%nat as Hpos
      by (destruct enc; [congruence | simpl; lia]).
    destruct fuel as [| fuel']; [lia |].
    cbn [rlp.decodeSliceElems]. rewrite Hdec.
    rewrite IH by lia. reflexivity.
Qed.

Lemma decodeListSlice_writeList {A : Type}
    (elemdec : rlp.Stream -> result (A * rlp.Stream))
    (xs : list A) (encs : list (list byte)) (rest : list byte) :
  elemdec [] = Err EOL ->
  Forall2 (decodes elemdec) xs encs ->
  Z.of_nat (length (concat encs)) < 2 ^ 64 ->
  rlp.decodeListSlice elemdec (rlp.writeList (concat encs) ++ rest)
  = Ok (xs, rest).
Proof.
  intros Hend Hall Hlen. unfold rlp.decodeListSlice.
  rewrite StreamList_writeList by exact Hlen. cbn [bind].
  destruct (Z.eqb_spec (Z.of_nat (length (concat encs))) 0) as [Hz | Hnz].
  - destruct (concat encs) as [| b0 tl] eqn:Hc; [| simpl in Hz; lia].
    assert (xs = []) as ->.
    { destruct Hall as [| x enc xs encs [Hne _] _]; [reflexivity |].
      cbn [concat] in Hc. apply app_eq_nil in Hc. tauto. }
    reflexivity.
  - rewrite (decodeSliceElems_concat elemdec xs encs Hend Hall) by lia.
    reflexivity.
Qed.

Lemma mapM_Ok_Forall2 {A B : Type} (f : A -> result B) (l : list A)
    (ys : list B) :
  mapM f l = Ok ys -> Forall2 (fun x y => f x = Ok y) l ys.
Proof.
  revert ys. induction l as [| x l IH]; intros ys H; simpl in H.
  - injection H as <-. constructor.
  - destruct (f x) as [y |] eqn:Hy; [| discriminate].
    destruct (mapM f l) as [ys' |] eqn:Hys; [| discriminate].
    injection H as <-. constructor; [exact Hy | apply IH; reflexivity].
Qed.

Lemma length_concat_elem (encs : list (list byte)) (enc : list byte) :
  In enc encs -> (length enc <= length (concat encs))%nat.
Proof.
  induction encs as [| e encs IH]; intros Hin; [destruct Hin |].
  cbn [concat]. rewrite length_app.
  destruct Hin as [-> | Hin]; [lia |]. specialize (IH Hin). lia.
Qed.

(** ** Decoding an encoded transaction *)

Section TransactionCodec.

Variable encodeClause : tx.Clause -> result (list byte).
Variable decodeClause : rlp.Stream -> result (tx.Clause * rlp.Stream).

Lemma body_set_all (b : tx.body) :
  tx.set_Signature
    (tx.set_DependsOn
       (tx.set_TimeBarrier
          (tx.set_Nonce
             (tx.set_Gas
                (tx.set_GasPrice (tx.set_Clauses tx.zero_body (tx.Clauses b))
                   (tx.GasPrice b))
                (tx.Gas b))
             (tx.Nonce b))
          (tx.TimeBarrier b))
       (tx.DependsOn b))
    (tx.Signature b)
  = b.
Proof. destruct b. reflexivity. Qed.

Lemma Forall2_decodes {A B : Type} (R : A -> list byte -> Prop)
    (elemdec : rlp.Stream -> result (B * rlp.Stream)) (g : A -> B)
    (l : list A) (encs : list (list byte)) :
  Forall2 R l encs ->
  (forall x enc, In x l -> In enc encs -> R x enc ->
                 decodes elemdec (g x) enc) ->
  Forall2 (decodes elemdec) (map g l) encs.
Proof.
  induction 1 as [| x enc l encs Hx _ IH]; intros Hall; simpl.
  - constructor.
  - constructor.
    + apply Hall; [left; reflexivity | left; reflexivity | exact Hx].
    + apply IH. intros x' enc' Hin Hin'. apply Hall; right; assumption.
Qed.

Lemma decodeBody_encodeBody (b : tx.body) (bs rest : list byte) :
  wellTyped b ->
  decodeClause [] = Err EOL ->
  (forall c enc, In c (tx.Clauses b) -> encodeClause c = Ok enc ->
                 decodes decodeClause c enc) ->
  tx.encodeBody encodeClause b = Ok bs ->
  Z.of_nat (length bs) < 2 ^ 64 ->
  tx.decodeBody decodeClause (bs ++ rest) = (b, Ok rest).
Proof.
  intros (HGas & HNonce & HTime & HDep) Hend Hclauses Henc Hlen.
  unfold tx.encodeBody, tx.encodeClauses in Henc.
  destruct (mapM encodeClause (tx.Clauses b)) as [items |] eqn:Hitems;
    [| discriminate].
  cbn [bind] in Henc.
  destruct (rlp.writeBigInt (tx.GasPrice b)) as [gp |] eqn:Hgp;
    [| discriminate].
  cbn [bind] in Henc. injection Henc as <-.
  pose proof (length_writeList_ge
    (rlp.writeList (concat items) ++ gp ++ rlp.writeUint (tx.Gas b)
       ++ rlp.writeUint (tx.Nonce b) ++ rlp.writeUint (tx.TimeBarrier b)
       ++ tx.encodeDependsOn (tx.DependsOn b)
       ++ rlp.encodeString (tx.Signature b))) as Hpayload.
  repeat rewrite length_app in Hpayload.
  pose proof (length_writeList_ge (concat items)) as Hcs.
  pose proof (length_encodeString_ge (tx.Signature b)) as Hsig.
  unfold tx.decodeBody.
  rewrite StreamList_writeList by (repeat rewrite length_app; lia).
  cbv beta iota.
  assert (Forall2 (decodes decodeClause) (tx.Clauses b) items) as Hall.
  { apply mapM_Ok_Forall2 in Hitems.
    rewrite <- (map_id (tx.Clauses b)).
    apply (Forall2_decodes (fun c enc => encodeClause c = Ok enc));
      [exact Hitems |].
    intros c enc Hin _ Hc. apply Hclauses; assumption. }
  rewrite (decodeListSlice_writeList decodeClause (tx.Clauses b) items _
             Hend Hall) by lia.
  cbv beta iota.
  rewrite (decodeBigInt_writeBigInt (tx.GasPrice b) gp) by (assumption || lia).
  cbv beta iota.
  rewrite decodeUint_writeUint by assumption.
  cbv beta iota.
  rewrite decodeUint_writeUint by assumption.
  cbv beta iota.
  rewrite decodeUint_writeUint by assumption.
  cbv beta iota.
  unfold tx.encodeDependsOn.
  rewrite (decodeOptionalPtr_array thor.HashLength (tx.DependsOn b));
    [| unfold thor.HashLength; lia | exact HDep].
  cbv beta iota.
  unfold rlp.decodeByteSlice.
  rewrite <- (app_nil_r (rlp.encodeString (tx.Signature b))).
  rewrite Bytes_encodeString by lia.
  cbv beta iota. cbn [rlp.ListEnd].
  rewrite body_set_all. reflexivity.
Qed.

(** Decoding the encoding of a transaction succeeds, leaves what follows
    the encoding, and sets the receiver to the transaction without a
    cached hash. *)
Lemma tx_DecodeRLP_EncodeRLP (t t0 : tx.Transaction) (bs rest : list byte) :
  wellTyped (tx.tbody t) ->
  decodeClause [] = Err EOL ->
  (forall c enc, In c (tx.Clauses (tx.tbody t)) -> encodeClause c = Ok enc ->
                 decodes decodeClause c enc) ->
  tx.EncodeRLP encodeClause t = Ok bs ->
  Z.of_nat (length bs) < 2 ^ 64 ->
  tx.DecodeRLP decodeClause t0 (bs ++ rest) = (uncached t, Ok rest).
Proof.
  intros Hwt Hend Hcl Henc Hlen. unfold tx.DecodeRLP, tx.EncodeRLP in *.
  rewrite (decodeBody_encodeBody (tx.tbody t) bs rest) by assumption.
  reflexivity.
Qed.

Lemma tx_EncodeRLP_nonempty (t : tx.Transaction) (bs : list byte) :
  tx.EncodeRLP encodeClause t = Ok bs -> bs <> [].
Proof.
  unfold tx.EncodeRLP, tx.encodeBody. intros H.
  destruct (tx.encodeClauses encodeClause (tx.Clauses (tx.tbody t)));
    [| discriminate].
  cbn [bind] in H.
  destruct (rlp.writeBigInt (tx.GasPrice (tx.tbody t))); [| discriminate].
  cbn [bind] in H. injection H as <-.
  unfold rlp.writeList, rlp.puthead.
  destruct (_ <? 56); discriminate.
Qed.

End TransactionCodec.

(** ** Decoding an encoded block *)

Section BlockCodec.

Variable Header : Type.
Variable zero_Header : Header.
Variable encodeHeader : Header -> result (list byte).
Variable decodeHeader : rlp.Stream -> result (Header * rlp.Stream).
Variable encodeClause : tx.Clause -> result (list byte).
Variable decodeClause : rlp.Stream -> result (tx.Clause * rlp.Stream).

(** At the end of a list the decoder of a transaction reports it. *)
Lemma decodeTransaction_at_end :
  tx.decodeTransaction decodeClause [] = Err EOL.
Proof. reflexivity. Qed.

Lemma decodeTransaction_EncodeRLP (t : tx.Transaction) (enc : list byte) :
  wellTyped (tx.tbody t) ->
  decodeClause [] = Err EOL ->
  (forall c e, In c (tx.Clauses (tx.tbody t)) -> encodeClause c = Ok e ->
               decodes decodeClause c e) ->
  tx.EncodeRLP encodeClause t = Ok enc ->
  Z.of_nat (length enc) < 2 ^ 64 ->
  decodes (tx.decodeTransaction decodeClause) (uncached t) enc.
Proof.
  intros Hwt Hend Hcl Henc Hlen. split.
  - eapply tx_EncodeRLP_nonempty; eassumption.
  - intros rest. unfold tx.decodeTransaction.
    rewrite (tx_DecodeRLP_EncodeRLP encodeClause decodeClause t
               tx.zero_Transaction enc rest) by assumption.
    reflexivity.
Qed.

Lemma decodePayload_EncodeRLP (b : block.Block Header)
    (bs rest : list byte) :
  decodeClause [] = Err EOL ->
  (forall enc, encodeHeader (block.header Header b) = Ok enc ->
               decodes decodeHeader (block.header Header b) enc) ->
  (forall t, In t (block.txs Header b) ->
     wellTyped (tx.tbody t)
     /\ forall c e, In c (tx.Clauses (tx.tbody t)) -> encodeClause c = Ok e ->
                    decodes decodeClause c e) ->
  block.EncodeRLP Header encodeHeader encodeClause b = Ok bs ->
  Z.of_nat (length bs) < 2 ^ 64 ->
  block.decodePayload Header zero_Header decodeHeader decodeClause
    (bs ++ rest)
  = ({| block.payload_Header := block.header Header b;
        block.payload_Txs := map uncached (block.txs Header b) |},
     Ok rest).
Proof.
  intros Hend Hheader Htxs Henc Hlen.
  unfold block.EncodeRLP, block.encodeTransactions in Henc.
  destruct (encodeHeader (block.header Header b)) as [h |] eqn:Hh;
    [| discriminate].
  cbn [bind] in Henc.
  destruct (mapM (tx.EncodeRLP encodeClause) (block.txs Header b))
    as [items |] eqn:Hitems; [| discriminate].
  cbn [bind] in Henc. injection Henc as <-.
  pose proof (length_writeList_ge (h ++ rlp.writeList (concat items)))
    as Hpayload.
  rewrite length_app in Hpayload.
  pose proof (length_writeList_ge (concat items)) as Hts.
  destruct (Hheader h eq_refl) as [_ Hdec].
  unfold block.decodePayload.
  rewrite StreamList_writeList by (rewrite length_app; lia).
  cbv beta iota.
  rewrite Hdec. cbv beta iota.
  rewrite <- (app_nil_r (rlp.writeList (concat items))).
  rewrite (decodeListSlice_writeList (tx.decodeTransaction decodeClause)
             (map uncached (block.txs Header b)) items).
  - cbv beta iota. cbn [rlp.ListEnd block.payload_Header block.payload_Txs].
    reflexivity.
  - apply decodeTransaction_at_end.
  - apply mapM_Ok_Forall2 in Hitems.
    apply (Forall2_decodes
             (fun t enc => tx.EncodeRLP encodeClause t = Ok enc));
      [exact Hitems |].
    intros t enc Hin Hin' Ht.
    destruct (Htxs t Hin) as [Hwt Hcl].
    apply decodeTransaction_EncodeRLP; try assumption.
    pose proof (length_concat_elem items enc Hin'). lia.
  - lia.
Qed.

(** Decoding the encoding of a block succeeds, leaves what follows the
    encoding, and sets the receiver to the block without cached values. *)
Lemma block_DecodeRLP_EncodeRLP (b b0 : block.Block Header)
    (bs rest : list byte) :
  decodeClause [] = Err EOL ->
  (forall enc, encodeHeader (block.header Header b) = Ok enc ->
               decodes decodeHeader (block.header Header b) enc) ->
  (forall t, In t (block.txs Header b) ->
     wellTyped (tx.tbody t)
     /\ forall c e, In c (tx.Clauses (tx.tbody t)) -> encodeClause c = Ok e ->
                    decodes decodeClause c e) ->
  block.EncodeRLP Header encodeHeader encodeClause b = Ok bs ->
  Z.of_nat (length bs) < 2 ^ 64 ->
  block.DecodeRLP Header zero_Header decodeHeader decodeClause b0
    (bs ++ rest)
  = ({| block.header := block.header Header b;
        block.txs := map uncached (block.txs Header b);
        block.cache_size := None |},
     Ok rest).
Proof.
  intros Hend Hheader Htxs Henc Hlen. unfold block.DecodeRLP.
  rewrite (decodePayload_EncodeRLP b bs rest) by assumption.
  reflexivity.
Qed.

Lemma Forall2_uncached (l : list tx.Transaction) :
  Forall2 tx_equal (map uncached l) l.
Proof.
  induction l as [| t l IH]; simpl; constructor; [reflexivity | exact IH].
Qed.

End BlockCodec.

(** ** The concrete collaborators read back what they wrote *)

Lemma sample_clause_decodes (c : tx.Clause) (enc : list byte) :
  (forall a, tx.To c = Some a -> Z.of_nat (length a) = thor.AddressLength) ->
  sample.encodeClause c = Ok enc ->
  Z.of_nat (length enc) < 2 ^ 64 ->
  decodes sample.decodeClause c enc.
Proof.
  intros Hto Henc Hlen. unfold sample.encodeClause in Henc.
  destruct (rlp.writeBigInt (tx.Value c)) as [v |] eqn:Hv; [| discriminate].
  cbn [bind] in Henc. injection Henc as <-.
  pose proof (length_writeList_ge
    (sample.encodeTo (tx.To c) ++ v ++ rlp.encodeString (tx.Data c)))
    as Hpayload.
  repeat rewrite length_app in Hpayload.
  pose proof (length_encodeString_ge (tx.Data c)) as Hdata.
  split.
  - unfold rlp.writeList, rlp.puthead. destruct (_ <? 56); discriminate.
  - intros rest. unfold sample.decodeClause.
    rewrite StreamList_writeList by (repeat rewrite length_app; lia).
    cbn [bind]. unfold sample.encodeTo.
    rewrite (decodeOptionalPtr_array thor.AddressLength (tx.To c));
      [| unfold thor.AddressLength; lia | exact Hto].
    cbn [bind].
    rewrite (decodeBigInt_writeBigInt (tx.Value c) v) by (assumption || lia).
    cbn [bind]. unfold rlp.decodeByteSlice.
    rewrite <- (app_nil_r (rlp.encodeString (tx.Data c))).
    rewrite Bytes_encodeString by lia.
    cbn [bind rlp.ListEnd]. destruct c. reflexivity.
Qed.

Lemma sample_header_decodes (h : sample.Header) (enc : list byte) :
  is_uint64 (sample.Number h) ->
  sample.encodeHeader h = Ok enc ->
  Z.of_nat (length enc) < 2 ^ 64 ->
  decodes sample.decodeHeader h enc.
Proof.
  intros Hn Henc Hlen. unfold sample.encodeHeader in Henc.
  injection Henc as <-.
  pose proof (length_writeList_ge
    (rlp.writeUint (sample.Number h)
       ++ rlp.encodeString (sample.HeaderSignature h))) as Hpayload.
  rewrite length_app in Hpayload.
  pose proof (length_encodeString_ge (sample.HeaderSignature h)) as Hsig.
  split.
  - unfold rlp.writeList, rlp.puthead. destruct (_ <? 56); discriminate.
  - intros rest. unfold sample.decodeHeader.
    rewrite StreamList_writeList by (rewrite length_app; lia).
    cbn [bind].
    rewrite decodeUint_writeUint by exact Hn.
    cbn [bind]. unfold rlp.decodeByteSlice.
    rewrite <- (app_nil_r (rlp.encodeString (sample.HeaderSignature h))).
    rewrite Bytes_encodeString by lia.
    cbn [bind rlp.ListEnd]. destruct h. reflexivity.
Qed.

(** ** Round trip *)

Section RoundTrip.

Variable Header : Type.
Variable zero_Header : Header.
Variable encodeHeader : Header -> result (list byte).
Variable decodeHeader : rlp.Stream -> result (Header * rlp.Stream).
Variable encodeClause : tx.Clause -> result (list byte).
Variable decodeClause : rlp.Stream -> result (tx.Clause * rlp.Stream).

(** C2: decoding the encoding of a transaction or of a block succeeds
    with a value logically equal to the one encoded, whatever the cached
    hash or size of either and whatever the receiver held. The value is
    validly constructed: its fields are values of their Go types, it
    encodes, in fewer than [2 ^ 64] bytes, and the codec of its clauses
    (and of its header) reads back what it wrote and reports the end of
    a list. *)
Theorem decode_encode_round_trip :
  (forall (t t0 : tx.Transaction) (bs rest : list byte),
     wellTyped (tx.tbody t) ->
     decodeClause [] = Err EOL ->
     (forall c enc, In c (tx.Clauses (tx.tbody t)) ->
                    encodeClause c = Ok enc -> decodes decodeClause c enc) ->
     tx.EncodeRLP encodeClause t = Ok bs ->
     Z.of_nat (length bs) < 2 ^ 64 ->
     exists t',
       tx.DecodeRLP decodeClause t0 (bs ++ rest) = (t', Ok rest)
       /\ tx_equal t' t)
  /\ (forall (b b0 : block.Block Header) (bs rest : list byte),
        decodeClause [] = Err EOL ->
        (forall enc, encodeHeader (block.header Header b) = Ok enc ->
                     decodes decodeHeader (block.header Header b) enc) ->
        (forall t, In t (block.txs Header b) ->
           wellTyped (tx.tbody t)
           /\ forall c e, In c (tx.Clauses (tx.tbody t)) ->
                          encodeClause c = Ok e -> decodes decodeClause c e) ->
        block.EncodeRLP Header encodeHeader encodeClause b = Ok bs ->
        Z.of_nat (length bs) < 2 ^ 64 ->
        exists b',
          block.DecodeRLP Header zero_Header decodeHeader decodeClause b0
            (bs ++ rest) = (b', Ok rest)
          /\ block_equal b' b).
Proof.
  split.
  - intros t t0 bs rest Hwt Hend Hcl Henc Hlen.
    exists (uncached t). split.
    + apply (tx_DecodeRLP_EncodeRLP encodeClause); assumption.
    + reflexivity.
  - intros b b0 bs rest Hend Hh Htxs Henc Hlen.
    eexists. split.
    + apply (block_DecodeRLP_EncodeRLP Header zero_Header encodeHeader
               decodeHeader encodeClause); eassumption.
    + split; [reflexivity |]. cbn [block.txs]. apply Forall2_uncached.
Qed.

Lemma decodeBody_Ok (s s' : rlp.Stream) (b : tx.body) :
  tx.decodeBody decodeClause s = (b, Ok s') ->
  readsBody decodeClause s b s'.
Proof.
  unfold tx.decodeBody. intros H.
  destruct (rlp.StreamList s) as [[p rest] | e] eqn:H0; [| discriminate].
  destruct (rlp.decodeListSlice decodeClause p) as [[cs p1] | e] eqn:H1;
    [| discriminate].
  destruct (rlp.decodeBigInt p1) as [[gp p2] | e] eqn:H2; [| discriminate].
  destruct (rlp.decodeUint p2) as [[g p3] | e] eqn:H3; [| discriminate].
  destruct (rlp.decodeUint p3) as [[n p4] | e] eqn:H4; [| discriminate].
  destruct (rlp.decodeUint p4) as [[tb p5] | e] eqn:H5; [| discriminate].
  destruct (rlp.decodeOptionalPtr (rlp.decodeByteArray thor.HashLength) p5)
    as [[d p6] | e] eqn:H6; [| discriminate].
  destruct (rlp.decodeByteSlice p6) as [[sig p7] | e] eqn:H7;
    [| discriminate].
  destruct p7 as [| b7 p7]; [| discriminate].
  cbn [rlp.ListEnd] in H. injection H as <- <-.
  exists p, p1, p2, p3, p4, p5, p6. cbn.
  repeat (split; [assumption |]). assumption.
Qed.

Lemma decodePayload_Ok (s s' : rlp.Stream) (pl : block.payload Header) :
  block.decodePayload Header zero_Header decodeHeader decodeClause s
  = (pl, Ok s') ->
  readsBlock decodeHeader decodeClause s (block.payload_Header Header pl)
    (block.payload_Txs Header pl) s'.
Proof.
  unfold block.decodePayload. intros H.
  destruct (rlp.StreamList s) as [[p rest] | e] eqn:H0; [| discriminate].
  destruct (decodeHeader p) as [[hd p1] | e] eqn:H1; [| discriminate].
  destruct (rlp.decodeListSlice (tx.decodeTransaction decodeClause) p1)
    as [[ts p2] | e] eqn:H2; [| discriminate].
  destruct p2 as [| b2 p2]; [| discriminate].
  cbn [rlp.ListEnd] in H. injection H as <- <-.
  exists p, p1. cbn. repeat (split; [assumption |]). assumption.
Qed.

(** C6: decoding a transaction or a block from any input either
    succeeds, and the receiver becomes a new instance, without cached
    value, whose fields were all read from the input, or fails with an
    error and leaves the receiver as it was: the fields are decoded into
    a temporary, which is dropped on an error. *)
Theorem DecodeRLP_all_or_nothing :
  (forall (t : tx.Transaction) (s : rlp.Stream),
     (exists body s',
        tx.DecodeRLP decodeClause t s
        = ({| tx.tbody := body; tx.cache_hash := None |}, Ok s')
        /\ readsBody decodeClause s body s')
     \/ (exists e, tx.DecodeRLP decodeClause t s = (t, Err e)))
  /\ (forall (b : block.Block Header) (s : rlp.Stream),
        (exists header txs s',
           block.DecodeRLP Header zero_Header decodeHeader decodeClause b s
           = ({| block.header := header; block.txs := txs;
                 block.cache_size := None |}, Ok s')
           /\ readsBlock decodeHeader decodeClause s header txs s')
        \/ (exists e,
              block.DecodeRLP Header zero_Header decodeHeader decodeClause
                b s = (b, Err e))).
Proof.
  split.
  - intros t s. unfold tx.DecodeRLP.
    destruct (tx.decodeBody decodeClause s) as [body [s' | e]] eqn:Hd.
    + left. exists body, s'. split; [reflexivity |].
      apply decodeBody_Ok. exact Hd.
    + right. exists e. reflexivity.
  - intros b s. unfold block.DecodeRLP.
    destruct (block.decodePayload Header zero_Header decodeHeader
                decodeClause s) as [pl [s' | e]] eqn:Hd.
    + left.
      exists (block.payload_Header Header pl), (block.payload_Txs Header pl),
        s'.
      split; [reflexivity |]. apply decodePayload_Ok. exact Hd.
    + right. exists e. reflexivity.
Qed.

End RoundTrip.

(** A truncated input: the clauses are decoded into the temporary, the
    gas price is missing, and the receiver keeps its value. *)
Example DecodeRLP_truncated :
  let s := rlp.writeList (tx.written
             (tx.encodeClauses sample.encodeClause
                [sample.transfer; sample.creation])) in
  tx.decodeBody sample.decodeClause s
  = (tx.set_Clauses tx.zero_body [sample.transfer; sample.creation],
     Err ErrTooFewElements)
  /\ tx.DecodeRLP sample.decodeClause sample.tx2 s
     = (sample.tx2, Err ErrTooFewElements).
Proof. vm_compute. split; reflexivity. Qed.

(** ** The size of a block *)

Section BlockSize.

Variable Header : Type.
Variable withSignature : Header -> list byte -> Header.
Variable encodeHeader : Header -> result (list byte).
Variable encodeClause : tx.Clause -> result (list byte).

Abbreviation Size := (block.Size Header encodeHeader encodeClause).
Abbreviation EncodeRLP := (block.EncodeRLP Header encodeHeader encodeClause).
Abbreviation WithSignature := (block.WithSignature Header withSignature).

Lemma Size_uncached (b : block.Block Header) :
  block.cache_size Header b = None ->
  fst (Size b) = Z.of_nat (length (tx.written (EncodeRLP b))).
Proof.
  intros Hc. unfold block.Size. rewrite Hc. reflexivity.
Qed.

(** C9: the size of a block whose cache holds nothing but what [Size]
    stored is the length of its own encoding, and stays so once cached;
    the size of the block with a signature set is the length of the
    encoding of that block, whatever size was cached for the original,
    and the two sizes can differ. *)
Theorem Size_is_length_of_own_encoding (b : block.Block Header)
    (sig : list byte) :
  cache_consistent encodeHeader encodeClause b ->
  fst (Size b) = Z.of_nat (length (tx.written (EncodeRLP b)))
  /\ (forall bs, EncodeRLP b = Ok bs -> fst (Size b) = Z.of_nat (length bs))
  /\ fst (Size (snd (Size b))) = fst (Size b)
  /\ cache_consistent encodeHeader encodeClause (snd (Size b))
  /\ fst (Size (WithSignature b sig))
     = Z.of_nat (length (tx.written (EncodeRLP (WithSignature b sig))))
  /\ (forall b2,
        block.header Header b2 = block.header Header b ->
        block.txs Header b2 = block.txs Header b ->
        Size (WithSignature b2 sig) = Size (WithSignature b sig))
  /\ fst (block.Size sample.Header sample.encodeHeader sample.encodeClause
            (block.WithSignature sample.Header sample.withSignature
               sample.block1 (replicate 65 x01)))
     <> fst (block.Size sample.Header sample.encodeHeader sample.encodeClause
               sample.block1).
Proof.
  intros Hcache.
  assert (fst (Size b) = Z.of_nat (length (tx.written (EncodeRLP b))))
    as Hsize.
  { unfold block.Size.
    destruct (block.cache_size Header b) as [cached |] eqn:Hc.
    - apply Hcache. exact Hc.
    - reflexivity. }
  split; [exact Hsize |].
  split.
  { intros bs Hbs. rewrite Hsize, Hbs. reflexivity. }
  split.
  { unfold block.Size.
    destruct (block.cache_size Header b) as [cached |] eqn:Hc.
    - cbn [snd fst]. rewrite Hc. reflexivity.
    - reflexivity. }
  split.
  { unfold block.Size.
    destruct (block.cache_size Header b) as [cached |] eqn:Hc.
    - exact Hcache.
    - intros n Hn. cbn [snd block.cache_size] in Hn. injection Hn as <-.
      unfold block.counterWriter_Write.
      rewrite Z.add_0_l. reflexivity. }
  split.
  { apply Size_uncached. reflexivity. }
  split.
  { intros b2 Hh Ht. unfold block.WithSignature. rewrite Hh, Ht.
    reflexivity. }
  vm_compute. discriminate.
Qed.

End BlockSize.

(** ** The signing hash *)

Section SigningHash.

Variable encodeClause : tx.Clause -> result (list byte).
Variable hasher : list byte -> thor.Hash.

Lemma SigningHash_of_fields (t1 t2 : tx.Transaction) :
  tx.encodeSigningFields encodeClause (tx.tbody t1)
  = tx.encodeSigningFields encodeClause (tx.tbody t2) ->
  tx.SigningHash encodeClause hasher t1
  = tx.SigningHash encodeClause hasher t2.
Proof.
  intros H. unfold tx.SigningHash. rewrite H. reflexivity.
Qed.

(** C4: the signing hash is the hash of the encoding of the list of
    the clauses, the gas price, the gas, the nonce, the time barrier and
    the dependency, in this order; the encoding of the transaction is
    that list with the signature added at the end. So transactions that
    differ only in their signature have the same signing hash. *)
Theorem SigningHash_excludes_signature :
  (forall (t : tx.Transaction) (cs gp : list byte),
     tx.encodeClauses encodeClause (tx.Clauses (tx.tbody t)) = Ok cs ->
     rlp.writeBigInt (tx.GasPrice (tx.tbody t)) = Ok gp ->
     let signed :=
       cs ++ gp ++ rlp.writeUint (tx.Gas (tx.tbody t))
          ++ rlp.writeUint (tx.Nonce (tx.tbody t))
          ++ rlp.writeUint (tx.TimeBarrier (tx.tbody t))
          ++ tx.encodeDependsOn (tx.DependsOn (tx.tbody t)) in
     tx.SigningHash encodeClause hasher t = hasher (rlp.writeList signed)
     /\ tx.EncodeRLP encodeClause t
        = Ok (rlp.writeList
                (signed ++ rlp.encodeString (tx.Signature (tx.tbody t)))))
  /\ (forall t1 t2 : tx.Transaction,
        tx.Clauses (tx.tbody t1) = tx.Clauses (tx.tbody t2) ->
        tx.GasPrice (tx.tbody t1) = tx.GasPrice (tx.tbody t2) ->
        tx.Gas (tx.tbody t1) = tx.Gas (tx.tbody t2) ->
        tx.Nonce (tx.tbody t1) = tx.Nonce (tx.tbody t2) ->
        tx.TimeBarrier (tx.tbody t1) = tx.TimeBarrier (tx.tbody t2) ->
        tx.DependsOn (tx.tbody t1) = tx.DependsOn (tx.tbody t2) ->
        tx.SigningHash encodeClause hasher t1
        = tx.SigningHash encodeClause hasher t2).
Proof.
  split.
  - intros t cs gp Hcs Hgp signed. subst signed. split.
    + unfold tx.SigningHash, tx.encodeSigningFields.
      rewrite Hcs, Hgp. reflexivity.
    + unfold tx.EncodeRLP, tx.encodeBody. rewrite Hcs, Hgp. cbn [bind].
      repeat rewrite <- app_assoc. reflexivity.
  - intros t1 t2 H1 H2 H3 H4 H5 H6. apply SigningHash_of_fields.
    unfold tx.encodeSigningFields. rewrite H1, H2, H3, H4, H5, H6.
    reflexivity.
Qed.

End SigningHash.

(** ** Memory: copies are fresh *)

Lemma alloc_spec (h h' : mem.heap) (c : mem.cell) (l : mem.loc) :
  mem.alloc h c = (l, h') ->
  h !! l = None /\ h' = <[l := c]> h /\ h ⊆ h'.
Proof.
  unfold mem.alloc. intros H. injection H as <- <-.
  assert (h !! fresh (dom h) = None) as Hfresh.
  { apply not_elem_of_dom. apply is_fresh. }
  split; [exact Hfresh |]. split; [reflexivity |].
  apply insert_subseteq. exact Hfresh.
Qed.

(** Writing through a location that was free in [h] leaves [h] as it
    was. *)
Lemma mutate_fresh (h : mem.heap) (l : mem.loc) (c c' : mem.cell) :
  h !! l = None -> h ⊆ mem.mutate (<[l := c]> h) l c'.
Proof.
  intros Hfree. unfold mem.mutate. rewrite insert_insert_eq.
  apply insert_subseteq. exact Hfree.
Qed.

Lemma bytesOf_weaken (h h' : mem.heap) (s : mem.slice) (bs : list byte) :
  mem.bytesOf h s = Some bs -> h ⊆ h' -> mem.bytesOf h' s = Some bs.
Proof.
  intros H Hsub. destruct s as [| a off len]; [exact H |].
  unfold mem.bytesOf in *.
  destruct (h !! a) as [c |] eqn:Ha; [| discriminate].
  rewrite (lookup_weaken h h' a c Ha Hsub). exact H.
Qed.

Lemma ptrsOf_weaken (h h' : mem.heap) (s : mem.slice) (ps : list mem.loc) :
  mem.ptrsOf h s = Some ps -> h ⊆ h' -> mem.ptrsOf h' s = Some ps.
Proof.
  intros H Hsub. destruct s as [| a off len]; [exact H |].
  unfold mem.ptrsOf in *.
  destruct (h !! a) as [c |] eqn:Ha; [| discriminate].
  rewrite (lookup_weaken h h' a c Ha Hsub). exact H.
Qed.

Lemma getBigInt_weaken (h h' : mem.heap) (p : mem.loc) (v : Z) :
  mem.getBigInt h p = Some v -> h ⊆ h' -> mem.getBigInt h' p = Some v.
Proof.
  unfold mem.getBigInt. intros H Hsub.
  destruct (h !! p) as [c |] eqn:Hp; [| discriminate].
  rewrite (lookup_weaken h h' p c Hp Hsub). exact H.
Qed.

Lemma getTx_weaken (h h' : mem.heap) (t : mem.loc) (o : mem.Transaction) :
  mem.getTx h t = Some o -> h ⊆ h' -> mem.getTx h' t = Some o.
Proof.
  unfold mem.getTx. intros H Hsub.
  destruct (h !! t) as [c |] eqn:Ht; [| discriminate].
  rewrite (lookup_weaken h h' t c Ht Hsub). exact H.
Qed.

Lemma getBlock_weaken (h h' : mem.heap) (b : mem.loc) (o : mem.Block) :
  mem.getBlock h b = Some o -> h ⊆ h' -> mem.getBlock h' b = Some o.
Proof.
  unfold mem.getBlock. intros H Hsub.
  destruct (h !! b) as [c |] eqn:Hb; [| discriminate].
  rewrite (lookup_weaken h h' b c Hb Hsub). exact H.
Qed.

(** What a transaction shows does not change when memory only grows. *)
Lemma load_weaken (h h' : mem.heap) (t : mem.loc) (v : tx.Transaction) :
  mem.load h t = Some v -> h ⊆ h' -> mem.load h' t = Some v.
Proof.
  unfold mem.load. intros H Hsub.
  destruct (mem.getTx h t) as [o |] eqn:Ho; [| discriminate].
  rewrite (getTx_weaken h h' t o Ho Hsub).
  destruct (mem.getBigInt h (mem.GasPrice o)) as [gp |] eqn:Hgp;
    [| discriminate].
  rewrite (getBigInt_weaken h h' _ gp Hgp Hsub).
  destruct (mem.bytesOf h (mem.Signature o)) as [sig |] eqn:Hsig;
    [| discriminate].
  rewrite (bytesOf_weaken h h' _ sig Hsig Hsub). exact H.
Qed.

Lemma loadTxs_weaken (h h' : mem.heap) (b : mem.loc) (ps : list mem.loc) :
  mem.loadTxs h b = Some ps -> h ⊆ h' -> mem.loadTxs h' b = Some ps.
Proof.
  unfold mem.loadTxs. intros H Hsub.
  destruct (mem.getBlock h b) as [o |] eqn:Ho; [| discriminate].
  rewrite (getBlock_weaken h h' b o Ho Hsub).
  eapply ptrsOf_weaken; eassumption.
Qed.

Lemma window_all {A : Type} (a : list A) :
  mem.window 0 (length a) a = Some a.
Proof.
  unfold mem.window. destruct (decide (0 + length a <= length a)%nat); [| lia].
  rewrite drop_0, take_ge by lia. reflexivity.
Qed.

(** The copy made by [append] on a nil slice shows the same bytes, and
    what it can be written through was free before. *)
Lemma appendNilBytes_spec (h : mem.heap) (src : mem.slice)
    (bs : list byte) :
  mem.bytesOf h src = Some bs ->
  exists s h',
    mem.appendNilBytes h src = Some (s, h')
    /\ mem.bytesOf h' s = Some bs
    /\ h ⊆ h'
    /\ forall l, mem.arrayOf s = Some l ->
         h !! l = None /\ exists c, h' = <[l := c]> h.
Proof.
  intros Hsrc. unfold mem.appendNilBytes. rewrite Hsrc.
  destruct bs as [| b bs].
  - exists mem.nil_slice, h.
    split; [reflexivity |]. split; [reflexivity |].
    split; [reflexivity |]. discriminate.
  - destruct (mem.alloc h (mem.ByteArray (b :: bs))) as [l h'] eqn:Ha.
    destruct (alloc_spec _ _ _ _ Ha) as (Hfree & -> & Hsub).
    exists (mem.Slice l 0 (length (b :: bs))), (<[l := mem.ByteArray (b :: bs)]> h).
    split; [reflexivity |]. split.
    + unfold mem.bytesOf. rewrite lookup_insert_eq. apply window_all.
    + split; [exact Hsub |].
      intros l' Hl'. injection Hl' as <-. split; [exact Hfree |].
      eexists. reflexivity.
Qed.

Lemma appendNilPtrs_spec (h : mem.heap) (src : mem.slice)
    (ps : list mem.loc) :
  mem.ptrsOf h src = Some ps ->
  exists s h',
    mem.appendNilPtrs h src = Some (s, h')
    /\ mem.ptrsOf h' s = Some ps
    /\ h ⊆ h'
    /\ forall l, mem.arrayOf s = Some l ->
         h !! l = None /\ exists c, h' = <[l := c]> h.
Proof.
  intros Hsrc. unfold mem.appendNilPtrs. rewrite Hsrc.
  destruct ps as [| p ps].
  - exists mem.nil_slice, h.
    split; [reflexivity |]. split; [reflexivity |].
    split; [reflexivity |]. discriminate.
  - destruct (mem.alloc h (mem.PtrArray (p :: ps))) as [l h'] eqn:Ha.
    destruct (alloc_spec _ _ _ _ Ha) as (Hfree & -> & Hsub).
    exists (mem.Slice l 0 (length (p :: ps))), (<[l := mem.PtrArray (p :: ps)]> h).
    split; [reflexivity |]. split.
    + unfold mem.ptrsOf. rewrite lookup_insert_eq. apply window_all.
    + split; [exact Hsub |].
      intros l' Hl'. injection Hl' as <-. split; [exact Hfree |].
      eexists. reflexivity.
Qed.

Lemma load_Signature (h : mem.heap) (t : mem.loc) (v : tx.Transaction) :
  mem.load h t = Some v ->
  exists o, mem.getTx h t = Some o
    /\ mem.getBigInt h (mem.GasPrice o) = Some (tx.GasPrice (tx.tbody v))
    /\ mem.bytesOf h (mem.Signature o) = Some (tx.Signature (tx.tbody v)).
Proof.
  unfold mem.load. intros H.
  destruct (mem.getTx h t) as [o |]; [| discriminate].
  destruct (mem.getBigInt h (mem.GasPrice o)) as [gp |] eqn:Hgp;
    [| discriminate].
  destruct (mem.bytesOf h (mem.Signature o)) as [sig |] eqn:Hsig;
    [| discriminate].
  injection H as <-. exists o.
  split; [reflexivity |]. split; [exact Hgp | exact Hsig].
Qed.

Lemma Transaction_Signature_copies (h : mem.heap) (t : mem.loc)
    (v : tx.Transaction) :
  mem.load h t = Some v ->
  exists s h1,
    mem.Transaction_Signature h t = Some (s, h1)
    /\ mem.bytesOf h1 s = Some (tx.Signature (tx.tbody v))
    /\ forall l c, mem.arrayOf s = Some l ->
         h !! l = None /\ h ⊆ mem.mutate h1 l c.
Proof.
  intros Hload.
  destruct (load_Signature h t v Hload) as (o & Ho & _ & Hsig).
  destruct (appendNilBytes_spec h _ _ Hsig) as (s & h1 & Happ & Hs & _ & Hl).
  exists s, h1. unfold mem.Transaction_Signature. rewrite Ho.
  split; [exact Happ |]. split; [exact Hs |].
  intros l c Harr. destruct (Hl l Harr) as (Hfree & c0 & ->).
  split; [exact Hfree | apply mutate_fresh; exact Hfree].
Qed.

Lemma Transaction_GasPrice_copies (h : mem.heap) (t : mem.loc)
    (v : tx.Transaction) :
  mem.load h t = Some v ->
  exists p h1,
    mem.Transaction_GasPrice h t = Some (p, h1)
    /\ mem.getBigInt h1 p = Some (tx.GasPrice (tx.tbody v))
    /\ forall c, h !! p = None /\ h ⊆ mem.mutate h1 p c.
Proof.
  intros Hload.
  destruct (load_Signature h t v Hload) as (o & Ho & Hgp & _).
  destruct (mem.alloc h (mem.BigInt (tx.GasPrice (tx.tbody v))))
    as [p h1] eqn:Ha.
  destruct (alloc_spec _ _ _ _ Ha) as (Hfree & -> & Hsub).
  exists p, (<[p := mem.BigInt (tx.GasPrice (tx.tbody v))]> h).
  unfold mem.Transaction_GasPrice. rewrite Ho, Hgp, Ha.
  split; [reflexivity |]. split.
  - unfold mem.getBigInt. rewrite lookup_insert_eq. reflexivity.
  - intros c. split; [exact Hfree | apply mutate_fresh; exact Hfree].
Qed.

Lemma Block_Transactions_copies (h : mem.heap) (b : mem.loc)
    (ps : list mem.loc) :
  mem.loadTxs h b = Some ps ->
  exists s h1,
    mem.Block_Transactions h b = Some (s, h1)
    /\ mem.ptrsOf h1 s = Some ps
    /\ forall l c, mem.arrayOf s = Some l ->
         h !! l = None /\ h ⊆ mem.mutate h1 l c.
Proof.
  unfold mem.loadTxs, mem.Block_Transactions. intros Hload.
  destruct (mem.getBlock h b) as [o |]; [| discriminate].
  destruct (appendNilPtrs_spec h _ _ Hload) as (s & h1 & Happ & Hs & _ & Hl).
  exists s, h1.
  split; [exact Happ |]. split; [exact Hs |].
  intros l c Harr. destruct (Hl l Harr) as (Hfree & c0 & ->).
  split; [exact Hfree | apply mutate_fresh; exact Hfree].
Qed.

(** C8: [Signature], [GasPrice] and [Transactions] return copies. What
    is returned shows the stored value and lives where nothing was
    before the call; whatever is written through it afterwards, every
    cell that existed before the call keeps its contents, the
    transaction (or the block) shows the same value, and calling the
    accessor again returns that value again. *)
Theorem accessors_return_copies :
  (forall (h : mem.heap) (t : mem.loc) (v : tx.Transaction),
     mem.load h t = Some v ->
     exists s h1,
       mem.Transaction_Signature h t = Some (s, h1)
       /\ mem.bytesOf h1 s = Some (tx.Signature (tx.tbody v))
       /\ forall l c, mem.arrayOf s = Some l ->
            let h2 := mem.mutate h1 l c in
            h !! l = None
            /\ h ⊆ h2
            /\ mem.load h2 t = Some v
            /\ exists s2 h3,
                 mem.Transaction_Signature h2 t = Some (s2, h3)
                 /\ mem.bytesOf h3 s2 = Some (tx.Signature (tx.tbody v)))
  /\ (forall (h : mem.heap) (t : mem.loc) (v : tx.Transaction),
        mem.load h t = Some v ->
        exists p h1,
          mem.Transaction_GasPrice h t = Some (p, h1)
          /\ mem.getBigInt h1 p = Some (tx.GasPrice (tx.tbody v))
          /\ forall c,
               let h2 := mem.mutate h1 p c in
               h !! p = None
               /\ h ⊆ h2
               /\ mem.load h2 t = Some v
               /\ exists p2 h3,
                    mem.Transaction_GasPrice h2 t = Some (p2, h3)
                    /\ mem.getBigInt h3 p2
                       = Some (tx.GasPrice (tx.tbody v)))
  /\ (forall (h : mem.heap) (b : mem.loc) (ps : list mem.loc),
        mem.loadTxs h b = Some ps ->
        exists s h1,
          mem.Block_Transactions h b = Some (s, h1)
          /\ mem.ptrsOf h1 s = Some ps
          /\ forall l c, mem.arrayOf s = Some l ->
               let h2 := mem.mutate h1 l c in
               h !! l = None
               /\ h ⊆ h2
               /\ mem.loadTxs h2 b = Some ps
               /\ exists s2 h3,
                    mem.Block_Transactions h2 b = Some (s2, h3)
                    /\ mem.ptrsOf h3 s2 = Some ps).
Proof.
  split; [| split].
  - intros h t v Hload.
    destruct (Transaction_Signature_copies h t v Hload)
      as (s & h1 & Hcall & Hs & Hmut).
    exists s, h1. split; [exact Hcall |]. split; [exact Hs |].
    intros l c Harr h2. destruct (Hmut l c Harr) as [Hfree Hsub].
    assert (mem.load h2 t = Some v) as Hload2
      by (eapply load_weaken; eassumption).
    split; [exact Hfree |]. split; [exact Hsub |]. split; [exact Hload2 |].
    destruct (Transaction_Signature_copies h2 t v Hload2)
      as (s2 & h3 & Hcall2 & Hs2 & _).
    exists s2, h3. split; assumption.
  - intros h t v Hload.
    destruct (Transaction_GasPrice_copies h t v Hload)
      as (p & h1 & Hcall & Hp & Hmut).
    exists p, h1. split; [exact Hcall |]. split; [exact Hp |].
    intros c h2. destruct (Hmut c) as [Hfree Hsub].
    assert (mem.load h2 t = Some v) as Hload2
      by (eapply load_weaken; eassumption).
    split; [exact Hfree |]. split; [exact Hsub |]. split; [exact Hload2 |].
    destruct (Transaction_GasPrice_copies h2 t v Hload2)
      as (p2 & h3 & Hcall2 & Hp2 & _).
    exists p2, h3. split; assumption.
  - intros h b ps Hload.
    destruct (Block_Transactions_copies h b ps Hload)
      as (s & h1 & Hcall & Hs & Hmut).
    exists s, h1. split; [exact Hcall |]. split; [exact Hs |].
    intros l c Harr h2. destruct (Hmut l c Harr) as [Hfree Hsub].
    assert (mem.loadTxs h2 b = Some ps) as Hload2
      by (eapply loadTxs_weaken; eassumption).
    split; [exact Hfree |]. split; [exact Hsub |]. split; [exact Hload2 |].
    destruct (Block_Transactions_copies h2 b ps Hload2)
      as (s2 & h3 & Hcall2 & Hs2 & _).
    exists s2, h3. split; assumption.
Qed.

Section WithSignature.

Variable encodeClause : tx.Clause -> result (list byte).
Variable hasher : list byte -> thor.Hash.

(** C3: [WithSignature] returns a new transaction that shows the body of
    the receiver with the signature replaced by the given bytes, and so
    has the same signing hash; every cell that existed before the call
    keeps its contents, and the receiver shows the same value as
    before. *)
Theorem WithSignature_keeps_SigningHash (h : mem.heap) (t : mem.loc)
    (sig : mem.slice) (v : tx.Transaction) (s : list byte) :
  mem.load h t = Some v ->
  mem.bytesOf h sig = Some s ->
  exists t' h' v',
    mem.Transaction_WithSignature h t sig = Some (t', h')
    /\ h !! t' = None
    /\ h ⊆ h'
    /\ mem.load h' t = Some v
    /\ mem.load h' t' = Some v'
    /\ tx.tbody v' = tx.set_Signature (tx.tbody v) s
    /\ tx.SigningHash encodeClause hasher v'
       = tx.SigningHash encodeClause hasher v.
Proof.
  intros Hload Hsig.
  destruct (load_Signature h t v Hload) as (o & Ho & Hgp & Hosig).
  destruct (appendNilBytes_spec h sig s Hsig)
    as (sig' & h1 & Happ & Hsig' & Hsub1 & Hfresh).
  set (newTx :=
         {| mem.Clauses := mem.Clauses o; mem.GasPrice := mem.GasPrice o;
            mem.Gas := mem.Gas o; mem.Nonce := mem.Nonce o;
            mem.TimeBarrier := mem.TimeBarrier o;
            mem.DependsOn := mem.DependsOn o; mem.Signature := sig';
            mem.cache_hash := None |}).
  destruct (mem.alloc h1 (mem.TxObj newTx)) as [t' h'] eqn:Ha.
  destruct (alloc_spec _ _ _ _ Ha) as (Hfree & Hh' & Hsub2).
  assert (h ⊆ h') as Hsub by (etrans; eassumption).
  assert (mem.load h t
          = Some {| tx.tbody :=
                      {| tx.Clauses := mem.Clauses o;
                         tx.GasPrice := tx.GasPrice (tx.tbody v);
                         tx.Gas := mem.Gas o; tx.Nonce := mem.Nonce o;
                         tx.TimeBarrier := mem.TimeBarrier o;
                         tx.DependsOn := mem.DependsOn o;
                         tx.Signature := tx.Signature (tx.tbody v) |};
                    tx.cache_hash := mem.cache_hash o |}) as Hv.
  { unfold mem.load. rewrite Ho, Hgp, Hosig. reflexivity. }
  rewrite Hload in Hv. injection Hv as Hv.
  exists t', h',
    {| tx.tbody :=
         {| tx.Clauses := mem.Clauses o;
            tx.GasPrice := tx.GasPrice (tx.tbody v);
            tx.Gas := mem.Gas o; tx.Nonce := mem.Nonce o;
            tx.TimeBarrier := mem.TimeBarrier o;
            tx.DependsOn := mem.DependsOn o; tx.Signature := s |};
       tx.cache_hash := None |}.
  split.
  { unfold mem.Transaction_WithSignature. rewrite Ho, Happ. fold newTx.
    rewrite Ha. reflexivity. }
  split.
  { destruct (h !! t') as [c |] eqn:Hc; [| reflexivity].
    rewrite (lookup_weaken h h1 t' c Hc Hsub1) in Hfree. discriminate. }
  split; [exact Hsub |].
  split; [eapply load_weaken; eassumption |].
  split.
  { unfold mem.load, mem.getTx. rewrite Hh', lookup_insert_eq.
    cbn [mem.GasPrice mem.Signature newTx].
    rewrite <- Hh'.
    rewrite (getBigInt_weaken h h' _ _ Hgp Hsub).
    rewrite (bytesOf_weaken h1 h' _ _ Hsig' Hsub2).
    reflexivity. }
  split.
  { rewrite Hv. reflexivity. }
  apply SigningHash_of_fields. rewrite Hv. reflexivity.
Qed.

End WithSignature.

(** ** The encoding on known values *)

(** The string "dog", the list of "cat" and "dog", the empty string and
    the empty list, as the RLP specification gives them. *)
Example encodeString_dog :
  rlp.encodeString [x64; x6f; x67] = [x83; x64; x6f; x67].
Proof. reflexivity. Qed.

Example writeList_cat_dog :
  rlp.writeList (rlp.encodeString [x63; x61; x74]
                   ++ rlp.encodeString [x64; x6f; x67])
  = [xc8; x83; x63; x61; x74; x83; x64; x6f; x67].
Proof. reflexivity. Qed.

Example encodeString_empty : rlp.encodeString [] = [x80].
Proof. reflexivity. Qed.

Example writeList_empty : rlp.writeList [] = [xc0].
Proof. reflexivity. Qed.

(** The integers 0, 15 and 1024. *)
Example writeUint_values :
  rlp.writeUint 0 = [x80] /\ rlp.writeUint 15 = [x0f]
  /\ rlp.writeUint 1024 = [x82; x04; x00].
Proof. repeat split; reflexivity. Qed.

(** A string of 56 bytes has its length in a byte of its own. *)
Example encodeString_56 :
  take 3 (rlp.encodeString (replicate 56 x61)) = [xb8; x38; x61]
  /\ length (rlp.encodeString (replicate 56 x61)) = 58%nat.
Proof. split; reflexivity. Qed.

(** Integers that are not in canonical form are refused. *)
Example decodeUint_not_canonical :
  rlp.decodeUint [x00] = Err ErrCanonInt
  /\ rlp.decodeUint [x81; x05] = Err ErrCanonSize
  /\ rlp.decodeUint [x82; x00; x05] = Err ErrCanonInt
  /\ rlp.decodeUint [x82; x04; x00; xff] = Ok (1024, [xff]).
Proof. repeat split; reflexivity. Qed.

(** ** Caches *)

Section Caches.

Variable Header : Type.
Variable zero_Header : Header.
Variable withSignature : Header -> list byte -> Header.
Variable encodeHeader : Header -> result (list byte).
Variable decodeHeader : rlp.Stream -> result (Header * rlp.Stream).
Variable encodeClause : tx.Clause -> result (list byte).
Variable decodeClause : rlp.Stream -> result (tx.Clause * rlp.Stream).
Variable hasher : list byte -> thor.Hash.

(** [Hash] fills the cache and leaves the body alone; asked again, it
    answers from the cache. *)
Lemma Hash_caches (t : tx.Transaction) :
  tx.cache_hash t = None ->
  let '(hash, t') := tx.Hash encodeClause hasher t in
  hash = hasher (tx.written (tx.EncodeRLP encodeClause t))
  /\ tx_equal t' t
  /\ tx.Hash encodeClause hasher t' = (hash, t').
Proof.
  intros Hc. unfold tx.Hash. rewrite Hc. cbn.
  split; [reflexivity |]. split; reflexivity.
Qed.

(** Blocks start with an empty cache, however they are made. *)
Lemma new_blocks_cache_consistent (header : Header)
    (txs : list tx.Transaction) (b : block.Block Header) (sig : list byte)
    (s : rlp.Stream) :
  cache_consistent encodeHeader encodeClause (block.Compose Header header txs)
  /\ cache_consistent encodeHeader encodeClause
       (block.WithSignature Header withSignature b sig)
  /\ (cache_consistent encodeHeader encodeClause b ->
      cache_consistent encodeHeader encodeClause
        (fst (block.DecodeRLP Header zero_Header decodeHeader decodeClause
                b s))).
Proof.
  split; [intros n Hn; discriminate |].
  split; [intros n Hn; discriminate |].
  intros Hb. unfold block.DecodeRLP.
  destruct (block.decodePayload Header zero_Header decodeHeader
              decodeClause s) as [pl [s' | e]].
  - intros n Hn. discriminate.
  - exact Hb.
Qed.

End Caches.

(** ** The decoders end

    The loop over the elements of a list ends because an element that is
    decoded uses up input: [Diverges] is never the outcome when the
    clause decoder does so. *)

Lemma readFull_length (n : Z) (s s' : rlp.Stream) (buf : list byte) :
  rlp.readFull n s = Ok (buf, s') -> (length s' <= length s)%nat.
Proof.
  unfold rlp.readFull. destruct (_ <? n); [discriminate |].
  intros H. injection H as _ <-. rewrite length_drop. lia.
Qed.

Lemma readUint_length (size v : Z) (s s' : rlp.Stream) :
  rlp.readUint size s = Ok (v, s') -> (length s' <= length s)%nat.
Proof.
  unfold rlp.readUint, bind. intros H.
  destruct (size =? 0); [injection H as _ <-; lia |].
  destruct (size =? 1).
  - destruct s as [| b s0]; [discriminate |]. injection H as _ <-. simpl. lia.
  - destruct (rlp.readFull size s) as [[buf s0] |] eqn:Hf; [| discriminate].
    apply readFull_length in Hf.
    destruct buf as [| b0 tl]; [injection H as _ <-; lia |].
    destruct (byte_to_Z b0 =? 0); [discriminate |].
    injection H as _ <-. lia.
Qed.

Lemma readUint_not_Diverges (size : Z) (s : rlp.Stream) :
  rlp.readUint size s <> Err Diverges.
Proof.
  unfold rlp.readUint, rlp.readFull, bind. repeat case_match; congruence.
Qed.

Lemma StreamKind_length (s s' : rlp.Stream) (kind : rlp.Kind) (size : Z)
    (byteval : byte) :
  rlp.StreamKind s = Ok (kind, size, byteval, s') ->
  (length s' < length s)%nat.
Proof.
  unfold rlp.StreamKind, rlp.readKind, bind. intros H.
  destruct s as [| b0 s0]; [discriminate |]. simpl length.
  destruct (byte_to_Z b0 <? 128).
  { destruct (_ <? 0); [discriminate |]. injection H as _ _ _ <-. lia. }
  destruct (byte_to_Z b0 <? 184).
  { destruct (_ <? _); [discriminate |]. injection H as _ _ _ <-. lia. }
  destruct (byte_to_Z b0 <? 192).
  { destruct (rlp.readUint _ s0) as [[sz s1] |] eqn:Hu; [| discriminate].
    apply readUint_length in Hu.
    destruct (sz <? 56); [discriminate |].
    destruct (_ <? sz); [discriminate |]. injection H as _ _ _ <-. lia. }
  destruct (byte_to_Z b0 <? 248).
  { destruct (_ <? _); [discriminate |]. injection H as _ _ _ <-. lia. }
  destruct (rlp.readUint _ s0) as [[sz s1] |] eqn:Hu; [| discriminate].
  apply readUint_length in Hu.
  destruct (sz <? 56); [discriminate |].
  destruct (_ <? sz); [discriminate |]. injection H as _ _ _ <-. lia.
Qed.

Lemma StreamKind_not_Diverges (s : rlp.Stream) :
  rlp.StreamKind s <> Err Diverges.
Proof.
  unfold rlp.StreamKind, rlp.readKind, bind.
  destruct s as [| b0 s0]; [discriminate |].
  pose proof (readUint_not_Diverges (byte_to_Z b0 - 183) s0).
  pose proof (readUint_not_Diverges (byte_to_Z b0 - 247) s0).
  repeat case_match; congruence.
Qed.

Lemma StreamList_length (s p rest : rlp.Stream) :
  rlp.StreamList s = Ok (p, rest) -> (length rest < length s)%nat.
Proof.
  unfold rlp.StreamList, bind. intros H.
  destruct (rlp.StreamKind s) as [[[[kind size] bv] s0] |] eqn:Hk;
    [| discriminate].
  apply StreamKind_length in Hk.
  destruct kind; try discriminate.
  injection H as _ <-. rewrite length_drop. lia.
Qed.

Lemma StreamList_not_Diverges (s : rlp.Stream) :
  rlp.StreamList s <> Err Diverges.
Proof.
  unfold rlp.StreamList, bind.
  pose proof (StreamKind_not_Diverges s).
  repeat case_match; congruence.
Qed.

Lemma Bytes_not_Diverges (s : rlp.Stream) : rlp.Bytes s <> Err Diverges.
Proof.
  unfold rlp.Bytes, rlp.readFull, bind.
  pose proof (StreamKind_not_Diverges s).
  repeat case_match; congruence.
Qed.

Lemma decodeUint_not_Diverges (s : rlp.Stream) :
  rlp.decodeUint s <> Err Diverges.
Proof.
  unfold rlp.decodeUint, bind.
  pose proof (StreamKind_not_Diverges s).
  destruct (rlp.StreamKind s) as [[[[kind size] bv] s0] |]; [| congruence].
  pose proof (readUint_not_Diverges size s0).
  repeat case_match; congruence.
Qed.

Lemma decodeBigInt_not_Diverges (s : rlp.Stream) :
  rlp.decodeBigInt s <> Err Diverges.
Proof.
  unfold rlp.decodeBigInt, bind.
  pose proof (Bytes_not_Diverges s).
  repeat case_match; congruence.
Qed.

Lemma decodeByteArray_not_Diverges (vlen : Z) (s : rlp.Stream) :
  rlp.decodeByteArray vlen s <> Err Diverges.
Proof.
  unfold rlp.decodeByteArray, rlp.readFull, bind.
  pose proof (StreamKind_not_Diverges s).
  repeat case_match; congruence.
Qed.

Lemma decodeOptionalPtr_not_Diverges {A : Type}
    (elemdec : rlp.Stream -> result (A * rlp.Stream)) (s : rlp.Stream) :
  (forall s0, elemdec s0 <> Err Diverges) ->
  rlp.decodeOptionalPtr elemdec s <> Err Diverges.
Proof.
  intros Hd. unfold rlp.decodeOptionalPtr, bind.
  pose proof (StreamKind_not_Diverges s). specialize (Hd s).
  repeat case_match; congruence.
Qed.

Lemma decodeSliceElems_not_Diverges {A : Type}
    (elemdec : rlp.Stream -> result (A * rlp.Stream)) :
  progresses elemdec ->
  forall fuel s, (length s < fuel)%nat ->
  rlp.decodeSliceElems elemdec fuel s <> Err Diverges.
Proof.
  intros [Hprog Hdiv]. induction fuel as [| fuel IH]; intros s Hlt; [lia |].
  cbn [rlp.decodeSliceElems].
  destruct (elemdec s) as [[x s'] | e] eqn:He.
  - specialize (Hprog s x s' He). specialize (IH s' ltac:(lia)).
    unfold bind.
    destruct (rlp.decodeSliceElems elemdec fuel s') as [[xs s''] | e'];
      congruence.
  - specialize (Hdiv s). destruct e; congruence.
Qed.

Lemma decodeListSlice_not_Diverges {A : Type}
    (elemdec : rlp.Stream -> result (A * rlp.Stream)) (s : rlp.Stream) :
  progresses elemdec ->
  rlp.decodeListSlice elemdec s <> Err Diverges.
Proof.
  intros Hp. unfold rlp.decodeListSlice, bind.
  pose proof (StreamList_not_Diverges s).
  destruct (rlp.StreamList s) as [[payload rest] |]; [| congruence].
  destruct (_ =? 0).
  - destruct (rlp.ListEnd payload) eqn:Hl; [discriminate |].
    destruct payload; simpl in Hl; congruence.
  - pose proof (decodeSliceElems_not_Diverges elemdec Hp
                  (S (length payload)) payload ltac:(lia)).
    destruct (rlp.decodeSliceElems elemdec (S (length payload)) payload)
      as [[xs p'] |]; [| congruence].
    destruct p'; simpl; congruence.
Qed.

Lemma fieldError_not_Diverges (e : error) :
  e <> Diverges -> tx.fieldError e <> Diverges.
Proof. destruct e; simpl; congruence. Qed.

Section Termination.

Variable Header : Type.
Variable zero_Header : Header.
Variable decodeHeader : rlp.Stream -> result (Header * rlp.Stream).
Variable decodeClause : rlp.Stream -> result (tx.Clause * rlp.Stream).
Hypothesis decodeClause_progresses : progresses decodeClause.
Hypothesis decodeHeader_not_Diverges :
  forall s, decodeHeader s <> Err Diverges.

Lemma decodeBody_not_Diverges (s : rlp.Stream) :
  snd (tx.decodeBody decodeClause s) <> Err Diverges.
Proof.
  unfold tx.decodeBody.
  pose proof (StreamList_not_Diverges s).
  destruct (rlp.StreamList s) as [[p rest] |]; [| simpl; congruence].
  pose proof (decodeListSlice_not_Diverges decodeClause p
                decodeClause_progresses).
  destruct (rlp.decodeListSlice decodeClause p) as [[v1 p1] | e1];
    [| simpl; intros [= He]; apply (fieldError_not_Diverges e1); congruence].
  pose proof (decodeBigInt_not_Diverges p1).
  destruct (rlp.decodeBigInt p1) as [[v2 p2] | e2];
    [| simpl; intros [= He]; apply (fieldError_not_Diverges e2); congruence].
  pose proof (decodeUint_not_Diverges p2).
  destruct (rlp.decodeUint p2) as [[v3 p3] | e3];
    [| simpl; intros [= He]; apply (fieldError_not_Diverges e3); congruence].
  pose proof (decodeUint_not_Diverges p3).
  destruct (rlp.decodeUint p3) as [[v4 p4] | e4];
    [| simpl; intros [= He]; apply (fieldError_not_Diverges e4); congruence].
  pose proof (decodeUint_not_Diverges p4).
  destruct (rlp.decodeUint p4) as [[v5 p5] | e5];
    [| simpl; intros [= He]; apply (fieldError_not_Diverges e5); congruence].
  pose proof (decodeOptionalPtr_not_Diverges
                (rlp.decodeByteArray thor.HashLength) p5
                (decodeByteArray_not_Diverges thor.HashLength)).
  destruct (rlp.decodeOptionalPtr (rlp.decodeByteArray thor.HashLength) p5)
    as [[v6 p6] | e6];
    [| simpl; intros [= He]; apply (fieldError_not_Diverges e6); congruence].
  pose proof (Bytes_not_Diverges p6). unfold rlp.decodeByteSlice.
  destruct (rlp.Bytes p6) as [[v7 p7] | e7];
    [| simpl; intros [= He]; apply (fieldError_not_Diverges e7); congruence].
  destruct p7; simpl; congruence.
Qed.

Lemma decodeTransaction_progresses :
  progresses (tx.decodeTransaction decodeClause).
Proof.
  split.
  - intros s x s' H. unfold tx.decodeTransaction, tx.DecodeRLP in H.
    destruct (tx.decodeBody decodeClause s) as [b [s0 | e]] eqn:Hd;
      [| discriminate].
    injection H as _ <-.
    unfold tx.decodeBody in Hd.
    destruct (rlp.StreamList s) as [[p rest] |] eqn:Hl;
      [| discriminate].
    apply StreamList_length in Hl.
    assert (s0 = rest) as ->; [| exact Hl].
    revert Hd. repeat case_match; congruence.
  - intros s. unfold tx.decodeTransaction, tx.DecodeRLP.
    pose proof (decodeBody_not_Diverges s) as Hd.
    destruct (tx.decodeBody decodeClause s) as [b [s0 | e]];
      simpl in *; congruence.
Qed.

(** With a clause decoder that uses up input when it succeeds, decoding
    a transaction or a block ends. *)
Lemma DecodeRLP_ends (t : tx.Transaction) (b : block.Block Header)
    (s : rlp.Stream) :
  snd (tx.DecodeRLP decodeClause t s) <> Err Diverges
  /\ snd (block.DecodeRLP Header zero_Header decodeHeader decodeClause b s)
     <> Err Diverges.
Proof.
  split.
  - unfold tx.DecodeRLP. pose proof (decodeBody_not_Diverges s) as Hd.
    destruct (tx.decodeBody decodeClause s) as [bd [s0 | e]];
      simpl in *; congruence.
  - unfold block.DecodeRLP, block.decodePayload.
    pose proof (StreamList_not_Diverges s).
    destruct (rlp.StreamList s) as [[p rest] |]; [| simpl; congruence].
    specialize (decodeHeader_not_Diverges p).
    destruct (decodeHeader p) as [[v1 p1] | e1];
      [| simpl; intros [= He]; apply (fieldError_not_Diverges e1);
         congruence].
    pose proof (decodeListSlice_not_Diverges
                  (tx.decodeTransaction decodeClause) p1
                  decodeTransaction_progresses).
    destruct (rlp.decodeListSlice (tx.decodeTransaction decodeClause) p1)
      as [[v2 p2] | e2];
      [| simpl; intros [= He]; apply (fieldError_not_Diverges e2);
         congruence].
    destruct p2; simpl; congruence.
Qed.

End Termination.

(** ** The statements at concrete values *)

Lemma sample_ClauseGas_le : 0 <= sample.ClauseGas <= params.TxGas.
Proof. unfold sample.ClauseGas, params.TxGas. lia. Qed.

Lemma sample_ClauseGasContractCreation_le :
  0 <= sample.ClauseGasContractCreation <= params.TxGasContractCreation.
Proof.
  unfold sample.ClauseGasContractCreation, params.TxGasContractCreation. lia.
Qed.

Lemma IntrinsicGas_no_clauses_witness :
  tx.ClauseCount sample.tx2 = 0
  /\ tx.IntrinsicGas sample.ClauseGas sample.ClauseGasContractCreation
       sample.tx2 = Ok params.TxGas.
Proof.
  split; [reflexivity |].
  apply (IntrinsicGas_no_clauses sample.ClauseGas
           sample.ClauseGasContractCreation sample.tx2).
  reflexivity.
Defined.

Lemma IntrinsicGas_identical_calls_witness :
  tx.IntrinsicGas sample.ClauseGas sample.ClauseGasContractCreation
    (sample.calls 3) = Ok (params.TxGas + (Z.of_nat 3 - 1) * sample.ClauseGas)
  /\ tx.IntrinsicGas sample.ClauseGas sample.ClauseGasContractCreation
       (sample.calls 1) = Ok 21000
  /\ tx.IntrinsicGas sample.ClauseGas sample.ClauseGasContractCreation
       (sample.calls 2) = Ok (21000 + sample.ClauseGas)
  /\ tx.IntrinsicGas sample.ClauseGas sample.ClauseGasContractCreation
       (sample.calls 2) <> Ok (21000 + 21000).
Proof.
  pose proof (fun N HN =>
    IntrinsicGas_identical_calls sample.ClauseGas
      sample.ClauseGasContractCreation sample_ClauseGas_le
      sample_ClauseGasContractCreation_le sample.transfer (sample.calls N) N
      ltac:(discriminate) eq_refl HN eq_refl) as H.
  split; [apply (H 3%nat); lia |].
  split; [apply (H 1%nat); [lia | reflexivity] |].
  destruct (H 2%nat ltac:(lia)) as (_ & _ & H2).
  destruct (H2 eq_refl) as [Hgas Hne].
  split; [exact Hgas |].
  apply Hne. unfold sample.ClauseGas, params.TxGas. lia.
Defined.

Lemma IntrinsicGas_total_never_negative_witness :
  Forall (fun v => 0 <= v)
    (tx.totals sample.ClauseGas sample.ClauseGasContractCreation
       (core.IntrinsicGas (tx.Data sample.transfer)
          (tx.contractCreation sample.transfer) true)
       [sample.creation])
  /\ forall v,
       tx.IntrinsicGas sample.ClauseGas sample.ClauseGasContractCreation
         sample.tx1 = Ok v ->
       v = tx.accumulate sample.ClauseGas sample.ClauseGasContractCreation
             sample.transfer [sample.creation].
Proof.
  destruct (IntrinsicGas_total_never_negative sample.ClauseGas
              sample.ClauseGasContractCreation sample_ClauseGas_le
              sample_ClauseGasContractCreation_le sample.tx1 sample.transfer
              [sample.creation] eq_refl) as (_ & Hnn & _ & Hexact).
  split; [exact Hnn | exact Hexact].
Defined.

Lemma IntrinsicGas_too_large_iff_witness :
  tx.IntrinsicGas sample.ClauseGas sample.ClauseGasContractCreation
    sample.tx1 = Ok 69140
  /\ ~ 2 ^ 64 <= tx.accumulate sample.ClauseGas
                   sample.ClauseGasContractCreation sample.transfer
                   [sample.creation].
Proof.
  pose proof (IntrinsicGas_too_large_iff sample.ClauseGas
                sample.ClauseGasContractCreation sample_ClauseGas_le
                sample_ClauseGasContractCreation_le sample.tx1) as H.
  cbn [sample.tx1 tx.tbody tx.Clauses] in H. cbv zeta in H.
  destruct H as (_ & Hbits & Hok).
  assert (big.BitLen (tx.accumulate sample.ClauseGas
            sample.ClauseGasContractCreation sample.transfer
            [sample.creation]) <= 64) as Hle
    by (vm_compute; discriminate).
  split.
  - destruct (Hok Hle) as [Hgas _]. exact Hgas.
  - intros Hbig. apply Hbits in Hbig. lia.
Defined.

Lemma sample_clauses_decode (c : tx.Clause) (enc : list byte) :
  In c [sample.transfer; sample.creation] ->
  sample.encodeClause c = Ok enc ->
  decodes sample.decodeClause c enc.
Proof.
  intros Hin Henc.
  apply sample_clause_decodes; [| exact Henc |].
  - intros a Ha. destruct Hin as [<- | [<- | []]].
    + injection Ha as <-. reflexivity.
    + discriminate.
  - destruct Hin as [<- | [<- | []]];
      vm_compute in Henc; injection Henc as <-; vm_compute; reflexivity.
Qed.

Lemma sample_tx_wellTyped (t : tx.Transaction) :
  In t [sample.tx1; sample.tx2] ->
  wellTyped (tx.tbody t)
  /\ forall c e, In c (tx.Clauses (tx.tbody t)) ->
                 sample.encodeClause c = Ok e ->
                 decodes sample.decodeClause c e.
Proof.
  intros [<- | [<- | []]].
  - split.
    + unfold wellTyped, is_uint64. cbn [sample.tx1 tx.tbody tx.Gas tx.Nonce
        tx.TimeBarrier tx.DependsOn].
      repeat split; try lia. discriminate.
    + intros c e Hin. apply sample_clauses_decode. exact Hin.
  - split.
    + unfold wellTyped, is_uint64. cbn [sample.tx2 tx.tbody tx.Gas tx.Nonce
        tx.TimeBarrier tx.DependsOn].
      repeat split; try lia.
      intros h Hh. injection Hh as <-. reflexivity.
    + intros c e [].
Qed.

Lemma decode_encode_round_trip_witness :
  (exists t',
     tx.DecodeRLP sample.decodeClause sample.tx2
       (tx.written (tx.EncodeRLP sample.encodeClause sample.tx1)
          ++ [x01; x02])
     = (t', Ok [x01; x02])
     /\ tx_equal t' sample.tx1)
  /\ (exists b',
        block.DecodeRLP sample.Header sample.zero_Header sample.decodeHeader
          sample.decodeClause
          (block.Compose sample.Header sample.zero_Header [])
          (tx.written
             (block.EncodeRLP sample.Header sample.encodeHeader
                sample.encodeClause sample.block1) ++ [])
        = (b', Ok [])
        /\ block_equal b' sample.block1).
Proof.
  destruct (decode_encode_round_trip sample.Header sample.zero_Header
              sample.encodeHeader sample.decodeHeader sample.encodeClause
              sample.decodeClause) as [Htx Hblock].
  split.
  - apply Htx.
    + apply sample_tx_wellTyped. left. reflexivity.
    + reflexivity.
    + apply (sample_tx_wellTyped sample.tx1). left. reflexivity.
    + vm_compute. reflexivity.
    + vm_compute. reflexivity.
  - apply Hblock.
    + reflexivity.
    + intros enc Henc. apply sample_header_decodes.
      * unfold is_uint64. cbn. lia.
      * exact Henc.
      * vm_compute in Henc. injection Henc as <-. vm_compute. reflexivity.
    + intros t Hin. apply sample_tx_wellTyped. exact Hin.
    + vm_compute. reflexivity.
    + vm_compute. reflexivity.
Defined.

Lemma Size_is_length_of_own_encoding_witness :
  fst (block.Size sample.Header sample.encodeHeader sample.encodeClause
         sample.block1) = 175
  /\ fst (block.Size sample.Header sample.encodeHeader sample.encodeClause
            (block.WithSignature sample.Header sample.withSignature
               sample.block1 (replicate 65 x01))) = 242.
Proof.
  destruct (Size_is_length_of_own_encoding sample.Header sample.withSignature
              sample.encodeHeader sample.encodeClause sample.block1
              (replicate 65 x01)) as (Hsize & _ & _ & _ & Hsigned & _).
  - intros n Hn. discriminate.
  - split.
    + rewrite Hsize. vm_compute. reflexivity.
    + rewrite Hsigned. vm_compute. reflexivity.
Defined.

Lemma SigningHash_excludes_signature_witness :
  tx.SigningHash sample.encodeClause sample.hasher sample.tx1
  = tx.SigningHash sample.encodeClause sample.hasher
      {| tx.tbody := tx.set_Signature (tx.tbody sample.tx1) (replicate 65 x07);
         tx.cache_hash := None |}.
Proof.
  destruct (SigningHash_excludes_signature sample.encodeClause sample.hasher)
    as [_ Hsame].
  apply Hsame; reflexivity.
Defined.

Lemma WithSignature_keeps_SigningHash_witness :
  exists t' h' v',
    mem.Transaction_WithSignature sample.heap1 1%positive
      (mem.Slice 4%positive 0 65) = Some (t', h')
    /\ sample.heap1 !! t' = None
    /\ sample.heap1 ⊆ h'
    /\ mem.load h' 1%positive = Some sample.value1
    /\ mem.load h' t' = Some v'
    /\ tx.tbody v'
       = tx.set_Signature (tx.tbody sample.value1) (replicate 65 x05)
    /\ tx.SigningHash sample.encodeClause sample.hasher v'
       = tx.SigningHash sample.encodeClause sample.hasher sample.value1.
Proof.
  apply (WithSignature_keeps_SigningHash sample.encodeClause sample.hasher
           sample.heap1 1%positive (mem.Slice 4%positive 0 65) sample.value1
           (replicate 65 x05)).
  - vm_compute. reflexivity.
  - vm_compute. reflexivity.
Defined.

Lemma accessors_return_copies_witness :
  (exists s h1,
     mem.Transaction_Signature sample.heap1 1%positive = Some (s, h1)
     /\ mem.bytesOf h1 s = Some [x02; x03])
  /\ (exists p h1,
        mem.Transaction_GasPrice sample.heap1 1%positive = Some (p, h1)
        /\ mem.getBigInt h1 p = Some 1000000)
  /\ (exists s h1,
        mem.Block_Transactions sample.heap1 5%positive = Some (s, h1)
        /\ mem.ptrsOf h1 s = Some [1%positive]).
Proof.
  destruct accessors_return_copies as (Hsig & Hgp & Htxs).
  split; [| split].
  - destruct (Hsig sample.heap1 1%positive sample.value1)
      as (s & h1 & Hcall & Hs & _); [vm_compute; reflexivity |].
    exists s, h1. split; [exact Hcall | exact Hs].
  - destruct (Hgp sample.heap1 1%positive sample.value1)
      as (p & h1 & Hcall & Hp & _); [vm_compute; reflexivity |].
    exists p, h1. split; [exact Hcall | exact Hp].
  - destruct (Htxs sample.heap1 5%positive [1%positive])
      as (s & h1 & Hcall & Hs & _); [vm_compute; reflexivity |].
    exists s, h1. split; [exact Hcall | exact Hs].
Defined.

(** * Further properties *)

(** ** The clause iterator *)

Lemma iter_after_cursor (t : tx.Transaction) (k : nat) :
  iter.after k (iter.NewClauseIterator t)
  = {| iter.it_tx := t;
       iter.i := Z.of_nat (min k (length (tx.Clauses (tx.tbody t)))) |}.
Proof.
  assert (forall j it,
            iter.it_tx it = t ->
            0 <= iter.i it <= Z.of_nat (length (tx.Clauses (tx.tbody t))) ->
            iter.after j it
            = {| iter.it_tx := t;
                 iter.i := Z.min (iter.i it + Z.of_nat j)
                             (Z.of_nat (length (tx.Clauses (tx.tbody t)))) |})
    as Hgen.
  { induction j as [| j IH]; intros it Ht Hi.
    - cbn [iter.after]. destruct it as [t0 i0]. cbn in *. subst t0.
      f_equal. lia.
    - cbn [iter.after]. unfold iter.Next. rewrite Ht.
      destruct (Z.geb_spec (iter.i it)
                  (Z.of_nat (length (tx.Clauses (tx.tbody t)))))
        as [Hge | Hlt]; cbn [snd].
      + rewrite IH by assumption. f_equal. lia.
      + rewrite IH by (cbn; first [reflexivity | assumption | lia]). cbn [iter.i].
        f_equal. lia. }
  rewrite Hgen by (cbn; first [reflexivity | lia]).
  cbn [iter.NewClauseIterator iter.i]. f_equal. lia.
Qed.

(** X1: the call number [k] (from 0) of a clause iterator returns clause
    [k] with index [k] and [ok] while there is such a clause; every call
    after the last clause returns nil, 0 and not [ok]. *)
Theorem ClauseIterator_kth_call (t : tx.Transaction) (k : nat) :
  let it := iter.after k (iter.NewClauseIterator t) in
  match tx.Clauses (tx.tbody t) !! k with
  | Some c => fst (iter.Next it) = (Some c, Z.of_nat k, true)
  | None => iter.Next it = ((None, 0, false), it)
  end.
Proof.
  cbv zeta. rewrite iter_after_cursor. unfold iter.Next. cbn [iter.it_tx iter.i].
  destruct (tx.Clauses (tx.tbody t) !! k) as [c |] eqn:Hk.
  - apply lookup_lt_Some in Hk as Hlt.
    rewrite Nat.min_l by lia.
    destruct (Z.geb_spec (Z.of_nat k)
                (Z.of_nat (length (tx.Clauses (tx.tbody t))))); [lia |].
    cbn [fst]. rewrite Nat2Z.id, Hk. reflexivity.
  - apply lookup_ge_None in Hk.
    rewrite Nat.min_r by lia.
    destruct (Z.geb_spec (Z.of_nat (length (tx.Clauses (tx.tbody t))))
                (Z.of_nat (length (tx.Clauses (tx.tbody t))))); [| lia].
    reflexivity.
Qed.

Lemma iter_collect_from (t : tx.Transaction) (rounds : nat) :
  forall (done : nat) (rest : list tx.Clause),
    tx.Clauses (tx.tbody t) = take done (tx.Clauses (tx.tbody t)) ++ rest ->
    (done <= length (tx.Clauses (tx.tbody t)))%nat ->
    (length rest <= rounds)%nat ->
    iter.collect rounds {| iter.it_tx := t; iter.i := Z.of_nat done |}
    = imap (fun j c => (Some c, Z.of_nat (done + j))) rest.
Proof.
  induction rounds as [| rounds IH]; intros done rest Hsplit Hdone Hlen.
  - destruct rest; [reflexivity | simpl in Hlen; lia].
  - cbn [iter.collect]. unfold iter.Next. cbn [iter.it_tx iter.i].
    assert (length (tx.Clauses (tx.tbody t)) = (done + length rest)%nat)
      as Hl.
    { rewrite Hsplit at 1. rewrite length_app, length_take. lia. }
    destruct rest as [| c rest].
    + destruct (Z.geb_spec (Z.of_nat done)
                  (Z.of_nat (length (tx.Clauses (tx.tbody t)))));
        [reflexivity | simpl in Hl; lia].
    + destruct (Z.geb_spec (Z.of_nat done)
                  (Z.of_nat (length (tx.Clauses (tx.tbody t)))));
        [simpl in Hl; lia |].
      rewrite Nat2Z.id.
      assert (tx.Clauses (tx.tbody t) !! done = Some c) as Hc.
      { rewrite Hsplit. rewrite lookup_app_r by (rewrite length_take; lia).
        rewrite length_take, Nat.min_l by lia.
        rewrite Nat.sub_diag. reflexivity. }
      rewrite Hc. cbn [imap]. f_equal; [repeat f_equal; lia |].
      replace (Z.of_nat done + 1) with (Z.of_nat (S done)) by lia.
      rewrite (IH (S done) rest).
      * apply imap_ext. intros j x _. cbn. repeat f_equal. lia.
      * rewrite (take_S_r _ _ c Hc), <- app_assoc. exact Hsplit.
      * simpl in Hl. lia.
      * simpl in Hlen. lia.
Qed.

(** X2: a loop that calls a new clause iterator until it is not [ok]
    gets every clause once, in the order of the transaction, each with
    its position, and ends after as many clauses as [ClauseCount] says,
    however many more rounds it is allowed. *)
Theorem ClauseIterator_collects_clauses (t : tx.Transaction)
    (rounds : nat) :
  tx.ClauseCount t <= Z.of_nat rounds ->
  iter.collect rounds (iter.NewClauseIterator t)
  = imap (fun j c => (Some c, Z.of_nat j)) (tx.Clauses (tx.tbody t))
  /\ Z.of_nat (length (iter.collect rounds (iter.NewClauseIterator t)))
     = tx.ClauseCount t.
Proof.
  unfold tx.ClauseCount. intros Hrounds.
  assert (iter.collect rounds (iter.NewClauseIterator t)
          = imap (fun j c => (Some c, Z.of_nat j)) (tx.Clauses (tx.tbody t)))
    as Heq.
  { unfold iter.NewClauseIterator.
    change 0 with (Z.of_nat 0).
    rewrite (iter_collect_from t rounds 0 (tx.Clauses (tx.tbody t)));
      [reflexivity | reflexivity | lia | lia]. }
  split; [exact Heq |]. rewrite Heq, length_imap. reflexivity.
Qed.

(** ** More on the intrinsic gas *)

Lemma core_IntrinsicGas_split (data : list byte) (creation : bool) :
  core.IntrinsicGas data creation true
  = (if creation then params.TxGasContractCreation else params.TxGas)
    + dataGas data.
Proof.
  unfold core.IntrinsicGas, dataGas, big.SetUint64.
  rewrite andb_true_r.
  destruct (Z.ltb_spec 0 (Z.of_nat (length data))) as [Hpos | Hzero].
  - lia.
  - destruct data; [| simpl in Hzero; lia].
    unfold core.nonZeroBytes. simpl. lia.
Qed.

Lemma dataGas_bounds (data : list byte) :
  0 <= dataGas data <= 68 * Z.of_nat (length data).
Proof.
  unfold dataGas, params.TxDataNonZeroGas, params.TxDataZeroGas.
  pose proof (nonZeroBytes_bounds data). lia.
Qed.

Section GasClosedForm.

Variables ClauseGas ClauseGasContractCreation : Z.
Hypothesis ClauseGas_le : 0 <= ClauseGas <= params.TxGas.
Hypothesis ClauseGasContractCreation_le :
  0 <= ClauseGasContractCreation <= params.TxGasContractCreation.

(** What a clause after the first one adds to the total. *)
Lemma clauseStep_adds (total : Z) (c : tx.Clause) :
  tx.clauseStep ClauseGas ClauseGasContractCreation total c
  = total + clauseBase ClauseGas ClauseGasContractCreation c
    + dataGas (tx.Data c).
Proof.
  unfold tx.clauseStep, tx.addClause, clauseBase.
  rewrite core_IntrinsicGas_split.
  destruct (tx.contractCreation c) eqn:Hc.
  - rewrite (overPayed_creation _ _ ClauseGasContractCreation_le c Hc). lia.
  - rewrite (overPayed_call _ _ ClauseGas_le c Hc). lia.
Qed.

Lemma fold_clauseStep_sum (rest : list tx.Clause) (total : Z) :
  fold_left (tx.clauseStep ClauseGas ClauseGasContractCreation) rest total
  = total
    + sumZ (map (fun c => clauseBase ClauseGas ClauseGasContractCreation c
                          + dataGas (tx.Data c)) rest).
Proof.
  revert total. induction rest as [| c rest IH]; intros total.
  - simpl. lia.
  - cbn [fold_left map sumZ fold_right]. rewrite IH, clauseStep_adds.
    unfold sumZ. lia.
Qed.

Lemma accumulate_closed_form (firstClause : tx.Clause)
    (rest : list tx.Clause) :
  tx.accumulate ClauseGas ClauseGasContractCreation firstClause rest
  = txBase firstClause + dataGas (tx.Data firstClause)
    + sumZ (map (fun c => clauseBase ClauseGas ClauseGasContractCreation c
                          + dataGas (tx.Data c)) rest).
Proof.
  unfold tx.accumulate. rewrite fold_clauseStep_sum, core_IntrinsicGas_split.
  reflexivity.
Qed.

(** X3: the intrinsic gas of a transaction with clauses is the base cost
    of a transaction for the kind of its first clause, plus the base cost
    of a clause for the kind of every later clause, plus the per-byte
    cost of the data of all clauses; [IntrinsicGas] returns this sum when
    it is below [2 ^ 64] and the error otherwise. *)
Theorem IntrinsicGas_closed_form (t : tx.Transaction)
    (firstClause : tx.Clause) (rest : list tx.Clause) :
  tx.Clauses (tx.tbody t) = firstClause :: rest ->
  let sum :=
    txBase firstClause
    + sumZ (map (clauseBase ClauseGas ClauseGasContractCreation) rest)
    + sumZ (map (fun c => dataGas (tx.Data c)) (firstClause :: rest)) in
  tx.IntrinsicGas ClauseGas ClauseGasContractCreation t
  = if sum <? 2 ^ 64 then Ok sum else Err ErrGasTooLarge.
Proof.
  intros Hcs sum.
  assert (forall l : list tx.Clause,
            sumZ (map (fun c => clauseBase ClauseGas
                                  ClauseGasContractCreation c
                                + dataGas (tx.Data c)) l)
            = sumZ (map (clauseBase ClauseGas ClauseGasContractCreation) l)
              + sumZ (map (fun c => dataGas (tx.Data c)) l)) as Hsplit.
  { induction l as [| c l IH]; [reflexivity |].
    unfold sumZ in *. cbn [map fold_right] in *. lia. }
  assert (tx.accumulate ClauseGas ClauseGasContractCreation firstClause rest
          = sum) as Hsum.
  { rewrite accumulate_closed_form, Hsplit. subst sum.
    unfold sumZ. cbn [map fold_right]. lia. }
  destruct (Z.ltb_spec sum (2 ^ 64)) as [Hlt | Hge].
  - rewrite <- Hsum. apply IntrinsicGas_of_total; try assumption.
    rewrite Hsum. exact Hlt.
  - unfold tx.IntrinsicGas. rewrite Hcs. cbv zeta. rewrite Hsum.
    assert (0 <= sum) as Hnn.
    { rewrite <- Hsum. apply accumulate_nonneg; assumption. }
    destruct (Z.ltb_spec 64 (big.BitLen sum)) as [| Hsmall]; [reflexivity |].
    assert (64 < big.BitLen sum); [| lia].
    apply BitLen_gt_iff; lia.
Qed.

Lemma IntrinsicGas_Ok_accumulate (t : tx.Transaction) (c : tx.Clause)
    (cs : list tx.Clause) (v : Z) :
  tx.Clauses (tx.tbody t) = c :: cs ->
  tx.IntrinsicGas ClauseGas ClauseGasContractCreation t = Ok v ->
  v = tx.accumulate ClauseGas ClauseGasContractCreation c cs /\ v < 2 ^ 64.
Proof.
  intros Hcs Hv. unfold tx.IntrinsicGas in Hv. rewrite Hcs in Hv.
  cbv zeta in Hv.
  pose proof (accumulate_nonneg _ _ ClauseGas_le ClauseGasContractCreation_le
                c cs) as Hnn.
  destruct (Z.ltb_spec 64 (big.BitLen
              (tx.accumulate ClauseGas ClauseGasContractCreation c cs)))
    as [| Hsmall]; [discriminate |].
  injection Hv as <-.
  assert (tx.accumulate ClauseGas ClauseGasContractCreation c cs < 2 ^ 64)
    as Hlt.
  { destruct (Z.lt_ge_cases
                (tx.accumulate ClauseGas ClauseGasContractCreation c cs)
                (2 ^ 64)) as [| Hge]; [assumption |].
    apply (BitLen_gt_iff _ 64) in Hge; lia. }
  rewrite Uint64_exact by lia. split; [reflexivity | exact Hlt].
Qed.

Lemma accumulate_app (c : tx.Clause) (cs extra : list tx.Clause) :
  params.TxGas <= tx.accumulate ClauseGas ClauseGasContractCreation c cs
  /\ tx.accumulate ClauseGas ClauseGasContractCreation c cs
     <= tx.accumulate ClauseGas ClauseGasContractCreation c (cs ++ extra).
Proof.
  unfold tx.accumulate. rewrite fold_left_app. split.
  - pose proof (core_IntrinsicGas_base (tx.Data c) (tx.contractCreation c))
      as Hb.
    pose proof (fold_clauseStep_ge _ _ ClauseGas_le
                  ClauseGasContractCreation_le cs
                  (core.IntrinsicGas (tx.Data c) (tx.contractCreation c) true)).
    unfold params.TxGasContractCreation, params.TxGas in *.
    destruct (tx.contractCreation c); lia.
  - apply (fold_clauseStep_ge _ _ ClauseGas_le ClauseGasContractCreation_le).
Qed.

(** X4: adding clauses at the end of a transaction never lowers its
    intrinsic gas, which is never below the base cost of a transaction;
    and once the gas is too large it stays too large. *)
Theorem IntrinsicGas_grows_with_clauses (t1 t2 : tx.Transaction)
    (extra : list tx.Clause) :
  tx.Clauses (tx.tbody t2) = tx.Clauses (tx.tbody t1) ++ extra ->
  (forall v1 v2,
     tx.IntrinsicGas ClauseGas ClauseGasContractCreation t1 = Ok v1 ->
     tx.IntrinsicGas ClauseGas ClauseGasContractCreation t2 = Ok v2 ->
     params.TxGas <= v1 <= v2)
  /\ (forall e,
        tx.IntrinsicGas ClauseGas ClauseGasContractCreation t1 = Err e ->
        tx.IntrinsicGas ClauseGas ClauseGasContractCreation t2
        = Err ErrGasTooLarge).
Proof.
  intros Happ.
  destruct (tx.Clauses (tx.tbody t1)) as [| c cs] eqn:Hcs1.
  - split.
    + intros v1 v2 H1 H2. unfold tx.IntrinsicGas in H1. rewrite Hcs1 in H1.
      injection H1 as <-.
      cbn [app] in Happ.
      destruct extra as [| c' extra'].
      * unfold tx.IntrinsicGas in H2. rewrite Happ in H2.
        injection H2 as <-. lia.
      * destruct (IntrinsicGas_Ok_accumulate t2 c' extra' v2 Happ H2)
          as [-> _].
        pose proof (accumulate_app c' [] extra') as [Hlo Hhi].
        cbn [app] in Hhi. lia.
    + intros e He. unfold tx.IntrinsicGas in He. rewrite Hcs1 in He.
      discriminate.
  - cbn [app] in Happ. pose proof (accumulate_app c cs extra) as [Hlo Hhi].
    split.
    + intros v1 v2 H1 H2.
      destruct (IntrinsicGas_Ok_accumulate t1 c cs v1 Hcs1 H1) as [-> _].
      destruct (IntrinsicGas_Ok_accumulate t2 c (cs ++ extra) v2 Happ H2)
        as [-> _].
      lia.
    + intros e He.
      destruct (tx.IntrinsicGas ClauseGas ClauseGasContractCreation t2)
        as [v2 | e2] eqn:H2.
      * destruct (IntrinsicGas_Ok_accumulate t2 c (cs ++ extra) v2 Happ H2)
          as [-> Hlt].
        rewrite (IntrinsicGas_of_total _ _ ClauseGas_le
                   ClauseGasContractCreation_le t1 c cs Hcs1) in He
          by lia.
        discriminate.
      * unfold tx.IntrinsicGas in H2. rewrite Happ in H2. cbv zeta in H2.
        destruct (64 <? _) in H2; [congruence | discriminate].
Qed.

(** X5: [IntrinsicGas] does not fail when 53000 for every clause and 68
    for every byte of data stay below [2 ^ 64]; what it returns is
    between the base cost of a transaction and that bound. *)
Theorem IntrinsicGas_succeeds_when_small (t : tx.Transaction) :
  let bound :=
    53000 * Z.of_nat (length (tx.Clauses (tx.tbody t)))
    + 68 * sumZ (map (fun c => Z.of_nat (length (tx.Data c)))
                     (tx.Clauses (tx.tbody t))) in
  bound < 2 ^ 64 ->
  exists v,
    tx.IntrinsicGas ClauseGas ClauseGasContractCreation t = Ok v
    /\ params.TxGas <= v <= Z.max params.TxGas bound.
Proof.
  intros bound Hbound.
  destruct (tx.Clauses (tx.tbody t)) as [| c cs] eqn:Hcs.
  - exists params.TxGas. unfold tx.IntrinsicGas. rewrite Hcs.
    split; [reflexivity | lia].
  - assert (forall l : list tx.Clause,
              sumZ (map (fun c => clauseBase ClauseGas
                                    ClauseGasContractCreation c
                                  + dataGas (tx.Data c)) l)
              <= 53000 * Z.of_nat (length l)
                 + 68 * sumZ (map (fun c => Z.of_nat (length (tx.Data c))) l))
      as Hsum.
    { induction l as [| x l IH]; [simpl; lia |].
      unfold sumZ in *. cbn [map fold_right length] in *.
      pose proof (dataGas_bounds (tx.Data x)).
      assert (clauseBase ClauseGas ClauseGasContractCreation x <= 53000).
      { unfold clauseBase, params.TxGas, params.TxGasContractCreation in *.
        destruct (tx.contractCreation x); lia. }
      lia. }
    pose proof (accumulate_closed_form c cs) as Hacc.
    pose proof (accumulate_app c cs []) as [Hlo _].
    pose proof (dataGas_bounds (tx.Data c)) as Hd.
    specialize (Hsum cs).
    assert (txBase c <= 53000) as Hbase.
    { unfold txBase, params.TxGas, params.TxGasContractCreation.
      destruct (tx.contractCreation c); lia. }
    assert (tx.accumulate ClauseGas ClauseGasContractCreation c cs <= bound)
      as Hle.
    { subst bound. unfold sumZ in *. cbn [map fold_right length] in *. lia. }
    exists (tx.accumulate ClauseGas ClauseGasContractCreation c cs).
    split.
    + apply IntrinsicGas_of_total; try assumption. lia.
    + lia.
Qed.

End GasClosedForm.

(** ** More on decoding transactions *)

Section TransactionDecoding.

Variable encodeClause : tx.Clause -> result (list byte).
Variable decodeClause : rlp.Stream -> result (tx.Clause * rlp.Stream).

Lemma body_set_six (b : tx.body) :
  tx.set_DependsOn
    (tx.set_TimeBarrier
       (tx.set_Nonce
          (tx.set_Gas
             (tx.set_GasPrice (tx.set_Clauses tx.zero_body (tx.Clauses b))
                (tx.GasPrice b))
             (tx.Gas b))
          (tx.Nonce b))
       (tx.TimeBarrier b))
    (tx.DependsOn b)
  = tx.set_Signature b [].
Proof. destruct b. reflexivity. Qed.

(** Decoding a list that holds the first five fields of a body as
    [EncodeRLP] writes them, then some bytes [dep] that decode to its
    dependency, then any bytes [tail]: the first six fields are read, and
    the outcome is decided by [tail]. *)
Lemma decodeBody_six_fields (t : tx.Transaction) (cs gp dep tail rest
    : list byte) :
  codecReady encodeClause decodeClause t ->
  tx.encodeClauses encodeClause (tx.Clauses (tx.tbody t)) = Ok cs ->
  rlp.writeBigInt (tx.GasPrice (tx.tbody t)) = Ok gp ->
  (forall r,
     rlp.decodeOptionalPtr (rlp.decodeByteArray thor.HashLength) (dep ++ r)
     = Ok (tx.DependsOn (tx.tbody t), r)) ->
  let payload :=
    cs ++ gp ++ rlp.writeUint (tx.Gas (tx.tbody t))
       ++ rlp.writeUint (tx.Nonce (tx.tbody t))
       ++ rlp.writeUint (tx.TimeBarrier (tx.tbody t)) ++ dep ++ tail in
  Z.of_nat (length payload) < 2 ^ 64 ->
  tx.decodeBody decodeClause (rlp.writeList payload ++ rest)
  = match rlp.decodeByteSlice tail with
    | Err e => (tx.set_Signature (tx.tbody t) [], Err (tx.fieldError e))
    | Ok (v, p) =>
        match rlp.ListEnd p with
        | Err e => (tx.set_Signature (tx.tbody t) v, Err e)
        | Ok _ => (tx.set_Signature (tx.tbody t) v, Ok rest)
        end
    end.
Proof.
  intros ((HGas & HNonce & HTime & HDep) & Hend & Hclauses) Hcs Hgp Hdep
    payload Hlen.
  set (b := tx.tbody t) in *.
  unfold tx.encodeClauses in Hcs.
  destruct (mapM encodeClause (tx.Clauses b)) as [items |] eqn:Hitems;
    [| discriminate].
  cbn [bind] in Hcs. injection Hcs as <-.
  subst payload. repeat rewrite length_app in Hlen.
  pose proof (length_writeList_ge (concat items)) as Hge.
  assert (Forall2 (decodes decodeClause) (tx.Clauses b) items) as Hall.
  { apply mapM_Ok_Forall2 in Hitems.
    rewrite <- (map_id (tx.Clauses b)).
    apply (Forall2_decodes (fun c enc => encodeClause c = Ok enc));
      [exact Hitems |].
    intros c enc Hin _ Hc. apply Hclauses; assumption. }
  unfold tx.decodeBody.
  rewrite StreamList_writeList by (repeat rewrite length_app; lia).
  cbv beta iota.
  rewrite (decodeListSlice_writeList decodeClause (tx.Clauses b) items _
             Hend Hall) by lia.
  cbv beta iota.
  rewrite (decodeBigInt_writeBigInt (tx.GasPrice b) gp) by (assumption || lia).
  cbv beta iota.
  rewrite decodeUint_writeUint by assumption.
  cbv beta iota.
  rewrite decodeUint_writeUint by assumption.
  cbv beta iota.
  rewrite decodeUint_writeUint by assumption.
  cbv beta iota.
  rewrite Hdep. cbv beta iota.
  rewrite body_set_six.
  destruct (rlp.decodeByteSlice tail) as [[v p] | e]; [| reflexivity].
  destruct b; reflexivity.
Qed.

Lemma encodeSigningFields_parts (b : tx.body) (fields : list byte) :
  tx.encodeSigningFields encodeClause b = Ok fields ->
  exists cs gp,
    tx.encodeClauses encodeClause (tx.Clauses b) = Ok cs
    /\ rlp.writeBigInt (tx.GasPrice b) = Ok gp
    /\ fields = cs ++ gp ++ rlp.writeUint (tx.Gas b)
                   ++ rlp.writeUint (tx.Nonce b)
                   ++ rlp.writeUint (tx.TimeBarrier b)
                   ++ tx.encodeDependsOn (tx.DependsOn b).
Proof.
  unfold tx.encodeSigningFields. intros H.
  destruct (tx.encodeClauses encodeClause (tx.Clauses b)) as [cs |];
    [| discriminate].
  cbn [bind] in H.
  destruct (rlp.writeBigInt (tx.GasPrice b)) as [gp |]; [| discriminate].
  cbn [bind] in H. injection H as <-.
  exists cs, gp. repeat split; reflexivity.
Qed.

Lemma decode_encodeDependsOn (b : tx.body) (r : list byte) :
  wellTyped b ->
  rlp.decodeOptionalPtr (rlp.decodeByteArray thor.HashLength)
    (tx.encodeDependsOn (tx.DependsOn b) ++ r)
  = Ok (tx.DependsOn b, r).
Proof.
  intros (_ & _ & _ & HDep). unfold tx.encodeDependsOn.
  apply decodeOptionalPtr_array; [unfold thor.HashLength; lia | exact HDep].
Qed.

(** X6: the list of the six signed fields alone is never taken for a
    transaction: [DecodeRLP] fails on it with too few elements and leaves
    the receiver as it was. *)
Theorem DecodeRLP_rejects_signing_fields (t t0 : tx.Transaction)
    (fields rest : list byte) :
  codecReady encodeClause decodeClause t ->
  tx.encodeSigningFields encodeClause (tx.tbody t) = Ok fields ->
  Z.of_nat (length fields) < 2 ^ 64 ->
  tx.DecodeRLP decodeClause t0 (rlp.writeList fields ++ rest)
  = (t0, Err ErrTooFewElements).
Proof.
  intros Hready Hfields Hlen.
  destruct (encodeSigningFields_parts _ _ Hfields) as (cs & gp & Hcs & Hgp & ->).
  pose proof (decodeBody_six_fields t cs gp
                (tx.encodeDependsOn (tx.DependsOn (tx.tbody t))) [] rest
                Hready Hcs Hgp
                (fun r => decode_encodeDependsOn _ r (proj1 Hready))) as H.
  cbv zeta in H. rewrite !app_nil_r in H.
  unfold tx.DecodeRLP. rewrite H by exact Hlen. reflexivity.
Qed.

(** X7: a transaction encoding with anything added after the signature,
    inside the list, is refused: [DecodeRLP] fails because the list is
    not at its end, and leaves the receiver as it was. *)
Theorem DecodeRLP_rejects_extra_field (t t0 : tx.Transaction)
    (fields extra rest : list byte) :
  codecReady encodeClause decodeClause t ->
  tx.encodeSigningFields encodeClause (tx.tbody t) = Ok fields ->
  extra <> [] ->
  let payload :=
    fields ++ rlp.encodeString (tx.Signature (tx.tbody t)) ++ extra in
  Z.of_nat (length payload) < 2 ^ 64 ->
  tx.DecodeRLP decodeClause t0 (rlp.writeList payload ++ rest)
  = (t0, Err ErrNotAtEOL).
Proof.
  intros Hready Hfields Hextra payload Hlen. subst payload.
  destruct (encodeSigningFields_parts _ _ Hfields) as (cs & gp & Hcs & Hgp & ->).
  pose proof (decodeBody_six_fields t cs gp
                (tx.encodeDependsOn (tx.DependsOn (tx.tbody t)))
                (rlp.encodeString (tx.Signature (tx.tbody t)) ++ extra) rest
                Hready Hcs Hgp
                (fun r => decode_encodeDependsOn _ r (proj1 Hready))) as H.
  cbv zeta in H. repeat rewrite <- app_assoc in Hlen.
  specialize (H Hlen).
  unfold rlp.decodeByteSlice in H.
  rewrite Bytes_encodeString in H.
  - unfold tx.DecodeRLP. repeat rewrite <- app_assoc. rewrite H.
    destruct extra; [congruence | reflexivity].
  - repeat rewrite length_app in Hlen.
    pose proof (length_encodeString_ge (tx.Signature (tx.tbody t))). lia.
Qed.

(** X8: the encoding of the six signed fields determines them: two
    transactions whose signed fields encode to the same bytes have the
    same clauses, gas price, gas, nonce, time barrier and dependency. *)
Theorem signing_fields_encoding_injective (t1 t2 : tx.Transaction)
    (fields : list byte) :
  codecReady encodeClause decodeClause t1 ->
  codecReady encodeClause decodeClause t2 ->
  tx.encodeSigningFields encodeClause (tx.tbody t1) = Ok fields ->
  tx.encodeSigningFields encodeClause (tx.tbody t2) = Ok fields ->
  Z.of_nat (length fields) < 2 ^ 64 ->
  tx.Clauses (tx.tbody t1) = tx.Clauses (tx.tbody t2)
  /\ tx.GasPrice (tx.tbody t1) = tx.GasPrice (tx.tbody t2)
  /\ tx.Gas (tx.tbody t1) = tx.Gas (tx.tbody t2)
  /\ tx.Nonce (tx.tbody t1) = tx.Nonce (tx.tbody t2)
  /\ tx.TimeBarrier (tx.tbody t1) = tx.TimeBarrier (tx.tbody t2)
  /\ tx.DependsOn (tx.tbody t1) = tx.DependsOn (tx.tbody t2).
Proof.
  intros Hr1 Hr2 Hf1 Hf2 Hlen.
  assert (forall t, codecReady encodeClause decodeClause t ->
            tx.encodeSigningFields encodeClause (tx.tbody t) = Ok fields ->
            tx.decodeBody decodeClause (rlp.writeList fields)
            = (tx.set_Signature (tx.tbody t) [], Err ErrTooFewElements))
    as Hdec.
  { intros t Hready Hfields.
    destruct (encodeSigningFields_parts _ _ Hfields)
      as (cs & gp & Hcs & Hgp & Heq).
    pose proof (decodeBody_six_fields t cs gp
                  (tx.encodeDependsOn (tx.DependsOn (tx.tbody t))) [] []
                  Hready Hcs Hgp
                  (fun r => decode_encodeDependsOn _ r (proj1 Hready))) as H.
    cbv zeta in H. rewrite !app_nil_r in H. rewrite <- Heq in H.
    apply H. exact Hlen. }
  pose proof (Hdec t1 Hr1 Hf1) as H1. pose proof (Hdec t2 Hr2 Hf2) as H2.
  rewrite H1 in H2. injection H2 as Hc Hg Hga Hn Htb Hd.
  repeat split; assumption.
Qed.

End TransactionDecoding.

Section TransactionIdentity.

Variable encodeClause : tx.Clause -> result (list byte).
Variable decodeClause : rlp.Stream -> result (tx.Clause * rlp.Stream).
Variable hasher : list byte -> thor.Hash.

Lemma codecReady_DecodeRLP (t t0 : tx.Transaction) (bs rest : list byte) :
  codecReady encodeClause decodeClause t ->
  tx.EncodeRLP encodeClause t = Ok bs ->
  Z.of_nat (length bs) < 2 ^ 64 ->
  tx.DecodeRLP decodeClause t0 (bs ++ rest) = (uncached t, Ok rest).
Proof.
  intros (Hwt & Hend & Hcl) Henc Hlen.
  apply (tx_DecodeRLP_EncodeRLP encodeClause); assumption.
Qed.

(** X9: the encoding identifies the transaction: two transactions with
    the same encoding have the same body. *)
Theorem EncodeRLP_injective (t1 t2 : tx.Transaction) (bs : list byte) :
  codecReady encodeClause decodeClause t1 ->
  codecReady encodeClause decodeClause t2 ->
  tx.EncodeRLP encodeClause t1 = Ok bs ->
  tx.EncodeRLP encodeClause t2 = Ok bs ->
  Z.of_nat (length bs) < 2 ^ 64 ->
  tx.tbody t1 = tx.tbody t2.
Proof.
  intros Hr1 Hr2 He1 He2 Hlen.
  pose proof (codecReady_DecodeRLP t1 t1 bs [] Hr1 He1 Hlen) as H1.
  pose proof (codecReady_DecodeRLP t2 t1 bs [] Hr2 He2 Hlen) as H2.
  rewrite H1 in H2. injection H2 as H2. exact H2.
Qed.

Lemma decodeOptionalPtr_empty_list {A : Type}
    (elemdec : rlp.Stream -> result (A * rlp.Stream)) (r : list byte) :
  rlp.decodeOptionalPtr elemdec ([xc0] ++ r) = Ok (None, r).
Proof.
  unfold rlp.decodeOptionalPtr. cbn [app].
  rewrite (StreamKind_of_readKind _ r rlp.List 0 x00);
    [reflexivity | reflexivity | lia].
Qed.

(** X10: the decoder also takes the empty list for an absent
    dependency, which [EncodeRLP] writes as the empty string: for a
    transaction without dependency there is a second byte sequence,
    different from its encoding, that [DecodeRLP] decodes to the same
    transaction. *)
Theorem DecodeRLP_takes_empty_list_for_nil (t t0 : tx.Transaction)
    (cs gp rest : list byte) :
  codecReady encodeClause decodeClause t ->
  tx.encodeClauses encodeClause (tx.Clauses (tx.tbody t)) = Ok cs ->
  rlp.writeBigInt (tx.GasPrice (tx.tbody t)) = Ok gp ->
  tx.DependsOn (tx.tbody t) = None ->
  let fields (marker : byte) :=
    cs ++ gp ++ rlp.writeUint (tx.Gas (tx.tbody t))
       ++ rlp.writeUint (tx.Nonce (tx.tbody t))
       ++ rlp.writeUint (tx.TimeBarrier (tx.tbody t))
       ++ [marker] ++ rlp.encodeString (tx.Signature (tx.tbody t)) in
  Z.of_nat (length (fields xc0)) < 2 ^ 64 ->
  tx.EncodeRLP encodeClause t = Ok (rlp.writeList (fields x80))
  /\ rlp.writeList (fields xc0) <> rlp.writeList (fields x80)
  /\ tx.DecodeRLP decodeClause t0 (rlp.writeList (fields xc0) ++ rest)
     = (uncached t, Ok rest).
Proof.
  intros Hready Hcs Hgp Hnil fields Hlen. subst fields. cbv beta in *.
  split; [| split].
  - unfold tx.EncodeRLP, tx.encodeBody. rewrite Hcs, Hgp, Hnil. reflexivity.
  - unfold rlp.writeList. repeat rewrite length_app. cbn [length].
    intros Heq. apply app_inv_head in Heq.
    repeat apply app_inv_head in Heq. discriminate.
  - pose proof (decodeBody_six_fields encodeClause decodeClause t cs gp [xc0]
                  (rlp.encodeString (tx.Signature (tx.tbody t))) rest
                  Hready Hcs Hgp) as H.
    rewrite Hnil in H.
    specialize (H (decodeOptionalPtr_empty_list _)). cbv zeta in H.
    specialize (H Hlen).
    unfold rlp.decodeByteSlice in H.
    rewrite <- (app_nil_r (rlp.encodeString (tx.Signature (tx.tbody t))))
      in H at 2.
    rewrite Bytes_encodeString in H.
    + unfold tx.DecodeRLP. rewrite H. cbn [rlp.ListEnd].
      unfold uncached. destruct (tx.tbody t). reflexivity.
    + repeat rewrite length_app in Hlen.
      pose proof (length_encodeString_ge (tx.Signature (tx.tbody t))). lia.
Qed.

Lemma EncodeRLP_uncached (t : tx.Transaction) :
  tx.EncodeRLP encodeClause (uncached t) = tx.EncodeRLP encodeClause t.
Proof. reflexivity. Qed.

Lemma Hash_of_consistent (t : tx.Transaction) :
  hash_consistent encodeClause hasher t ->
  fst (tx.Hash encodeClause hasher t)
  = hasher (tx.written (tx.EncodeRLP encodeClause t)).
Proof.
  intros Hc. unfold tx.Hash.
  destruct (tx.cache_hash t) as [cached |] eqn:Hcache.
  - cbn [fst]. apply Hc. exact Hcache.
  - reflexivity.
Qed.

(** X11: the hash survives the round trip: for a transaction whose
    cache holds nothing but what [Hash] stored, [Hash] is the hash of its
    encoding, and [Hash] of what [DecodeRLP] makes of that encoding,
    whatever hash the receiver had cached before, is the same. *)
Theorem Hash_after_round_trip (t t0 : tx.Transaction) (bs rest : list byte) :
  codecReady encodeClause decodeClause t ->
  hash_consistent encodeClause hasher t ->
  tx.EncodeRLP encodeClause t = Ok bs ->
  Z.of_nat (length bs) < 2 ^ 64 ->
  fst (tx.Hash encodeClause hasher t) = hasher bs
  /\ fst (tx.Hash encodeClause hasher
            (fst (tx.DecodeRLP decodeClause t0 (bs ++ rest))))
     = hasher bs.
Proof.
  intros Hready Hcons Henc Hlen. split.
  - rewrite Hash_of_consistent by exact Hcons. rewrite Henc. reflexivity.
  - rewrite (codecReady_DecodeRLP t t0 bs rest Hready Henc Hlen).
    cbn [fst]. rewrite Hash_of_consistent by (intros c Hc; discriminate).
    rewrite EncodeRLP_uncached, Henc. reflexivity.
Qed.

Lemma encodeBody_fails_with_fields (b : tx.body) (e : error) :
  tx.encodeBody encodeClause b = Err e ->
  tx.encodeSigningFields encodeClause b = Err e.
Proof.
  unfold tx.encodeBody, tx.encodeSigningFields.
  destruct (tx.encodeClauses encodeClause (tx.Clauses b)) as [cs | e1];
    [| intros H; exact H].
  cbn [bind].
  destruct (rlp.writeBigInt (tx.GasPrice b)) as [gp | e2];
    [discriminate | intros H; exact H].
Qed.

(** X12: [Hash] and [SigningHash] do not look at the error of the
    encoder: a transaction that does not encode, as one with a negative
    gas price does not, has the hash of no bytes at all as its hash (when
    none is cached) and as its signing hash. *)
Theorem Hash_ignores_encoding_error (t : tx.Transaction) :
  (tx.GasPrice (tx.tbody t) < 0 ->
   forall cs, tx.encodeClauses encodeClause (tx.Clauses (tx.tbody t)) = Ok cs ->
   tx.EncodeRLP encodeClause t = Err ErrNegativeBigInt)
  /\ (forall e,
        tx.EncodeRLP encodeClause t = Err e ->
        tx.SigningHash encodeClause hasher t = hasher []
        /\ (tx.cache_hash t = None ->
            fst (tx.Hash encodeClause hasher t) = hasher [])).
Proof.
  split.
  - intros Hneg cs Hcs. unfold tx.EncodeRLP, tx.encodeBody.
    rewrite Hcs. cbn [bind]. unfold rlp.writeBigInt.
    destruct (Z.ltb_spec (tx.GasPrice (tx.tbody t)) 0); [reflexivity | lia].
  - intros e He. split.
    + unfold tx.SigningHash.
      rewrite (encodeBody_fails_with_fields _ e He). reflexivity.
    + intros Hc. unfold tx.Hash. rewrite Hc, He. reflexivity.
Qed.

End TransactionIdentity.

(** ** More on blocks *)

Section BlockIdentity.

Variable Header : Type.
Variable zero_Header : Header.
Variable encodeHeader : Header -> result (list byte).
Variable decodeHeader : rlp.Stream -> result (Header * rlp.Stream).
Variable encodeClause : tx.Clause -> result (list byte).
Variable decodeClause : rlp.Stream -> result (tx.Clause * rlp.Stream).

Lemma blockReady_DecodeRLP (b b0 : block.Block Header)
    (bs rest : list byte) :
  blockReady encodeHeader decodeHeader encodeClause decodeClause b ->
  block.EncodeRLP Header encodeHeader encodeClause b = Ok bs ->
  Z.of_nat (length bs) < 2 ^ 64 ->
  block.DecodeRLP Header zero_Header decodeHeader decodeClause b0
    (bs ++ rest)
  = ({| block.header := block.header Header b;
        block.txs := map uncached (block.txs Header b);
        block.cache_size := None |},
     Ok rest).
Proof.
  intros (Hend & Hh & Htxs) Henc Hlen.
  apply (block_DecodeRLP_EncodeRLP Header zero_Header encodeHeader
           decodeHeader encodeClause); assumption.
Qed.

Lemma map_uncached_equal (l1 l2 : list tx.Transaction) :
  map uncached l1 = map uncached l2 -> Forall2 tx_equal l1 l2.
Proof.
  revert l2. induction l1 as [| t1 l1 IH]; intros [| t2 l2] H;
    try discriminate; [constructor |].
  cbn [map] in H. injection H as Hb Hl.
  constructor; [exact Hb | apply IH; exact Hl].
Qed.

(** X13: the encoding identifies the block: two blocks with the same
    encoding have the same header and, one by one, transactions with the
    same body. *)
Theorem block_EncodeRLP_injective (b1 b2 : block.Block Header)
    (bs : list byte) :
  blockReady encodeHeader decodeHeader encodeClause decodeClause b1 ->
  blockReady encodeHeader decodeHeader encodeClause decodeClause b2 ->
  block.EncodeRLP Header encodeHeader encodeClause b1 = Ok bs ->
  block.EncodeRLP Header encodeHeader encodeClause b2 = Ok bs ->
  Z.of_nat (length bs) < 2 ^ 64 ->
  block_equal b1 b2.
Proof.
  intros Hr1 Hr2 He1 He2 Hlen.
  pose proof (blockReady_DecodeRLP b1 b1 bs [] Hr1 He1 Hlen) as H1.
  pose proof (blockReady_DecodeRLP b2 b1 bs [] Hr2 He2 Hlen) as H2.
  rewrite H1 in H2. injection H2 as Hh Ht.
  split; [exact Hh | apply map_uncached_equal; exact Ht].
Qed.

Lemma mapM_EncodeRLP_uncached (l : list tx.Transaction) :
  mapM (tx.EncodeRLP encodeClause) (map uncached l)
  = mapM (tx.EncodeRLP encodeClause) l.
Proof.
  induction l as [| t l IH]; [reflexivity |].
  cbn [map mapM]. rewrite IH. reflexivity.
Qed.

(** X14: the size survives the round trip: [Size] of the block that
    [DecodeRLP] makes of an encoding is the number of bytes of that
    encoding, whatever size the receiver had cached, and it is [Size] of
    the block that was encoded when the cache of that one holds nothing
    but what [Size] stored. *)
Theorem Size_after_round_trip (b b0 : block.Block Header)
    (bs rest : list byte) :
  blockReady encodeHeader decodeHeader encodeClause decodeClause b ->
  block.EncodeRLP Header encodeHeader encodeClause b = Ok bs ->
  Z.of_nat (length bs) < 2 ^ 64 ->
  fst (block.Size Header encodeHeader encodeClause
         (fst (block.DecodeRLP Header zero_Header decodeHeader decodeClause
                 b0 (bs ++ rest))))
  = Z.of_nat (length bs)
  /\ (cache_consistent encodeHeader encodeClause b ->
      fst (block.Size Header encodeHeader encodeClause b)
      = Z.of_nat (length bs)).
Proof.
  intros Hready Henc Hlen. split.
  - rewrite (blockReady_DecodeRLP b b0 bs rest Hready Henc Hlen).
    cbn [fst]. unfold block.Size. cbn [block.cache_size fst].
    unfold block.counterWriter_Write, block.EncodeRLP,
      block.encodeTransactions in *.
    cbn [block.header block.txs].
    rewrite mapM_EncodeRLP_uncached, Henc. reflexivity.
  - intros Hc. unfold block.Size.
    destruct (block.cache_size Header b) as [cached |] eqn:Hcache.
    + cbn [fst]. rewrite (Hc cached Hcache), Henc. reflexivity.
    + cbn [fst]. rewrite Henc. reflexivity.
Qed.

Lemma counter_writeAll (chunks : list (list byte)) (count : Z) :
  counter.writeAll count chunks = count + Z.of_nat (length (concat chunks)).
Proof.
  unfold counter.writeAll. revert count.
  induction chunks as [| p chunks IH]; intros count.
  - simpl. lia.
  - cbn [fold_left concat]. rewrite IH, length_app.
    unfold counter.Write, block.counterWriter_Write. cbn [snd]. lia.
Qed.

(** X15: the counting writer adds up: after any sequence of writes the
    count has grown by the total number of bytes written, so the size
    that [Size] computes does not depend on the pieces in which the
    encoder hands over the encoding. *)
Theorem Size_whatever_the_chunks (b : block.Block Header)
    (chunks : list (list byte)) :
  block.cache_size Header b = None ->
  concat chunks
  = tx.written (block.EncodeRLP Header encodeHeader encodeClause b) ->
  fst (block.Size Header encodeHeader encodeClause b)
  = counter.writeAll 0 chunks
  /\ forall count,
       counter.writeAll count chunks
       = count + Z.of_nat (length (concat chunks)).
Proof.
  intros Hcache Hchunks. split.
  - rewrite counter_writeAll, Hchunks. unfold block.Size. rewrite Hcache.
    reflexivity.
  - intros count. apply counter_writeAll.
Qed.

End BlockIdentity.

(** ** More on the memory *)

Lemma ptrsOf_in_use (h : mem.heap) (l : mem.loc) (off len : nat)
    (ps : list mem.loc) :
  mem.ptrsOf h (mem.Slice l off len) = Some ps -> is_Some (h !! l).
Proof.
  unfold mem.ptrsOf. destruct (h !! l) as [c |]; [eauto | discriminate].
Qed.

Lemma ptrsOf_mutate_other (h : mem.heap) (s : mem.slice) (l : mem.loc)
    (c : mem.cell) :
  mem.arrayOf s <> Some l ->
  mem.ptrsOf (mem.mutate h l c) s = mem.ptrsOf h s.
Proof.
  intros Hne. destruct s as [| a off len]; [reflexivity |].
  unfold mem.ptrsOf, mem.mutate. rewrite lookup_insert_ne; [reflexivity |].
  intros ->. apply Hne. reflexivity.
Qed.

(** X16: [Compose] keeps a copy of the slice it is given: the new block
    shows the transactions that the slice showed, nothing that existed
    is changed, and whatever the caller writes into the array of its
    slice afterwards, the block shows the same transactions. *)
Theorem Compose_copies_the_slice (h : mem.heap) (header : mem.loc)
    (txs : mem.slice) (ps : list mem.loc) :
  mem.ptrsOf h txs = Some ps ->
  exists b h',
    memblock.Compose h header txs = Some (b, h')
    /\ h !! b = None
    /\ h ⊆ h'
    /\ mem.loadTxs h' b = Some ps
    /\ forall l c, mem.arrayOf txs = Some l ->
         mem.loadTxs (mem.mutate h' l c) b = Some ps.
Proof.
  intros Hps.
  destruct (appendNilPtrs_spec h txs ps Hps)
    as (copy & h1 & Happ & Hcopy & Hsub1 & Hfresh).
  set (o := {| mem.header := header; mem.txs := copy;
               mem.cache_size := None |}).
  destruct (mem.alloc h1 (mem.BlockObj o)) as [b h'] eqn:Ha.
  destruct (alloc_spec _ _ _ _ Ha) as (Hfree & Hh' & Hsub2).
  assert (h !! b = None) as Hb.
  { destruct (h !! b) as [c |] eqn:Hc; [| reflexivity].
    rewrite (lookup_weaken h h1 b c Hc Hsub1) in Hfree. discriminate. }
  assert (mem.getBlock h' b = Some o) as Hget.
  { unfold mem.getBlock. rewrite Hh', lookup_insert_eq. reflexivity. }
  exists b, h'.
  split.
  { unfold memblock.Compose. rewrite Happ. fold o. rewrite Ha. reflexivity. }
  split; [exact Hb |].
  split; [etrans; eassumption |].
  split.
  { unfold mem.loadTxs. rewrite Hget. cbn [mem.txs o].
    eapply ptrsOf_weaken; eassumption. }
  intros l c Harr.
  destruct txs as [| l0 off len]; [discriminate |].
  injection Harr as ->.
  destruct (ptrsOf_in_use h l off len ps Hps) as [c0 Hc0].
  assert (l <> b) as Hlb by (intros ->; congruence).
  unfold mem.loadTxs.
  assert (mem.getBlock (mem.mutate h' l c) b = Some o) as Hget2.
  { unfold mem.getBlock, mem.mutate. rewrite lookup_insert_ne by exact Hlb.
    exact Hget. }
  rewrite Hget2. cbn [mem.txs o].
  rewrite ptrsOf_mutate_other.
  - eapply ptrsOf_weaken; eassumption.
  - intros Hcopyl. destruct (Hfresh l Hcopyl) as [Hnone _]. congruence.
Qed.

(** X17: [Body] returns a copy of the transactions: the slice in the
    returned [Body] shows the transactions of the block and lives where
    nothing was before the call, so whatever is written through it, every
    cell that existed keeps its contents and the block shows the same
    transactions. *)
Theorem Body_returns_a_copy (h : mem.heap) (b : mem.loc)
    (ps : list mem.loc) :
  mem.loadTxs h b = Some ps ->
  exists body h1,
    memblock.Block_Body h b = Some (body, h1)
    /\ mem.ptrsOf h1 (memblock.Txs body) = Some ps
    /\ forall l c, mem.arrayOf (memblock.Txs body) = Some l ->
         h !! l = None
         /\ h ⊆ mem.mutate h1 l c
         /\ mem.loadTxs (mem.mutate h1 l c) b = Some ps.
Proof.
  unfold mem.loadTxs, memblock.Block_Body. intros Hload.
  destruct (mem.getBlock h b) as [o |] eqn:Ho; [| discriminate].
  destruct (appendNilPtrs_spec h _ _ Hload)
    as (s & h1 & Happ & Hs & _ & Hl).
  exists {| memblock.Txs := s |}, h1. rewrite Happ.
  split; [reflexivity |]. split; [exact Hs |].
  intros l c Harr. cbn [memblock.Txs] in Harr.
  destruct (Hl l Harr) as (Hfree & c0 & ->).
  pose proof (mutate_fresh h l c0 c Hfree) as Hsub.
  split; [exact Hfree |]. split; [exact Hsub |].
  rewrite (getBlock_weaken h _ b o Ho Hsub).
  eapply ptrsOf_weaken; eassumption.
Qed.

Section FreshHash.

Variable encodeClause : tx.Clause -> result (list byte).
Variable hasher : list byte -> thor.Hash.

(** X18: [WithSignature] does not take over the cached hash: the new
    transaction has none, so its [Hash] is the hash of its own encoding,
    with the new signature, whatever hash the receiver had cached. *)
Theorem WithSignature_drops_cached_hash (h : mem.heap) (t : mem.loc)
    (sig : mem.slice) (v : tx.Transaction) (s : list byte) :
  mem.load h t = Some v ->
  mem.bytesOf h sig = Some s ->
  exists t' h',
    mem.Transaction_WithSignature h t sig = Some (t', h')
    /\ let v' := {| tx.tbody := tx.set_Signature (tx.tbody v) s;
                    tx.cache_hash := None |} in
       mem.load h' t' = Some v'
       /\ fst (tx.Hash encodeClause hasher v')
          = hasher (tx.written (tx.EncodeRLP encodeClause v')).
Proof.
  intros Hload Hsig.
  destruct (load_Signature h t v Hload) as (o & Ho & Hgp & Hosig).
  destruct (appendNilBytes_spec h sig s Hsig)
    as (sig' & h1 & Happ & Hsig' & Hsub1 & _).
  set (newTx :=
         {| mem.Clauses := mem.Clauses o; mem.GasPrice := mem.GasPrice o;
            mem.Gas := mem.Gas o; mem.Nonce := mem.Nonce o;
            mem.TimeBarrier := mem.TimeBarrier o;
            mem.DependsOn := mem.DependsOn o; mem.Signature := sig';
            mem.cache_hash := None |}).
  destruct (mem.alloc h1 (mem.TxObj newTx)) as [t' h'] eqn:Ha.
  destruct (alloc_spec _ _ _ _ Ha) as (_ & Hh' & Hsub2).
  assert (h ⊆ h') as Hsub by (etrans; eassumption).
  assert (tx.tbody v
          = {| tx.Clauses := mem.Clauses o;
               tx.GasPrice := tx.GasPrice (tx.tbody v);
               tx.Gas := mem.Gas o; tx.Nonce := mem.Nonce o;
               tx.TimeBarrier := mem.TimeBarrier o;
               tx.DependsOn := mem.DependsOn o;
               tx.Signature := tx.Signature (tx.tbody v) |}) as Hv.
  { unfold mem.load in Hload. rewrite Ho, Hgp, Hosig in Hload.
    injection Hload as <-. reflexivity. }
  exists t', h'.
  split.
  { unfold mem.Transaction_WithSignature. rewrite Ho, Happ. fold newTx.
    rewrite Ha. reflexivity. }
  cbv zeta. split; [| reflexivity].
  unfold mem.load, mem.getTx. rewrite Hh', lookup_insert_eq.
  cbn [mem.GasPrice mem.Signature newTx].
  rewrite <- Hh'.
  rewrite (getBigInt_weaken h h' _ _ Hgp Hsub).
  rewrite (bytesOf_weaken h1 h' _ _ Hsig' Hsub2).
  rewrite Hv. reflexivity.
Qed.

End FreshHash.

(** ** The further statements at concrete values *)

Lemma sample_codecReady (t : tx.Transaction) :
  In t [sample.tx1; sample.tx2] ->
  codecReady sample.encodeClause sample.decodeClause t.
Proof.
  intros Hin. destruct (sample_tx_wellTyped t Hin) as [Hwt Hcl].
  split; [exact Hwt |]. split; [reflexivity | exact Hcl].
Qed.

Lemma sample_blockReady :
  blockReady sample.encodeHeader sample.decodeHeader sample.encodeClause
    sample.decodeClause sample.block1.
Proof.
  split; [reflexivity |]. split.
  - intros enc Henc. apply sample_header_decodes.
    + unfold is_uint64. cbn. lia.
    + exact Henc.
    + vm_compute in Henc. injection Henc as <-. vm_compute. reflexivity.
  - intros t Hin. apply sample_tx_wellTyped. exact Hin.
Qed.

Lemma ClauseIterator_collects_clauses_witness :
  iter.collect 5 (iter.NewClauseIterator sample.tx1)
  = [(Some sample.transfer, 0); (Some sample.creation, 1)].
Proof.
  destruct (ClauseIterator_collects_clauses sample.tx1 5) as [Heq _].
  - vm_compute. discriminate.
  - exact Heq.
Defined.

Lemma IntrinsicGas_closed_form_witness :
  tx.IntrinsicGas sample.ClauseGas sample.ClauseGasContractCreation
    sample.tx1 = Ok (21000 + 48000 + (0 + 140)).
Proof.
  apply (IntrinsicGas_closed_form sample.ClauseGas
           sample.ClauseGasContractCreation sample_ClauseGas_le
           sample_ClauseGasContractCreation_le sample.tx1 sample.transfer
           [sample.creation]).
  reflexivity.
Defined.

Lemma IntrinsicGas_grows_with_clauses_witness :
  tx.IntrinsicGas sample.ClauseGas sample.ClauseGasContractCreation
    (sample.calls 1) = Ok 21000
  /\ tx.IntrinsicGas sample.ClauseGas sample.ClauseGasContractCreation
       (sample.calls 3) = Ok 53000
  /\ params.TxGas <= 21000 <= 53000.
Proof.
  split; [reflexivity |]. split; [reflexivity |].
  destruct (IntrinsicGas_grows_with_clauses sample.ClauseGas
              sample.ClauseGasContractCreation sample_ClauseGas_le
              sample_ClauseGasContractCreation_le (sample.calls 1)
              (sample.calls 3) (replicate 2 sample.transfer) eq_refl)
    as [Hgrow _].
  apply Hgrow; reflexivity.
Defined.

Lemma IntrinsicGas_succeeds_when_small_witness :
  exists v,
    tx.IntrinsicGas sample.ClauseGas sample.ClauseGasContractCreation
      sample.tx1 = Ok v
    /\ params.TxGas <= v <= Z.max params.TxGas (53000 * 2 + 68 * 3).
Proof.
  apply (IntrinsicGas_succeeds_when_small sample.ClauseGas
           sample.ClauseGasContractCreation sample_ClauseGas_le
           sample_ClauseGasContractCreation_le sample.tx1).
  vm_compute. reflexivity.
Defined.

Lemma DecodeRLP_rejects_signing_fields_witness :
  tx.DecodeRLP sample.decodeClause sample.tx2
    (rlp.writeList
       (tx.written (tx.encodeSigningFields sample.encodeClause
                      (tx.tbody sample.tx1))) ++ [x01])
  = (sample.tx2, Err ErrTooFewElements).
Proof.
  apply (DecodeRLP_rejects_signing_fields sample.encodeClause
           sample.decodeClause sample.tx1).
  - apply sample_codecReady. left. reflexivity.
  - vm_compute. reflexivity.
  - vm_compute. reflexivity.
Defined.

Lemma DecodeRLP_rejects_extra_field_witness :
  tx.DecodeRLP sample.decodeClause sample.tx2
    (rlp.writeList
       (tx.written (tx.encodeSigningFields sample.encodeClause
                      (tx.tbody sample.tx1))
          ++ rlp.encodeString (tx.Signature (tx.tbody sample.tx1))
          ++ [x80]) ++ [])
  = (sample.tx2, Err ErrNotAtEOL).
Proof.
  apply (DecodeRLP_rejects_extra_field sample.encodeClause
           sample.decodeClause sample.tx1).
  - apply sample_codecReady. left. reflexivity.
  - vm_compute. reflexivity.
  - discriminate.
  - vm_compute. reflexivity.
Defined.

Lemma signing_fields_encoding_injective_witness :
  tx.Clauses (tx.tbody sample.tx1) = [sample.transfer; sample.creation]
  /\ tx.GasPrice (tx.tbody sample.tx1) = 1000000
  /\ tx.Gas (tx.tbody sample.tx1) = 100000
  /\ tx.Nonce (tx.tbody sample.tx1) = 7
  /\ tx.TimeBarrier (tx.tbody sample.tx1) = 0
  /\ tx.DependsOn (tx.tbody sample.tx1) = None.
Proof.
  apply (signing_fields_encoding_injective sample.encodeClause
           sample.decodeClause sample.tx1
           {| tx.tbody :=
                tx.set_Signature (tx.tbody sample.tx1) (replicate 65 x07);
              tx.cache_hash := None |}
           (tx.written (tx.encodeSigningFields sample.encodeClause
                          (tx.tbody sample.tx1)))).
  - apply sample_codecReady. left. reflexivity.
  - destruct (sample_codecReady sample.tx1) as (Hwt & Hend & Hcl);
      [left; reflexivity |].
    split; [exact Hwt |]. split; [exact Hend | exact Hcl].
  - vm_compute. reflexivity.
  - vm_compute. reflexivity.
  - vm_compute. reflexivity.
Defined.

Lemma EncodeRLP_injective_witness :
  tx.tbody sample.tx2 = tx.tbody (uncached sample.tx2).
Proof.
  apply (EncodeRLP_injective sample.encodeClause sample.decodeClause
           sample.tx2 (uncached sample.tx2)
           (tx.written (tx.EncodeRLP sample.encodeClause sample.tx2))).
  - apply sample_codecReady. right. left. reflexivity.
  - apply (sample_codecReady sample.tx2). right. left. reflexivity.
  - vm_compute. reflexivity.
  - vm_compute. reflexivity.
  - vm_compute. reflexivity.
Defined.

Lemma DecodeRLP_takes_empty_list_for_nil_witness :
  exists other,
    other <> tx.written (tx.EncodeRLP sample.encodeClause sample.tx1)
    /\ tx.DecodeRLP sample.decodeClause sample.tx2 (other ++ [])
       = (uncached sample.tx1, Ok []).
Proof.
  destruct (DecodeRLP_takes_empty_list_for_nil sample.encodeClause
              sample.decodeClause sample.tx1 sample.tx2
              (tx.written (tx.encodeClauses sample.encodeClause
                             (tx.Clauses (tx.tbody sample.tx1))))
              (tx.written (rlp.writeBigInt
                             (tx.GasPrice (tx.tbody sample.tx1))))
              []) as (Henc & Hne & Hdec).
  - apply sample_codecReady. left. reflexivity.
  - vm_compute. reflexivity.
  - vm_compute. reflexivity.
  - reflexivity.
  - vm_compute. reflexivity.
  - eexists. split; [| exact Hdec].
    rewrite Henc. exact Hne.
Defined.

Lemma Hash_after_round_trip_witness :
  fst (tx.Hash sample.encodeClause sample.hasher
         (fst (tx.DecodeRLP sample.decodeClause sample.tx2
                 (tx.written (tx.EncodeRLP sample.encodeClause sample.tx1)
                    ++ []))))
  = sample.hasher (tx.written (tx.EncodeRLP sample.encodeClause sample.tx1)).
Proof.
  destruct (Hash_after_round_trip sample.encodeClause sample.decodeClause
              sample.hasher sample.tx1 sample.tx2
              (tx.written (tx.EncodeRLP sample.encodeClause sample.tx1)) [])
    as [_ H].
  - apply sample_codecReady. left. reflexivity.
  - intros c Hc. discriminate.
  - vm_compute. reflexivity.
  - vm_compute. reflexivity.
  - exact H.
Defined.

Lemma Hash_ignores_encoding_error_witness :
  tx.EncodeRLP sample.encodeClause
    {| tx.tbody := tx.set_GasPrice (tx.tbody sample.tx1) (-1);
       tx.cache_hash := None |} = Err ErrNegativeBigInt
  /\ tx.SigningHash sample.encodeClause sample.hasher
       {| tx.tbody := tx.set_GasPrice (tx.tbody sample.tx1) (-1);
          tx.cache_hash := None |} = sample.hasher []
  /\ fst (tx.Hash sample.encodeClause sample.hasher
            {| tx.tbody := tx.set_GasPrice (tx.tbody sample.tx1) (-1);
               tx.cache_hash := None |}) = sample.hasher [].
Proof.
  destruct (Hash_ignores_encoding_error sample.encodeClause sample.hasher
              {| tx.tbody := tx.set_GasPrice (tx.tbody sample.tx1) (-1);
                 tx.cache_hash := None |}) as [Hneg Herr].
  assert (tx.EncodeRLP sample.encodeClause
            {| tx.tbody := tx.set_GasPrice (tx.tbody sample.tx1) (-1);
               tx.cache_hash := None |} = Err ErrNegativeBigInt) as He.
  { eapply Hneg; [cbn; lia | vm_compute; reflexivity]. }
  destruct (Herr _ He) as [Hs Hh].
  split; [exact He |]. split; [exact Hs | apply Hh; reflexivity].
Defined.

Lemma block_EncodeRLP_injective_witness :
  block_equal sample.block1
    {| block.header := sample.header1;
       block.txs := [sample.tx1; sample.tx2];
       block.cache_size := Some 0 |}.
Proof.
  apply (block_EncodeRLP_injective sample.Header sample.zero_Header
           sample.encodeHeader sample.decodeHeader sample.encodeClause
           sample.decodeClause sample.block1
           {| block.header := sample.header1;
              block.txs := [sample.tx1; sample.tx2];
              block.cache_size := Some 0 |}
           (tx.written (block.EncodeRLP sample.Header sample.encodeHeader
                          sample.encodeClause sample.block1))).
  - exact sample_blockReady.
  - exact sample_blockReady.
  - vm_compute. reflexivity.
  - vm_compute. reflexivity.
  - vm_compute. reflexivity.
Defined.

Lemma Size_after_round_trip_witness :
  fst (block.Size sample.Header sample.encodeHeader sample.encodeClause
         (fst (block.DecodeRLP sample.Header sample.zero_Header
                 sample.decodeHeader sample.decodeClause
                 {| block.header := sample.zero_Header; block.txs := [];
                    block.cache_size := Some 3 |}
                 (tx.written (block.EncodeRLP sample.Header
                                sample.encodeHeader sample.encodeClause
                                sample.block1) ++ [x80]))))
  = 175.
Proof.
  destruct (Size_after_round_trip sample.Header sample.zero_Header
              sample.encodeHeader sample.decodeHeader sample.encodeClause
              sample.decodeClause sample.block1
              {| block.header := sample.zero_Header; block.txs := [];
                 block.cache_size := Some 3 |}
              (tx.written (block.EncodeRLP sample.Header sample.encodeHeader
                             sample.encodeClause sample.block1)) [x80])
    as [Hsize _].
  - exact sample_blockReady.
  - vm_compute. reflexivity.
  - vm_compute. reflexivity.
  - rewrite Hsize. vm_compute. reflexivity.
Defined.

Lemma Size_whatever_the_chunks_witness :
  fst (block.Size sample.Header sample.encodeHeader sample.encodeClause
         sample.block1)
  = counter.writeAll 0
      [take 10 (tx.written (block.EncodeRLP sample.Header
                              sample.encodeHeader sample.encodeClause
                              sample.block1));
       [];
       drop 10 (tx.written (block.EncodeRLP sample.Header
                              sample.encodeHeader sample.encodeClause
                              sample.block1))].
Proof.
  apply (Size_whatever_the_chunks sample.Header sample.encodeHeader
           sample.encodeClause sample.block1).
  - reflexivity.
  - vm_compute. reflexivity.
Defined.

Lemma Compose_copies_the_slice_witness :
  exists b h',
    memblock.Compose sample.heap1 9%positive (mem.Slice 6%positive 0 1)
    = Some (b, h')
    /\ sample.heap1 !! b = None
    /\ sample.heap1 ⊆ h'
    /\ mem.loadTxs h' b = Some [1%positive]
    /\ forall l c, mem.arrayOf (mem.Slice 6%positive 0 1) = Some l ->
         mem.loadTxs (mem.mutate h' l c) b = Some [1%positive].
Proof.
  apply (Compose_copies_the_slice sample.heap1 9%positive
           (mem.Slice 6%positive 0 1) [1%positive]).
  vm_compute. reflexivity.
Defined.

Lemma Body_returns_a_copy_witness :
  exists body h1,
    memblock.Block_Body sample.heap1 5%positive = Some (body, h1)
    /\ mem.ptrsOf h1 (memblock.Txs body) = Some [1%positive]
    /\ forall l c, mem.arrayOf (memblock.Txs body) = Some l ->
         sample.heap1 !! l = None
         /\ sample.heap1 ⊆ mem.mutate h1 l c
         /\ mem.loadTxs (mem.mutate h1 l c) 5%positive = Some [1%positive].
Proof.
  apply (Body_returns_a_copy sample.heap1 5%positive [1%positive]).
  vm_compute. reflexivity.
Defined.

Lemma WithSignature_drops_cached_hash_witness :
  exists t' h',
    mem.Transaction_WithSignature sample.heap1 1%positive
      (mem.Slice 4%positive 0 65) = Some (t', h')
    /\ mem.load h' t'
       = Some {| tx.tbody := tx.set_Signature (tx.tbody sample.value1)
                               (replicate 65 x05);
                 tx.cache_hash := None |}
    /\ fst (tx.Hash sample.encodeClause sample.hasher
              {| tx.tbody := tx.set_Signature (tx.tbody sample.value1)
                               (replicate 65 x05);
                 tx.cache_hash := None |})
       = sample.hasher
           (tx.written
              (tx.EncodeRLP sample.encodeClause
                 {| tx.tbody := tx.set_Signature (tx.tbody sample.value1)
                                  (replicate 65 x05);
                    tx.cache_hash := None |})).
Proof.
  apply (WithSignature_drops_cached_hash sample.encodeClause sample.hasher
           sample.heap1 1%positive (mem.Slice 4%positive 0 65) sample.value1
           (replicate 65 x05)).
  - vm_compute. reflexivity.
  - vm_compute. reflexivity.
Defined.
